(** * A skip-list ordered set: shallow embedding of [skip_list.hpp]

    The C++ class [SkipList<T>] keeps its nodes behind [std::shared_ptr].
    We model the free store as a list of nodes addressed by index; a
    [shared_ptr<Node>] is an [option ptr] ([None] is [nullptr]).  Nodes are
    never removed from the store: a node stays alive as long as some
    [shared_ptr] (a link, an iterator) refers to it, and a node nobody
    refers to cannot be observed.

    Every operation returns how the call ended: normally, by a C++
    exception, by undefined behaviour (a null or out-of-range access), or
    by running forever. *)

From stdpp Require Import base option list sorting strings.
From Stdlib Require Import ZArith Lia.

(** ** Outcomes of calls *)

Inductive exn : Type :=
  | runtime_error (msg : string)
  | bad_alloc.

Inductive outcome (A : Type) : Type :=
  | Ok (a : A)
  | Throw (e : exn)
  | Fault
  | Diverge.

Arguments Ok {A} a.
Arguments Throw {A} e.
Arguments Fault {A}.
Arguments Diverge {A}.

Definition obind {A B : Type} (m : outcome A) (k : A → outcome B) : outcome B :=
  match m with
  | Ok a => k a
  | Throw e => Throw e
  | Fault => Fault
  | Diverge => Diverge
  end.

Notation "x ←? m ; k" := (obind m (fun x => k))
  (at level 20, m at level 100, k at level 200, only parsing, right associativity).

(** A raw pointer value: the index of a node in the store. *)
Abbreviation ptr := nat.

(** [std::vector::operator[]] read; out of range is undefined behaviour. *)
Definition vec_get {A : Type} (l : list A) (i : nat) : outcome A :=
  match l !! i with
  | Some x => Ok x
  | None => Fault
  end.

(** [std::vector::operator[]] write. *)
Definition vec_set {A : Type} (l : list A) (i : nat) (x : A) : outcome (list A) :=
  if decide (i < length l) then Ok (<[i := x]> l) else Fault.

(** [size_t] is taken to be 64 bits wide. *)
Definition SIZE_MOD : Z := 2 ^ 64.

(** ** Element types and a random source to run the code on *)




(** A random source that plays back a list of outcomes of
    [dist(rng) < P], and then says no. *)
Definition draw_list (g : list bool) : bool * list bool :=
  match g with
  | [] => (false, [])
  | b :: g' => (b, g')
  end.

Section SkipList.

(** The element type with its [operator<] and [operator==] ([a != b] is
    [!(a == b)]), and its value-initialised object [T{}]. *)
Context {T : Type}.
Variable lt : T → T → bool.
Variable eqb : T → T → bool.
Variable dflt : T.

(** The random source: [draw] is one evaluation of [dist(rng) < P]. *)
Context {RNG : Type}.
Variable draw : RNG → bool * RNG.

Record Node : Type := mkNode {
  value : T;
  forward : list (option ptr)
}.

(** [Node(const T& val, size_t level)] and [Node(T&& val, size_t level)]:
    the first copies [val] into the node and the second moves it there;
    either way the node holds the value and [level + 1] null links. *)
Definition Node_copy (val : T) (level : nat) : Node :=
  mkNode val (replicate (level + 1) None).

Definition Node_move (val : T) (level : nat) : Node :=
  mkNode val (replicate (level + 1) None).

(** The free store. *)
Abbreviation heap := (list Node).

Definition MAX_LEVEL : nat := 32.

Record SkipList : Type := mkSkipList {
  head : option ptr;
  current_level : nat;
  size_ : Z;
  rng : RNG
}.

(** How a mutating member function ends: the store and the object as the
    call leaves them, also when it leaves by an exception. *)
Inductive mut (A : Type) : Type :=
  | Done (a : A) (h : heap) (s : SkipList)
  | Raised (e : exn) (h : heap) (s : SkipList)
  | MFault
  | MDiverge.

Arguments Done {A} a h s.
Arguments Raised {A} e h s.
Arguments MFault {A}.
Arguments MDiverge {A}.

(** ** Memory accesses *)

(** [*p] for a non-null [p]. *)
Definition load (h : heap) (p : ptr) : outcome Node :=
  match h !! p with
  | Some n => Ok n
  | None => Fault
  end.

(** [p->forward[i]]. *)
Definition fwd (h : heap) (p : ptr) (i : nat) : outcome (option ptr) :=
  n ←? load h p; vec_get (forward n) i.

(** [p->forward[i] = x]. *)
Definition set_fwd (h : heap) (p : ptr) (i : nat) (x : option ptr) : outcome heap :=
  n ←? load h p;
  fw ←? vec_set (forward n) i x;
  Ok (<[p := mkNode (value n) fw]> h).

(** [std::make_shared<Node>(...)]: the new node gets the next free address. *)
Definition alloc (h : heap) (n : Node) : heap * ptr := (h ++ [n], length h).

(** ** [random_level] *)

Fixpoint random_level_loop (fuel : nat) (level : nat) (g : RNG) : nat * RNG :=
  let '(b, g') := draw g in
  if b && bool_decide (level < MAX_LEVEL) then
    match fuel with
    | 0 => (level, g')
    | S f => random_level_loop f (S level) g'
    end
  else (level, g').

(** The loop body runs at most [MAX_LEVEL] times, so this fuel is never
    used up (see [random_level_loop_fuel]). *)
Definition random_level (g : RNG) : nat * RNG :=
  random_level_loop MAX_LEVEL 0 g.

(** ** The search shared by [insert], [erase] and [find] *)

(** The inner loop
    [while (current->forward[i] && current->forward[i]->value < value)].
    The store is not written during the loop, so the walk is determined by
    the node it stands on: a walk of more steps than there are nodes has
    visited a node twice and never ends.  The fuel [S (length h)] used by
    the callers is therefore exact. *)
Fixpoint advance_while (fuel : nat) (h : heap) (i : nat) (v : T) (cur : ptr)
  : outcome ptr :=
  match fuel with
  | 0 => Diverge
  | S f =>
      nx ←? fwd h cur i;
      match nx with
      | None => Ok cur
      | Some n =>
          nd ←? load h n;
          if lt (value nd) v then advance_while f h i v n else Ok cur
      end
  end.

(** [for (int i = current_level; i >= 0; i--) { while ...; update[i] = current; }]
    with [n = i + 1] levels left to do. *)
Fixpoint descend (h : heap) (v : T) (n : nat) (cur : ptr)
    (update : list (option ptr)) : outcome (ptr * list (option ptr)) :=
  match n with
  | 0 => Ok (cur, update)
  | S i =>
      cur' ←? advance_while (S (length h)) h i v cur;
      update' ←? vec_set update i (Some cur');
      descend h v i cur' update'
  end.

(** The same loop in [find], which keeps no [update] vector. *)
Fixpoint descend_find (h : heap) (v : T) (n : nat) (cur : ptr) : outcome ptr :=
  match n with
  | 0 => Ok cur
  | S i =>
      cur' ←? advance_while (S (length h)) h i v cur;
      descend_find h v i cur'
  end.

(** ** [insert] *)

(** [for (size_t i = current_level + 1; i <= new_level; i++) update[i] = head;] *)
Fixpoint raise_update (count : nat) (i : nat) (hd : option ptr)
    (update : list (option ptr)) : outcome (list (option ptr)) :=
  match count with
  | 0 => Ok update
  | S c =>
      update' ←? vec_set update i hd;
      raise_update c (S i) hd update'
  end.

(** [for (size_t i = 0; i <= new_level; i++) {
       new_node->forward[i] = update[i]->forward[i];
       update[i]->forward[i] = new_node; }] *)
Fixpoint splice (count : nat) (i : nat) (h : heap)
    (update : list (option ptr)) (new_node : ptr) : outcome heap :=
  match count with
  | 0 => Ok h
  | S c =>
      u ←? vec_get update i;
      match u with
      | None => Fault
      | Some pu =>
          x ←? fwd h pu i;
          h1 ←? set_fwd h new_node i x;
          h2 ←? set_fwd h1 pu i (Some new_node);
          splice c (S i) h2 update new_node
      end
  end.

(** [!current || current->value != value] *)
Definition differs (h : heap) (c : option ptr) (v : T) : outcome bool :=
  match c with
  | None => Ok true
  | Some p => nd ←? load h p; Ok (negb (eqb (value nd) v))
  end.

(** [current && current->value == value] *)
Definition matches (h : heap) (c : option ptr) (v : T) : outcome bool :=
  match c with
  | None => Ok false
  | Some p => nd ←? load h p; Ok (eqb (value nd) v)
  end.

(** [if (new_level > current_level) { for ... update[i] = head;
        current_level = new_level; }]: the [update] vector and the
    [current_level] after it. *)
Definition raise_level (s : SkipList) (new_level : nat)
    (update : list (option ptr)) : outcome (list (option ptr) * nat) :=
  if decide (current_level s < new_level) then
    update' ←? raise_update (new_level - current_level s)
                  (current_level s + 1) (head s) update;
    Ok (update', new_level)
  else Ok (update, current_level s).

(** What [insert] does once the search has produced [update] and the test
    said that the value is to be added.  [mk] is the [Node] constructor
    that the overload calls and [node_ok] tells whether
    [std::make_shared<Node>] succeeds. *)
Definition insert_new (mk : T → nat → Node) (node_ok : bool) (h : heap)
    (s : SkipList) (update : list (option ptr)) (v : T) : mut unit :=
  let new_level := (random_level (rng s)).1 in
  let g := (random_level (rng s)).2 in
  match raise_level s new_level update with
  | Ok (update', cl) =>
      if node_ok then
        let h1 := (alloc h (mk v new_level)).1 in
        let new_node := (alloc h (mk v new_level)).2 in
        match splice (S new_level) 0 h1 update' new_node with
        | Ok h2 =>
            Done tt h2 (mkSkipList (head s) cl ((size_ s + 1) `mod` SIZE_MOD) g)
        | Throw e => Raised e h1 (mkSkipList (head s) cl (size_ s) g)
        | Fault => MFault
        | Diverge => MDiverge
        end
      else Raised bad_alloc h (mkSkipList (head s) cl (size_ s) g)
  | Throw e => Raised e h s
  | Fault => MFault
  | Diverge => MDiverge
  end.

(** The body of [insert].  The two overloads are the same text but for
    the [Node] constructor that [std::make_shared] calls, which is [mk]
    here.  This is the call once its first statement, the allocation of
    the [update] vector (lines 159 and 190), has been done; [insert_call]
    and [insert_rv_call] below are the calls with that allocation. *)
Definition insert_with (mk : T → nat → Node) (node_ok : bool) (h : heap)
    (s : SkipList) (v : T) : mut unit :=
  match head s with
  | None => MFault
  | Some hd =>
      let found : outcome (list (option ptr) * bool) :=
        r ←? descend h v (S (current_level s)) hd
                (replicate (MAX_LEVEL + 1) None);
        c ←? fwd h r.1 0;
        d ←? differs h c v;
        Ok (r.2, d) in
      match found with
      | Ok (update, true) => insert_new mk node_ok h s update v
      | Ok (update, false) => Done tt h s
      | Throw e => Raised e h s
      | Fault => MFault
      | Diverge => MDiverge
      end
  end.

(** [void insert(const T& value)] *)
Definition insert : bool → heap → SkipList → T → mut unit :=
  insert_with Node_copy.

(** [void insert(T&& value)] *)
Definition insert_rv : bool → heap → SkipList → T → mut unit :=
  insert_with Node_move.

(** ** [erase] *)

(** [for (size_t i = 0; i <= current_level; i++) {
       if (update[i]->forward[i] != current) break;
       update[i]->forward[i] = current->forward[i]; }] *)
Fixpoint unlink (count : nat) (i : nat) (h : heap)
    (update : list (option ptr)) (cur : ptr) : outcome heap :=
  match count with
  | 0 => Ok h
  | S c =>
      u ←? vec_get update i;
      match u with
      | None => Fault
      | Some pu =>
          x ←? fwd h pu i;
          if decide (x ≠ Some cur) then Ok h
          else
            y ←? fwd h cur i;
            h1 ←? set_fwd h pu i y;
            unlink c (S i) h1 update cur
      end
  end.

(** [while (current_level > 0 && !head->forward[current_level]) current_level--;] *)
Fixpoint lower_level (h : heap) (hd : ptr) (cl : nat) : outcome nat :=
  match cl with
  | 0 => Ok 0
  | S k =>
      x ←? fwd h hd (S k);
      match x with
      | None => lower_level h hd k
      | Some _ => Ok (S k)
      end
  end.

(** [bool erase(const T& value)], from line 222 on, once the [update]
    vector of line 221 has been allocated; [erase_call] below is the call
    with that allocation. *)
Definition erase (h : heap) (s : SkipList) (v : T) : mut bool :=
  match head s with
  | None => MFault
  | Some hd =>
      let found : outcome (list (option ptr) * option ptr * bool) :=
        r ←? descend h v (S (current_level s)) hd
                (replicate (MAX_LEVEL + 1) None);
        c ←? fwd h r.1 0;
        m ←? matches h c v;
        Ok (r.2, c, m) in
      match found with
      | Ok (update, Some c, true) =>
          let done : outcome (heap * nat) :=
            h1 ←? unlink (S (current_level s)) 0 h update c;
            cl ←? lower_level h1 hd (current_level s);
            Ok (h1, cl) in
          match done with
          | Ok (h1, cl) =>
              Done true h1
                (mkSkipList (head s) cl ((size_ s - 1) `mod` SIZE_MOD) (rng s))
          | Throw e => Raised e h s
          | Fault => MFault
          | Diverge => MDiverge
          end
      | Ok (_, _, _) => Done false h s
      | Throw e => Raised e h s
      | Fault => MFault
      | Diverge => MDiverge
      end
  end.

(** ** Iterators *)

(** An [Iterator] is its [current] field. *)
Definition Iterator : Type := option ptr.

Definition NULL_MSG : string := "Dereferencing null iterator"%string.

(** [reference operator*()] *)
Definition deref (h : heap) (it : Iterator) : outcome T :=
  match it with
  | None => Throw (runtime_error NULL_MSG)
  | Some p => nd ←? load h p; Ok (value nd)
  end.

(** [pointer operator->()]: the address of the node's value, which we
    identify with the address of the node. *)
Definition arrow (h : heap) (it : Iterator) : outcome ptr :=
  match it with
  | None => Throw (runtime_error NULL_MSG)
  | Some p => Ok p
  end.

(** [Iterator& operator++()] *)
Definition incr (h : heap) (it : Iterator) : outcome Iterator :=
  match it with
  | None => Ok None
  | Some p => fwd h p 0
  end.

(** [Iterator operator++(int)]: the old position and the new one. *)
Definition post_incr (h : heap) (it : Iterator) : outcome (Iterator * Iterator) :=
  it' ←? incr h it; Ok (it, it').

Definition iter_eq (a b : Iterator) : bool := bool_decide (a = b).
Definition iter_ne (a b : Iterator) : bool := negb (iter_eq a b).

(** ** [find], [begin], [end], [size], [empty], [clear] *)

Definition find (h : heap) (s : SkipList) (v : T) : outcome Iterator :=
  match head s with
  | None => Fault
  | Some hd =>
      cur ←? descend_find h v (S (current_level s)) hd;
      c ←? fwd h cur 0;
      m ←? matches h c v;
      if m then Ok c else Ok None
  end.

Definition begin_ (h : heap) (s : SkipList) : outcome Iterator :=
  match head s with
  | None => Fault
  | Some hd => fwd h hd 0
  end.

Definition end_ (s : SkipList) : Iterator := None.

Definition size (s : SkipList) : Z := size_ s.

Definition empty (s : SkipList) : bool := bool_decide (size_ s = 0%Z).

(** [clear()]; [node_ok] tells whether [std::make_shared<Node>] succeeds. *)
Definition clear (node_ok : bool) (h : heap) (s : SkipList) : mut unit :=
  if node_ok then
    Done tt (alloc h (Node_move dflt MAX_LEVEL)).1
      (mkSkipList (Some (alloc h (Node_move dflt MAX_LEVEL)).2) 0 0 (rng s))
  else Raised bad_alloc h s.

(** ** Construction and moves *)

(** [SkipList()]; [seed] is the generator state obtained from
    [std::random_device]. *)
Definition SkipList_new (h : heap) (seed : RNG) : heap * SkipList :=
  ((alloc h (Node_move dflt MAX_LEVEL)).1,
   mkSkipList (Some (alloc h (Node_move dflt MAX_LEVEL)).2) 0 0 seed).

(** [SkipList(SkipList&& other)]: the new object and what is left of
    [other].  Moving a [shared_ptr] leaves it null; moving a
    [std::mt19937] copies it. *)
Definition move_construct (other : SkipList) : SkipList * SkipList :=
  (mkSkipList (head other) (current_level other) (size_ other) (rng other),
   mkSkipList None 0 0 (rng other)).

(** [operator=(SkipList&& other)] for [this != &other]: the assigned
    object and what is left of [other]. *)
Definition move_assign (this other : SkipList) : SkipList * SkipList :=
  (mkSkipList (head other) (current_level other) (size_ other) (rng other),
   mkSkipList None 0 0 (rng other)).

(** [std::swap(a, b)]: [T tmp(std::move(a)); a = std::move(b);
    b = std::move(tmp);], for two different objects. *)
Definition swap (a b : SkipList) : SkipList * SkipList :=
  let tmp := (move_construct a).1 in
  let a1 := (move_construct a).2 in
  let a2 := (move_assign a1 b).1 in
  let b1 := (move_assign a1 b).2 in
  let b2 := (move_assign b1 tmp).1 in
  (a2, b2).

(** The loop [for (const auto& item : other) insert(item);] of the copy
    constructor, from the iterator [it] on.  [ok k] tells whether the
    [k]-th allocation of a node in this call succeeds.  The loop writes
    only to nodes of the set under construction, so it walks the nodes
    of [other] as a loop that writes nothing would; the fuel
    [S (length h)] of [copy_construct] bounds such a walk. *)
Fixpoint copy_loop (ok : nat → bool) (k : nat) (fuel : nat) (h : heap)
    (this : SkipList) (it : Iterator) : mut unit :=
  match fuel with
  | 0 => MDiverge
  | S f =>
      if iter_ne it None then
        match deref h it with
        | Ok x =>
            match insert (ok k) h this x with
            | Done _ h1 this1 =>
                match incr h1 it with
                | Ok it' => copy_loop ok (S k) f h1 this1 it'
                | Throw e => Raised e h1 this1
                | Fault => MFault
                | Diverge => MDiverge
                end
            | Raised e h1 this1 => Raised e h1 this1
            | MFault => MFault
            | MDiverge => MDiverge
            end
        | Throw e => Raised e h this
        | Fault => MFault
        | Diverge => MDiverge
        end
      else Done tt h this
  end.

(** [SkipList(const SkipList& other) : SkipList()]: the store and the new
    object.  When the constructor leaves by an exception there is no new
    object; [Raised] then carries what had been built of it. *)
Definition copy_construct (ok : nat → bool) (h : heap) (other : SkipList)
    (seed : RNG) : mut unit :=
  if ok 0 then
    match begin_ (SkipList_new h seed).1 other with
    | Ok it =>
        copy_loop ok 1 (S (length h)) (SkipList_new h seed).1
          (SkipList_new h seed).2 it
    | Throw e => Raised e (SkipList_new h seed).1 (SkipList_new h seed).2
    | Fault => MFault
    | Diverge => MDiverge
    end
  else Raised bad_alloc h (mkSkipList None 0 0 seed).

(** [operator=(const SkipList& other)] for [this != &other]:
    [SkipList temp(other); std::swap( *this, temp);].  When the copy
    throws, [this] is as it was. *)
Definition copy_assign (ok : nat → bool) (h : heap) (this other : SkipList)
    (seed : RNG) : mut unit :=
  match copy_construct ok h other seed with
  | Done _ h1 temp => Done tt h1 (swap this temp).1
  | Raised e h1 _ => Raised e h1 this
  | MFault => MFault
  | MDiverge => MDiverge
  end.

(** ** Full iteration

    [for (auto it = begin(); it != end(); ++it) out.push_back(body(it));]
    The store is not written by the loop, so as for [advance_while] the
    fuel [S (length h)] used by the callers is exact. *)

Fixpoint iterate {A : Type} (body : heap → Iterator → outcome A)
    (fuel : nat) (h : heap) (it : Iterator) : outcome (list A) :=
  match fuel with
  | 0 => Diverge
  | S f =>
      if iter_ne it None then
        x ←? body h it;
        it' ←? incr h it;
        xs ←? iterate body f h it';
        Ok (x :: xs)
      else Ok []
  end.

(** The values that [for (const auto& item : list)] sees. *)
Definition to_list (h : heap) (s : SkipList) : outcome (list T) :=
  it ←? begin_ h s; iterate deref (S (length h)) h it.

(** The nodes that the same loop stands on (as [operator->] gives them). *)
Definition nodes (h : heap) (s : SkipList) : outcome (list ptr) :=
  it ←? begin_ h s; iterate arrow (S (length h)) h it.

(** ** Sequences of calls on one set *)

Inductive op : Type :=
  | OpInsert (node_ok : bool) (v : T)
  | OpInsertRv (node_ok : bool) (v : T)
  | OpErase (v : T)
  | OpClear (node_ok : bool)
  | OpMove
  | OpCopy (ok : nat → bool) (seed : RNG)
  | OpCopyAssign (ok : nat → bool) (this : SkipList) (seed : RNG).

(** One call.  After [OpMove] we go on with the object that was move
    constructed from the set, after [OpCopy] with the copy of the set, and
    after [OpCopyAssign] with the object [this] that the set was assigned
    to.  A call that leaves by an exception leaves the object to its
    caller, who may go on using it; when a copy throws, that is the set
    that was to be copied. *)
Definition step (o : op) (h : heap) (s : SkipList) : option (heap * SkipList) :=
  match o with
  | OpInsert ok v =>
      match insert ok h s v with
      | Done _ h' s' | Raised _ h' s' => Some (h', s')
      | _ => None
      end
  | OpInsertRv ok v =>
      match insert_rv ok h s v with
      | Done _ h' s' | Raised _ h' s' => Some (h', s')
      | _ => None
      end
  | OpErase v =>
      match erase h s v with
      | Done _ h' s' | Raised _ h' s' => Some (h', s')
      | _ => None
      end
  | OpClear ok =>
      match clear ok h s with
      | Done _ h' s' | Raised _ h' s' => Some (h', s')
      | _ => None
      end
  | OpMove => Some (h, (move_construct s).1)
  | OpCopy ok seed =>
      match copy_construct ok h s seed with
      | Done _ h' c => Some (h', c)
      | Raised _ h' _ => Some (h', s)
      | _ => None
      end
  | OpCopyAssign ok this seed =>
      match copy_assign ok h this s seed with
      | Done _ h' c => Some (h', c)
      | Raised _ h' _ => Some (h', s)
      | _ => None
      end
  end.

Fixpoint run (ops : list op) (h : heap) (s : SkipList) : option (heap * SkipList) :=
  match ops with
  | [] => Some (h, s)
  | o :: ops' =>
      match step o h s with
      | Some (h', s') => run ops' h' s'
      | None => None
      end
  end.

(** ** What the library can refuse

    The calls above are given that the [update] vector of [insert] and
    [erase] could be allocated and that [std::random_device] delivered a
    seed.  Here are the calls with these two steps.

    [std::vector<std::shared_ptr<Node>> update(MAX_LEVEL + 1, nullptr);]
    is the first statement of both overloads of [insert] and of [erase]
    (lines 159, 190 and 221).  When it throws [std::bad_alloc], the set
    has not been read or written.  [vec_ok] tells whether the allocation
    succeeds. *)
Definition insert_call (vec_ok node_ok : bool) (h : heap) (s : SkipList)
    (v : T) : mut unit :=
  if vec_ok then insert node_ok h s v else Raised bad_alloc h s.

Definition insert_rv_call (vec_ok node_ok : bool) (h : heap) (s : SkipList)
    (v : T) : mut unit :=
  if vec_ok then insert_rv node_ok h s v else Raised bad_alloc h s.

Definition erase_call (vec_ok : bool) (h : heap) (s : SkipList) (v : T) :
    mut bool :=
  if vec_ok then erase h s v else Raised bad_alloc h s.

(** [SkipList()]: the members are initialised in the order in which they
    are declared, [head] by [std::make_shared] (line 114) before [rng] by
    [std::random_device{}()] (line 116).  [rd] is what the random device
    gives: a seed, or the exception that it throws.  A constructor that
    throws leaves no object, and what it had allocated is released. *)
Definition SkipList_call (node_ok : bool) (rd : exn + RNG) (h : heap) :
    outcome (heap * SkipList) :=
  if node_ok then
    match rd with
    | inr seed => Ok (SkipList_new h seed)
    | inl e => Throw e
    end
  else Throw bad_alloc.

(** The loop of the copy constructor, as [copy_loop], where the [k]-th
    [insert] allocates its [update] vector if [vec_ok k] and its node if
    [ok k]. *)
Fixpoint copy_loop_call (vec_ok ok : nat → bool) (k : nat) (fuel : nat)
    (h : heap) (this : SkipList) (it : Iterator) : mut unit :=
  match fuel with
  | 0 => MDiverge
  | S f =>
      if iter_ne it None then
        match deref h it with
        | Ok x =>
            match insert_call (vec_ok k) (ok k) h this x with
            | Done _ h1 this1 =>
                match incr h1 it with
                | Ok it' => copy_loop_call vec_ok ok (S k) f h1 this1 it'
                | Throw e => Raised e h1 this1
                | Fault => MFault
                | Diverge => MDiverge
                end
            | Raised e h1 this1 => Raised e h1 this1
            | MFault => MFault
            | MDiverge => MDiverge
            end
        | Throw e => Raised e h this
        | Fault => MFault
        | Diverge => MDiverge
        end
      else Done tt h this
  end.

(** [SkipList(const SkipList& other) : SkipList()], where [ok 0] is for
    the sentinel. *)
Definition copy_construct_call (vec_ok ok : nat → bool) (rd : exn + RNG)
    (h : heap) (other : SkipList) : outcome (heap * SkipList) :=
  hs ←? SkipList_call (ok 0) rd h;
  it ←? begin_ hs.1 other;
  match copy_loop_call vec_ok ok 1 (S (length h)) hs.1 hs.2 it with
  | Done _ h1 c => Ok (h1, c)
  | Raised e _ _ => Throw e
  | MFault => Fault
  | MDiverge => Diverge
  end.

(** [operator=(const SkipList& other)] for [this != &other]. *)
Definition copy_assign_call (vec_ok ok : nat → bool) (rd : exn + RNG)
    (h : heap) (this other : SkipList) : mut unit :=
  match copy_construct_call vec_ok ok rd h other with
  | Ok hc => Done tt hc.1 (swap this hc.2).1
  | Throw e => Raised e h this
  | Fault => MFault
  | Diverge => MDiverge
  end.

(** ** Observations used to state what the code keeps *)

(** The generator state after [k] evaluations of [dist(rng)]. *)
Fixpoint draws (k : nat) (g : RNG) : RNG :=
  match k with
  | 0 => g
  | S k' => draws k' (draw g).2
  end.

(** The height of the node an iterator stands on: the index of its last
    link, [current->forward.size() - 1]. *)
Definition height_of (h : heap) (it : Iterator) : outcome nat :=
  match it with
  | None => Fault
  | Some p => nd ←? load h p; Ok (length (forward nd) - 1)
  end.

(** The heights of the nodes of the set, in iteration order. *)
Definition heights (h : heap) (s : SkipList) : outcome (list nat) :=
  it ←? begin_ h s; iterate height_of (S (length h)) h it.

(** The nodes that a walk along the links of level [k] reaches from [p]:
    [for (n = p; n; n = n->forward[k]) out.push_back(n);] *)
Fixpoint level_from (fuel : nat) (h : heap) (k : nat) (p : option ptr)
  : outcome (list ptr) :=
  match fuel with
  | 0 => Diverge
  | S f =>
      match p with
      | None => Ok []
      | Some q =>
          nx ←? fwd h q k;
          r ←? level_from f h k nx;
          Ok (q :: r)
      end
  end.

(** The nodes of level [k], from the successor of the sentinel on. *)
Definition level_nodes (h : heap) (s : SkipList) (k : nat) : outcome (list ptr) :=
  match head s with
  | None => Fault
  | Some hd => first ←? fwd h hd k; level_from (S (length h)) h k first
  end.

(** A call during which every allocation of a node succeeds. *)
Definition allocs_ok (o : op) : Prop :=
  match o with
  | OpInsert ok _ | OpInsertRv ok _ | OpClear ok => ok = true
  | OpErase _ | OpMove => True
  | OpCopy ok _ | OpCopyAssign ok _ _ => ∀ k, ok k = true
  end.

(** * The abstract view of a well-formed store *)

(** A node as the invariant sees it: its address, its value and its
    height (the index of its last link). *)
Record anode : Type := mkA {
  a_ptr : ptr;
  a_val : T;
  a_h : nat
}.

(** The first node of [r] that is present on level [k]. *)
Fixpoint next_at (k : nat) (r : list anode) : option ptr :=
  match r with
  | [] => None
  | a :: r' => if decide (k ≤ a_h a) then Some (a_ptr a) else next_at k r'
  end.

(** The node at [p] holds [x], has [ht + 1] links, and link [k] is [f k]. *)
Definition node_at (h : heap) (p : ptr) (x : T) (ht : nat)
    (f : nat → option ptr) : Prop :=
  ∃ nd, h !! p = Some nd ∧ value nd = x ∧ length (forward nd) = S ht ∧
        ∀ k, k ≤ ht → forward nd !! k = Some (f k).

(** [chain_lv h l rest]: the nodes of [l] are in the store and each links,
    on every level [k] it has, to the next node of that level in what
    follows it, where [l] is followed by [rest k]. *)
Fixpoint chain_lv (h : heap) (l : list anode) (rest : nat → list anode) : Prop :=
  match l with
  | [] => True
  | a :: r =>
      node_at h (a_ptr a) (a_val a) (a_h a) (λ k, next_at k (r ++ rest k)) ∧
      chain_lv h r rest
  end.

(** The usual case: the same nodes follow on every level. *)
Definition chain (h : heap) (l rest : list anode) : Prop :=
  chain_lv h l (λ _, rest).

Definition ltP (a b : T) : Prop := lt a b = true.

(** The sentinel as a node of the chain. *)
Definition sentinel (hd : ptr) : anode := mkA hd dflt MAX_LEVEL.

(** The representation invariant: the set [s] in store [h] has its
    sentinel at [hd] and holds exactly the nodes [l], in this order. *)
Record Inv (h : heap) (s : SkipList) (hd : ptr) (l : list anode) : Prop := mkInv {
  inv_head : head s = Some hd;
  inv_chain : chain h (sentinel hd :: l) [];
  inv_nodup : NoDup (hd :: (a_ptr <$> l));
  inv_sorted : StronglySorted ltP (a_val <$> l);
  inv_heights : Forall (λ a, a_h a ≤ current_level s) l;
  inv_level : current_level s ≤ MAX_LEVEL;
  inv_size : size_ s = (Z.of_nat (length l) `mod` SIZE_MOD)%Z
}.

(** [current_level] is the greatest height of a real node, 0 without any. *)
Definition level_exact (s : SkipList) (l : list anode) : Prop :=
  current_level s = foldr Nat.max 0 (a_h <$> l).

(** The nodes strictly below [v], and the others. *)
Fixpoint below (v : T) (l : list anode) : list anode :=
  match l with
  | [] => []
  | a :: r => if lt (a_val a) v then a :: below v r else []
  end.

Fixpoint from (v : T) (l : list anode) : list anode :=
  match l with
  | [] => []
  | a :: r => if lt (a_val a) v then from v r else a :: r
  end.

(** Where the inner loop on level [i] stops when it starts at [pc] and
    the nodes of [B], all below the searched value, follow. *)
Fixpoint last_at (i : nat) (pc : ptr) (B : list anode) : ptr :=
  match B with
  | [] => pc
  | b :: r => last_at i (if decide (i ≤ a_h b) then a_ptr b else pc) r
  end.

(** [c] is the last node of [F] present on level [i]; [B] follows it. *)
Definition is_pred (i : nat) (F : list anode) (c : anode) (B : list anode) : Prop :=
  ∃ A, F = A ++ c :: B ∧ i ≤ a_h c ∧ Forall (λ b, a_h b < i) B.

(** While the levels are rewired from 0 upwards, the levels below [j]
    follow [Y1] and the others still follow [Y2]. *)
Definition mix (j : nat) (Y1 Y2 : list anode) (k : nat) : list anode :=
  if decide (k < j) then Y1 else Y2.

(** The equivalence that a strict weak order induces. *)
Definition equiv (a b : T) : bool := negb (lt a b) && negb (lt b a).

(** [operator<] is a strict weak order. *)
Record strict_weak_order : Prop := mkSWO {
  lt_irrefl : ∀ a, lt a a = false;
  lt_trans : ∀ a b c, lt a b = true → lt b c = true → lt a c = true;
  lt_neg_trans : ∀ a b c, lt a c = true → lt a b = true ∨ lt b c = true
}.

(** [operator==] agrees with [operator<]. *)
Definition eq_consistent : Prop := ∀ a b, eqb a b = equiv a b.

(** The value is in the list as far as [insert], [erase] and [find] can
    tell: the first node not below it compares equal to it. *)
Definition present (v : T) (l : list anode) : bool :=
  match from v l with
  | [] => false
  | b :: _ => eqb (a_val b) v
  end.

(** What both [Node] constructors build. *)
Definition is_ctor (mk : T → nat → Node) : Prop :=
  ∀ v n, mk v n = mkNode v (replicate (n + 1) None).

(** A call that does not end by an exception. *)
Definition quiet {A : Type} (m : outcome A) : Prop := ∀ e, m ≠ Throw e.

(** * Proofs *)

(** ** Memory accesses *)

Lemma obind_Ok {A B : Type} (m : outcome A) (k : A → outcome B) (b : B) :
  obind m k = Ok b → ∃ a, m = Ok a ∧ k a = Ok b.
Proof. destruct m; simpl; intros; try discriminate. eauto. Qed.

Lemma load_Some (h : heap) (p : ptr) (nd : Node) :
  h !! p = Some nd → load h p = Ok nd.
Proof. unfold load. by intros ->. Qed.

Lemma fwd_Some (h : heap) (p : ptr) (i : nat) (nd : Node) (x : option ptr) :
  h !! p = Some nd → forward nd !! i = Some x → fwd h p i = Ok x.
Proof. unfold fwd, load, vec_get. intros -> Hf. simpl. by rewrite Hf. Qed.

Lemma vec_set_Ok {A : Type} (l : list A) (i : nat) (x : A) :
  i < length l → vec_set l i x = Ok (<[i := x]> l).
Proof. unfold vec_set. intros. by rewrite decide_True. Qed.

Lemma set_fwd_Some (h : heap) (p : ptr) (i : nat) (x : option ptr) (nd : Node) :
  h !! p = Some nd → i < length (forward nd) →
  set_fwd h p i x = Ok (<[p := mkNode (value nd) (<[i := x]> (forward nd))]> h).
Proof.
  unfold set_fwd, load. intros -> ?. simpl. by rewrite vec_set_Ok.
Qed.

Lemma node_at_fwd (h : heap) (p : ptr) (x : T) (ht : nat) f (k : nat) :
  node_at h p x ht f → k ≤ ht → fwd h p k = Ok (f k).
Proof. intros (nd & ? & ? & ? & Hk) ?. eapply fwd_Some; eauto. Qed.

Lemma node_at_load (h : heap) (p : ptr) (x : T) (ht : nat) f :
  node_at h p x ht f → ∃ nd, load h p = Ok nd ∧ value nd = x.
Proof. intros (nd & ? & ? & ?). exists nd. split; [by apply load_Some|done]. Qed.

Lemma node_at_lt (h : heap) (p : ptr) (x : T) (ht : nat) f :
  node_at h p x ht f → p < length h.
Proof. intros (nd & ? & ?). by eapply lookup_lt_Some. Qed.

Lemma node_at_ext (h : heap) (p : ptr) (x : T) (ht : nat) f g :
  (∀ k, k ≤ ht → f k = g k) → node_at h p x ht f → node_at h p x ht g.
Proof.
  intros E (nd & ? & ? & ? & Hk). exists nd. repeat split; try done.
  intros k ?. rewrite Hk, E; done.
Qed.

Lemma node_at_frame (h h' : heap) (p : ptr) (x : T) (ht : nat) f :
  h' !! p = h !! p → node_at h p x ht f → node_at h' p x ht f.
Proof. intros E (nd & ? & ?). exists nd. by rewrite E. Qed.

(** ** Facts about [next_at] and [chain] *)

Lemma next_at_app_l (k : nat) (B Y : list anode) :
  Exists (λ b, k ≤ a_h b) B → next_at k (B ++ Y) = next_at k B.
Proof.
  induction B as [|b B IH]; intros E; [by inversion E|].
  simpl. destruct (decide (k ≤ a_h b)); [done|].
  inversion E; subst; [done|]. by apply IH.
Qed.

Lemma next_at_app_low (k : nat) (B Y : list anode) :
  Forall (λ b, a_h b < k) B → next_at k (B ++ Y) = next_at k Y.
Proof.
  induction 1 as [|b B Hb _ IH]; [done|].
  simpl. rewrite decide_False by lia. done.
Qed.

Lemma next_at_elem (k : nat) (r : list anode) (p : ptr) :
  next_at k r = Some p →
  ∃ A a B, r = A ++ a :: B ∧ a_ptr a = p ∧ k ≤ a_h a ∧
           Forall (λ b, a_h b < k) A.
Proof.
  induction r as [|a r IH]; [done|]. simpl.
  destruct (decide (k ≤ a_h a)).
  - intros [= <-]. exists [], a, r. by repeat split.
  - intros (A & a' & B & -> & ? & ? & ?)%IH.
    exists (a :: A), a', B. repeat split; try done.
    constructor; [lia|done].
Qed.

Lemma next_at_zero (r : list anode) :
  next_at 0 r = a_ptr <$> List.head r.
Proof.
  destruct r as [|a r]; [done|].
  change (next_at 0 (a :: r))
    with (if decide (0 ≤ a_h a) then Some (a_ptr a) else next_at 0 r).
  case_decide; [done|lia].
Qed.

Lemma chain_lv_app (h : heap) (l1 l2 : list anode) (rest : nat → list anode) :
  chain_lv h (l1 ++ l2) rest ↔
  chain_lv h l1 (λ k, l2 ++ rest k) ∧ chain_lv h l2 rest.
Proof.
  induction l1 as [|a l1 IH]; simpl.
  - tauto.
  - rewrite IH. split.
    + intros (Ha & ? & ?). repeat split; try done.
      eapply node_at_ext; [|exact Ha]. intros. simpl. by rewrite (assoc_L (++)).
    + intros ((Ha & ?) & ?). repeat split; try done.
      eapply node_at_ext; [|exact Ha]. intros. simpl. by rewrite (assoc_L (++)).
Qed.

Lemma chain_app (h : heap) (l1 l2 rest : list anode) :
  chain h (l1 ++ l2) rest ↔ chain h l1 (l2 ++ rest) ∧ chain h l2 rest.
Proof. apply chain_lv_app. Qed.

Lemma chain_cons (h : heap) (a : anode) (r rest : list anode) :
  chain h (a :: r) rest ↔
  node_at h (a_ptr a) (a_val a) (a_h a) (λ k, next_at k (r ++ rest)) ∧
  chain h r rest.
Proof. done. Qed.

(** Changing the store and what follows, as long as no link changes. *)
Lemma chain_lv_change (h h' : heap) (l : list anode) (rest rest' : nat → list anode) :
  (∀ a, a ∈ l → h' !! a_ptr a = h !! a_ptr a) →
  (∀ a A B k, l = A ++ a :: B → k ≤ a_h a →
     next_at k (B ++ rest k) = next_at k (B ++ rest' k)) →
  chain_lv h l rest → chain_lv h' l rest'.
Proof.
  induction l as [|a l IH]; [done|]. simpl. intros E R [Ha Hl]. split.
  - eapply node_at_frame; [apply E; by left|].
    eapply node_at_ext; [|exact Ha]. intros k ?. simpl. by apply (R a [] l).
  - apply IH; [| |done].
    + intros b ?. apply E. by right.
    + intros b A B k -> ?. by apply (R b (a :: A) B).
Qed.

Lemma chain_frame (h h' : heap) (l rest : list anode) :
  (∀ a, a ∈ l → h' !! a_ptr a = h !! a_ptr a) →
  chain h l rest → chain h' l rest.
Proof. intros E. by apply chain_lv_change. Qed.

Lemma chain_lv_elem (h : heap) (l : list anode) (rest : nat → list anode) (a : anode) :
  chain_lv h l rest → a ∈ l →
  ∃ nd, h !! a_ptr a = Some nd ∧ value nd = a_val a ∧
        length (forward nd) = S (a_h a).
Proof.
  induction l as [|b l IH]; simpl; [by inversion 2|].
  intros [Hb Hl] [->|?]%elem_of_cons; [|by apply IH].
  destruct Hb as (nd & ? & ? & ? & _). by exists nd.
Qed.

Lemma chain_elem (h : heap) (l rest : list anode) (a : anode) :
  chain h l rest → a ∈ l →
  ∃ nd, h !! a_ptr a = Some nd ∧ value nd = a_val a ∧
        length (forward nd) = S (a_h a).
Proof. apply chain_lv_elem. Qed.

Lemma chain_lv_ptr_lt (h : heap) (l : list anode) (rest : nat → list anode) :
  chain_lv h l rest → Forall (λ p, p < length h) (a_ptr <$> l).
Proof.
  induction l as [|b l IH]; simpl; [constructor|].
  intros [Hb Hl]. constructor; [by eapply node_at_lt|by apply IH].
Qed.

Lemma chain_ptr_lt (h : heap) (l rest : list anode) :
  chain h l rest → Forall (λ p, p < length h) (a_ptr <$> l).
Proof. apply chain_lv_ptr_lt. Qed.

(** Distinct nodes of the store are no more than the store holds. *)
Lemma nodup_length_le (n : nat) (ps : list ptr) :
  NoDup ps → Forall (λ p, p < n) ps → length ps ≤ n.
Proof.
  intros Hnd Hlt. rewrite <- (length_seq n 0).
  apply submseteq_length, NoDup_submseteq; [done|].
  intros p Hp. apply elem_of_seq. rewrite Forall_forall in Hlt.
  specialize (Hlt p Hp). lia.
Qed.

(** ** The search *)

Lemma advance_while_spec (h : heap) (i : nat) (v : T) (hi B : list anode) :
  ∀ (fuel : nat) (pc : ptr),
  chain h B hi → chain h hi [] →
  (∃ nd, h !! pc = Some nd ∧ forward nd !! i = Some (next_at i (B ++ hi))) →
  Forall (λ a, lt (a_val a) v = true) B →
  Forall (λ a, lt (a_val a) v = false) hi →
  length B < fuel →
  advance_while fuel h i v pc = Ok (last_at i pc B).
Proof.
  induction B as [|b r IH]; intros fuel pc HB Hhi (nd & Hpc & Hnx) Hlo Hge Hf.
  - destruct fuel as [|f]; [simpl in Hf; lia|]. simpl.
    rewrite (fwd_Some _ _ _ _ _ Hpc Hnx). simpl.
    destruct (next_at i hi) as [n|] eqn:E; [|done].
    apply next_at_elem in E as (A & a & B' & -> & <- & _ & _).
    destruct (chain_elem h _ [] a Hhi) as (na & Ha & Hv & _).
    { apply elem_of_app. right. by left. }
    rewrite (load_Some _ _ _ Ha). simpl. rewrite Hv.
    rewrite Forall_app, Forall_cons in Hge. destruct Hge as (_ & -> & _). done.
  - apply chain_cons in HB as [Hb Hr]. inversion Hlo as [|? ? Hbv Hlo']; subst.
    simpl in Hnx. simpl last_at. destruct (decide (i ≤ a_h b)) as [Hq|Hq].
    + destruct fuel as [|f]; [simpl in Hf; lia|]. simpl.
      rewrite (fwd_Some _ _ _ _ _ Hpc Hnx). simpl.
      destruct Hb as (nb & Hnb & Hvb & Hlen & Hk).
      rewrite (load_Some _ _ _ Hnb). simpl. rewrite Hvb, Hbv.
      apply IH; try done.
      * exists nb. split; [done|]. by apply Hk.
      * simpl in Hf. lia.
    + apply IH; try done.
      * by exists nd.
      * simpl in Hf. lia.
Qed.

Lemma last_at_split (i : nat) (B : list anode) :
  ∀ c : anode, i ≤ a_h c →
  ∃ A' c' B', c :: B = A' ++ c' :: B' ∧ a_ptr c' = last_at i (a_ptr c) B ∧
              i ≤ a_h c' ∧ Forall (λ b, a_h b < i) B'.
Proof.
  induction B as [|b r IH]; intros c Hc.
  - exists [], c, []. by repeat split.
  - simpl. destruct (decide (i ≤ a_h b)) as [Hq|Hq].
    + destruct (IH b Hq) as (A' & c' & B' & E & ? & ? & ?).
      exists (c :: A'), c', B'. repeat split; try done. simpl. by rewrite E.
    + destruct (IH c Hc) as (A' & c' & B' & E & ? & ? & ?).
      destruct A' as [|a A'']; simpl in E.
      * injection E as <- <-. exists [], c, (b :: r). repeat split; try done.
        constructor; [lia|done].
      * injection E as <- ->. exists (c :: b :: A''), c', B'. by repeat split.
Qed.

Lemma descend_spec (h : heap) (v : T) (hi F : list anode) (n : nat) :
  ∀ (c : anode) (B A : list anode) (update : list (option ptr)),
  F = A ++ c :: B → chain h F hi → chain h hi [] → length F ≤ length h →
  Forall (λ a, lt (a_val a) v = true) B →
  Forall (λ a, lt (a_val a) v = false) hi →
  n ≤ S (a_h c) → Forall (λ b, a_h b < n) B → n ≤ length update →
  ∃ c0 A0 update',
    descend h v n (a_ptr c) update = Ok (a_ptr c0, update') ∧
    F = A0 ++ [c0] ∧
    length update' = length update ∧
    (∀ k, n ≤ k → update' !! k = update !! k) ∧
    (∀ k, k < n → ∃ ck Bk, update' !! k = Some (Some (a_ptr ck)) ∧
                           is_pred k F ck Bk).
Proof.
  induction n as [|i IH]; intros c B A update HF HcF Hhi Hlen Hlo Hge Hc HB Hu.
  - exists c, A, update. simpl. repeat split; try done; [|intros; lia].
    destruct B as [|b B]; [done|]. inversion HB; subst. lia.
  - cbn [descend]. pose proof HcF as HcF0.
    rewrite HF in HcF. apply chain_app in HcF as [_ [Hcn HcB]%chain_cons].
    assert (Hw : advance_while (S (length h)) h i v (a_ptr c)
                 = Ok (last_at i (a_ptr c) B)).
    { apply (advance_while_spec h i v hi B); try done.
      - destruct Hcn as (nd & ? & ? & ? & Hk). exists nd. split; [done|].
        apply Hk. lia.
      - rewrite HF, length_app in Hlen. simpl in Hlen. lia. }
    rewrite Hw. cbn [obind].
    destruct (last_at_split i B c ltac:(lia)) as (A' & c' & B' & E & Hp & Hq & HB').
    rewrite <- Hp. rewrite vec_set_Ok by lia. cbn [obind].
    assert (HF' : F = (A ++ A') ++ c' :: B').
    { rewrite HF, <- (assoc_L (++)). by rewrite <- E. }
    assert (Hlo' : Forall (λ a, lt (a_val a) v = true) B').
    { destruct A' as [|a A'']; simpl in E.
      - by injection E as <- <-.
      - injection E as <- ->. rewrite Forall_app, Forall_cons in Hlo. tauto. }
    destruct (IH c' B' (A ++ A') (<[i := Some (a_ptr c')]> update))
      as (c0 & A0 & update' & Hd & HA0 & Hl' & Hkeep & Hpred); try done.
    { lia. }
    { rewrite length_insert. lia. }
    exists c0, A0, update'. rewrite Hd. repeat split; try done.
    + by rewrite Hl', length_insert.
    + intros k Hk. rewrite Hkeep by lia. apply list_lookup_insert_ne. lia.
    + intros k Hk. destruct (decide (k = i)) as [->|Hne].
      * exists c', B'. split.
        -- rewrite Hkeep by lia. apply list_lookup_insert_eq. lia.
        -- by exists (A ++ A').
      * apply Hpred. lia.
Qed.

Lemma descend_find_spec (h : heap) (v : T) (n : nat) :
  ∀ (cur : ptr) (update : list (option ptr)) (r : ptr * list (option ptr)),
  descend h v n cur update = Ok r → descend_find h v n cur = Ok r.1.
Proof.
  induction n as [|i IH]; intros cur update r; cbn [descend descend_find].
  - by intros [= <-].
  - destruct (advance_while (S (length h)) h i v cur) as [c'| | |];
      cbn [obind]; try done.
    destruct (vec_set update i (Some c')) as [u'| | |]; cbn [obind]; try done.
    apply IH.
Qed.

(** ** Rewiring one level

    While [insert] and [erase] rewire the levels from 0 upwards, the
    levels below [j] already follow the new list and the others still
    follow the old one. *)

Lemma is_pred_cons (j : nat) (c ck : anode) (F Bk : list anode) :
  is_pred j (c :: F) ck Bk →
  (c = ck ∧ F = Bk ∧ j ≤ a_h ck ∧ Forall (λ b, a_h b < j) Bk) ∨
  is_pred j F ck Bk.
Proof.
  intros ([|a A] & E & ? & ?); simpl in E.
  - injection E as -> ->. by left.
  - injection E as -> ->. right. by exists A.
Qed.

Lemma is_pred_elem (j : nat) (ck : anode) (F Bk : list anode) :
  is_pred j F ck Bk → ck ∈ F.
Proof. intros (A & -> & _). apply elem_of_app. right. by left. Qed.

Lemma is_pred_exists (j : nat) (ck : anode) (F Bk : list anode) :
  is_pred j F ck Bk → Exists (λ b, j ≤ a_h b) F.
Proof.
  intros Hp. apply Exists_exists. exists ck. split.
  - by eapply is_pred_elem.
  - by destruct Hp as (? & ? & ? & ?).
Qed.

Lemma chain_lv_pred (h : heap) (j : nat) (ck : anode) (F Bk : list anode)
    (rest : nat → list anode) :
  chain_lv h F rest → is_pred j F ck Bk →
  node_at h (a_ptr ck) (a_val ck) (a_h ck) (λ k, next_at k (Bk ++ rest k)).
Proof.
  intros Hch (A & -> & _). apply chain_lv_app in Hch as [_ [Hc _]]. done.
Qed.

Lemma chain_lv_step (h h' : heap) (j : nat) (ck : anode)
    (Bk Y1 Y2 : list anode) (nd : Node) :
  ∀ F : list anode,
  NoDup (a_ptr <$> F) →
  is_pred j F ck Bk →
  h !! a_ptr ck = Some nd →
  h' !! a_ptr ck
    = Some (mkNode (value nd) (<[j := next_at j Y1]> (forward nd))) →
  (∀ a, a ∈ F → a_ptr a ≠ a_ptr ck → h' !! a_ptr a = h !! a_ptr a) →
  chain_lv h F (mix j Y1 Y2) → chain_lv h' F (mix (S j) Y1 Y2).
Proof.
  induction F as [|c F IH]; intros Hnd Hp Hn Hn' Hfr Hch.
  { destruct Hp as ([|] & E & _); discriminate. }
  rewrite fmap_cons in Hnd. apply NoDup_cons in Hnd as [Hc HndF].
  destruct Hch as [Hcn HchF].
  destruct (is_pred_cons _ _ _ _ _ Hp) as [(-> & -> & Hj & Hlow) | Hp'].
  - split.
    + destruct Hcn as (nd0 & Hnd0 & Hv & Hlen & Hk).
      rewrite Hn in Hnd0. injection Hnd0 as <-.
      eexists. split; [exact Hn'|]. simpl.
      split; [done|]. split; [by rewrite length_insert|].
      intros k Hk'. destruct (decide (k = j)) as [->|Hne].
      * rewrite list_lookup_insert_eq by lia. f_equal.
        unfold mix. rewrite decide_True by lia. by rewrite next_at_app_low.
      * rewrite list_lookup_insert_ne by done. rewrite Hk by done.
        unfold mix. destruct (decide (k < j)), (decide (k < S j)); (done || lia).
    + eapply chain_lv_change; [| |exact HchF].
      * intros b Hb. apply Hfr; [by right|]. intros E. apply Hc.
        rewrite <- E. by apply list_elem_of_fmap_2.
      * intros b A B k -> Hk. rewrite Forall_app, Forall_cons in Hlow.
        destruct Hlow as (_ & Hb & _). unfold mix.
        rewrite !decide_True by lia. done.
  - pose proof (is_pred_elem _ _ _ _ Hp') as Hin.
    assert (a_ptr c ≠ a_ptr ck) as Hne.
    { intros E. apply Hc. rewrite E. by apply list_elem_of_fmap_2. }
    split.
    + eapply node_at_frame; [apply Hfr; [by left|done]|].
      eapply node_at_ext; [|exact Hcn]. intros k Hk. simpl.
      destruct (decide (k = j)) as [->|Hkj].
      * rewrite !next_at_app_l; [done|by eapply is_pred_exists..].
      * unfold mix. destruct (decide (k < j)), (decide (k < S j)); (done || lia).
    + apply IH; try done. intros a Ha. apply Hfr. by right.
Qed.

(** ** [insert]: the splice *)

Lemma raise_update_spec (hd : option ptr) :
  ∀ (count i : nat) (update : list (option ptr)),
  i + count ≤ length update →
  ∃ update', raise_update count i hd update = Ok update' ∧
    length update' = length update ∧
    (∀ k, i ≤ k < i + count → update' !! k = Some hd) ∧
    (∀ k, ¬ (i ≤ k < i + count) → update' !! k = update !! k).
Proof.
  induction count as [|c IH]; intros i update Hlen; simpl.
  - exists update. repeat split; try done. intros; lia.
  - rewrite vec_set_Ok by lia. simpl.
    destruct (IH (S i) (<[i := hd]> update)) as (u' & -> & Hl & Hin & Hout).
    { rewrite length_insert. lia. }
    exists u'. rewrite length_insert in Hl. repeat split; try done.
    + intros k Hk. destruct (decide (k = i)) as [->|].
      * rewrite Hout by lia. apply list_lookup_insert_eq. lia.
      * apply Hin. lia.
    + intros k Hk. rewrite Hout by lia. apply list_lookup_insert_ne. lia.
Qed.

Lemma splice_spec (n nl : nat) (v : T) (F hi : list anode)
    (update : list (option ptr)) :
  NoDup (a_ptr <$> F) → n ∉ a_ptr <$> F →
  (∀ k, k ≤ nl → ∃ ck Bk, update !! k = Some (Some (a_ptr ck)) ∧
                          is_pred k F ck Bk) →
  ∀ (count j : nat) (h : heap),
  j + count = S nl →
  chain_lv h F (mix j (mkA n v nl :: hi) hi) →
  node_at h n v nl (λ k, if decide (k < j) then next_at k hi else None) →
  ∃ h', splice count j h update n = Ok h' ∧
        chain_lv h' F (mix (S nl) (mkA n v nl :: hi) hi) ∧
        node_at h' n v nl (λ k, next_at k hi) ∧
        length h' = length h ∧
        (∀ p, p ∉ a_ptr <$> F → p ≠ n → h' !! p = h !! p).
Proof.
  intros HndF HnF Hupd. induction count as [|c IH]; intros j h Hj Hch Hn.
  - exists h. simpl. assert (j = S nl) as -> by lia. repeat split; try done.
    eapply node_at_ext; [|exact Hn]. intros k ?. simpl.
    by rewrite decide_True by lia.
  - cbn [splice]. destruct (Hupd j) as (ck & Bk & Hu & Hp); [lia|].
    unfold vec_get. rewrite Hu. cbn [obind].
    pose proof (chain_lv_pred _ _ _ _ _ _ Hch Hp) as Hck.
    assert (j ≤ a_h ck) as Hjck by (by destruct Hp as (? & ? & ? & ?)).
    assert (Forall (λ b, a_h b < j) Bk) as Hlow
      by (by destruct Hp as (? & ? & ? & ?)).
    rewrite (node_at_fwd _ _ _ _ _ j Hck Hjck). cbn [obind].
    unfold mix at 1. rewrite decide_False by lia. rewrite next_at_app_low by done.
    destruct Hn as (nn & Hnn & Hnv & Hnlen & Hnk).
    rewrite (set_fwd_Some _ _ _ _ _ Hnn) by lia. cbn [obind].
    destruct Hck as (nd & Hnd & Hdv & Hdlen & Hdk).
    assert (a_ptr ck ≠ n) as Hne.
    { intros E. apply HnF. rewrite <- E. apply list_elem_of_fmap_2.
      by eapply is_pred_elem. }
    assert (n < length h) as Hnlt by (by eapply lookup_lt_Some).
    assert (a_ptr ck < length h) as Hclt by (by eapply lookup_lt_Some).
    match goal with |- context [set_fwd ?hh (a_ptr ck) j (Some n)] =>
      assert (hh !! a_ptr ck = Some nd) as Hnd1
        by (by rewrite list_lookup_insert_ne)
    end.
    rewrite (set_fwd_Some _ _ _ _ _ Hnd1) by lia. cbn [obind].
    match goal with |- context [splice c (S j) ?hh _ _] => set (h2 := hh) end.
    destruct (IH (S j) h2) as (h' & Hs & Hch' & Hn' & Hlen' & Hfr'); [lia| | |].
    + eapply (chain_lv_step h h2); try done.
      * unfold h2. rewrite list_lookup_insert_eq by (rewrite length_insert; lia).
        simpl. by rewrite decide_True by lia.
      * intros a Ha Hac. unfold h2. rewrite !list_lookup_insert_ne; try done.
        intros E. apply HnF. rewrite E. by apply list_elem_of_fmap_2.
    + eexists. split.
      { unfold h2. rewrite list_lookup_insert_ne by done.
        apply list_lookup_insert_eq. done. }
      simpl. split; [done|]. split; [by rewrite length_insert|].
      intros k Hk. destruct (decide (k = j)) as [->|Hkj].
      * rewrite list_lookup_insert_eq by lia. by rewrite decide_True by lia.
      * rewrite list_lookup_insert_ne by done. rewrite Hnk by done.
        destruct (decide (k < j)), (decide (k < S j)); (done || lia).
    + exists h'. rewrite Hs. repeat split; try done.
      * rewrite Hlen'. unfold h2. by rewrite !length_insert.
      * intros p HpF Hpn. rewrite Hfr' by done. unfold h2.
        rewrite !list_lookup_insert_ne; try done.
        intros E. apply HpF. rewrite <- E. apply list_elem_of_fmap_2.
        by eapply is_pred_elem.
Qed.

(** ** The element order *)

Global Instance ltP_trans : strict_weak_order → Transitive ltP.
Proof. intros [_ Htr _] a b c. apply Htr. Qed.

Lemma below_from (v : T) (l : list anode) : below v l ++ from v l = l.
Proof.
  induction l as [|a l IH]; [done|]. simpl.
  destruct (lt (a_val a) v); simpl; [by rewrite IH|done].
Qed.

Lemma below_lt (v : T) (l : list anode) :
  Forall (λ a, lt (a_val a) v = true) (below v l).
Proof.
  induction l as [|a l IH]; simpl; [constructor|].
  destruct (lt (a_val a) v) eqn:E; by constructor.
Qed.

Lemma from_ge (v : T) (l : list anode) :
  strict_weak_order → StronglySorted ltP (a_val <$> l) →
  Forall (λ a, lt (a_val a) v = false) (from v l).
Proof.
  intros Hswo. induction l as [|a l IH]; simpl; [constructor|].
  rewrite StronglySorted_cons. intros [Ha Hl].
  destruct (lt (a_val a) v) eqn:E; [by apply IH|].
  constructor; [done|]. apply Forall_forall.
  intros b Hb. destruct (lt (a_val b) v) eqn:Eb; [|done].
  rewrite <- E. symmetry. eapply (lt_trans Hswo); [|exact Eb].
  eapply (proj1 (Forall_forall _ _) Ha), list_elem_of_fmap_2, Hb.
Qed.

Lemma inv_length_le (h : heap) (s : SkipList) (hd : ptr) (l : list anode) :
  Inv h s hd l → S (length l) ≤ length h.
Proof.
  intros HI. pose proof (chain_ptr_lt _ _ _ (inv_chain _ _ _ _ HI)) as Hlt.
  pose proof (nodup_length_le (length h) (hd :: (a_ptr <$> l))
                (inv_nodup _ _ _ _ HI) Hlt) as Hle.
  simpl in Hle. by rewrite length_fmap in Hle.
Qed.

Lemma search_spec (h : heap) (s : SkipList) (hd : ptr) (l : list anode) (v : T) :
  strict_weak_order → Inv h s hd l →
  ∃ c0 A0 update,
    descend h v (S (current_level s)) hd (replicate (MAX_LEVEL + 1) None)
      = Ok (a_ptr c0, update) ∧
    sentinel hd :: below v l = A0 ++ [c0] ∧
    length update = MAX_LEVEL + 1 ∧
    (∀ k, k ≤ current_level s →
       ∃ ck Bk, update !! k = Some (Some (a_ptr ck)) ∧
                is_pred k (sentinel hd :: below v l) ck Bk) ∧
    fwd h (a_ptr c0) 0 = Ok (next_at 0 (from v l)).
Proof.
  intros Hswo HI. pose proof (inv_chain _ _ _ _ HI) as Hch.
  rewrite <- (below_from v l) in Hch.
  change (sentinel hd :: below v l ++ from v l)
    with ((sentinel hd :: below v l) ++ from v l) in Hch.
  apply chain_app in Hch as [HF Hhi]. rewrite app_nil_r in HF.
  pose proof (inv_heights _ _ _ _ HI) as Hht.
  rewrite <- (below_from v l), Forall_app in Hht. destruct Hht as [Hht _].
  pose proof (inv_level _ _ _ _ HI) as Hcl.
  destruct (descend_spec h v (from v l) (sentinel hd :: below v l)
              (S (current_level s)) (sentinel hd) (below v l) []
              (replicate (MAX_LEVEL + 1) None))
    as (c0 & A0 & update & Hd & HA0 & Hlen & _ & Hpred); try done.
  - pose proof (inv_length_le _ _ _ _ HI) as Hle.
    rewrite <- (below_from v l), length_app in Hle. simpl. lia.
  - apply below_lt.
  - apply from_ge; [done|]. apply (inv_sorted _ _ _ _ HI).
  - simpl. lia.
  - eapply Forall_impl; [exact Hht|]. simpl. intros. lia.
  - rewrite length_replicate. lia.
  - exists c0, A0, update. split; [exact Hd|]. split; [done|].
    split; [by rewrite Hlen, length_replicate|]. split.
    + intros k Hk. apply Hpred. lia.
    + rewrite HA0 in HF. apply chain_app in HF as [_ [Hc _]%chain_cons].
      simpl in Hc. eapply (node_at_fwd _ _ _ _ _ 0) in Hc; [done|lia].
Qed.

(** ** [random_level] *)

Lemma random_level_loop_le (fuel level : nat) (g : RNG) :
  level ≤ MAX_LEVEL → (random_level_loop fuel level g).1 ≤ MAX_LEVEL.
Proof.
  revert level g. induction fuel as [|f IH]; intros level g Hl; simpl;
    destruct (draw g) as [b g']; destruct b; simpl; try done;
    case_bool_decide; simpl; try done.
  apply IH. lia.
Qed.

Lemma random_level_le (g : RNG) : (random_level g).1 ≤ MAX_LEVEL.
Proof. apply random_level_loop_le. lia. Qed.

(** The fuel of [random_level] is never used up: more fuel gives the
    same result. *)
Lemma random_level_loop_fuel (fuel level : nat) (g : RNG) :
  MAX_LEVEL ≤ level + fuel →
  random_level_loop (S fuel) level g = random_level_loop fuel level g.
Proof.
  revert level g. induction fuel as [|f IH]; intros level g Hl.
  - simpl. destruct (draw g) as [b g']. destruct b; simpl; [|done].
    case_bool_decide; [lia|done].
  - change (random_level_loop (S (S f)) level g)
      with (let '(b, g') := draw g in
            if b && bool_decide (level < MAX_LEVEL)
            then random_level_loop (S f) (S level) g' else (level, g')).
    change (random_level_loop (S f) level g)
      with (let '(b, g') := draw g in
            if b && bool_decide (level < MAX_LEVEL)
            then random_level_loop f (S level) g' else (level, g')).
    destruct (draw g) as [b g']. destruct (b && _); [|done].
    apply IH. lia.
Qed.

(** ** [insert] keeps the invariant *)

Lemma next_at_skip (k : nat) (B hi : list anode) (x : anode) :
  a_h x < k → next_at k (B ++ x :: hi) = next_at k (B ++ hi).
Proof.
  intros Hx. induction B as [|b B IH]; simpl.
  - by rewrite decide_False by lia.
  - by rewrite IH.
Qed.

Lemma sorted_insert (v : T) (x : anode) (l : list anode) :
  strict_weak_order → a_val x = v →
  StronglySorted ltP (a_val <$> l) →
  (∀ b r, from v l = b :: r → lt v (a_val b) = true) →
  StronglySorted ltP (a_val <$> (below v l ++ x :: from v l)).
Proof.
  intros Hswo Hx Hs Hhd. rewrite <- (below_from v l) in Hs.
  rewrite fmap_app in Hs. apply StronglySorted_app in Hs as (Hcross & Hlo & Hhi).
  rewrite fmap_app, fmap_cons, Hx. apply StronglySorted_app_2; [|done|].
  - intros x1 x2 H1 [->|H2]%elem_of_cons; [|by apply Hcross].
    apply list_elem_of_fmap_1 in H1 as (a & -> & Ha).
    by apply (proj1 (Forall_forall _ _) (below_lt v l)).
  - constructor; [done|].
    destruct (from v l) as [|b r] eqn:E; [constructor|].
    specialize (Hhd b r eq_refl). rewrite fmap_cons in Hhi |- *.
    apply StronglySorted_cons in Hhi as [Hb _].
    constructor; [done|]. eapply Forall_impl; [exact Hb|].
    intros c Hc. by eapply (lt_trans Hswo).
Qed.

Lemma nodup_insert (hd n : ptr) (lo hi : list anode) (x : anode) :
  a_ptr x = n → n ≠ hd → n ∉ a_ptr <$> (lo ++ hi) →
  NoDup (hd :: (a_ptr <$> (lo ++ hi))) →
  NoDup (hd :: (a_ptr <$> (lo ++ x :: hi))).
Proof.
  intros Hx Hn Hfresh Hnd. rewrite fmap_app, fmap_cons, Hx.
  rewrite fmap_app in Hfresh, Hnd.
  rewrite app_comm_cons, <- Permutation_middle.
  apply NoDup_cons. split; [|done].
  by intros [->|?]%elem_of_cons.
Qed.

Lemma size_succ (z : Z) (n : nat) :
  z = (Z.of_nat n `mod` SIZE_MOD)%Z →
  ((z + 1) `mod` SIZE_MOD)%Z = (Z.of_nat (S n) `mod` SIZE_MOD)%Z.
Proof.
  intros ->. rewrite Zplus_mod_idemp_l. f_equal. lia.
Qed.

Lemma size_pred (z : Z) (n : nat) :
  z = (Z.of_nat (S n) `mod` SIZE_MOD)%Z →
  ((z - 1) `mod` SIZE_MOD)%Z = (Z.of_nat n `mod` SIZE_MOD)%Z.
Proof.
  intros ->. rewrite Zminus_mod_idemp_l. f_equal. lia.
Qed.

Lemma raise_level_spec (h : heap) (s : SkipList) (hd : ptr) (l : list anode)
    (v : T) (update : list (option ptr)) (nl : nat) :
  Inv h s hd l → nl ≤ MAX_LEVEL → length update = MAX_LEVEL + 1 →
  (∀ k, k ≤ current_level s →
     ∃ ck Bk, update !! k = Some (Some (a_ptr ck)) ∧
              is_pred k (sentinel hd :: below v l) ck Bk) →
  ∃ update',
    raise_level s nl update = Ok (update', Nat.max (current_level s) nl) ∧
    ∀ k, k ≤ nl →
      ∃ ck Bk, update' !! k = Some (Some (a_ptr ck)) ∧
               is_pred k (sentinel hd :: below v l) ck Bk.
Proof.
  intros HI Hnl Hlen Hpred. unfold raise_level. case_decide as Hc.
  - destruct (raise_update_spec (head s) (nl - current_level s)
                (current_level s + 1) update) as (u' & -> & _ & Hin & Hout).
    { rewrite Hlen. lia. }
    exists u'. simpl. replace (current_level s `max` nl) with nl by lia.
    split; [done|]. intros k Hk.
    destruct (decide (k ≤ current_level s)) as [Hle|Hgt].
    + rewrite Hout by lia. by apply Hpred.
    + rewrite Hin by lia. rewrite (inv_head _ _ _ _ HI).
      exists (sentinel hd), (below v l). split; [done|].
      exists []. split; [done|]. split; [simpl; lia|].
      pose proof (inv_heights _ _ _ _ HI) as Hht.
      rewrite <- (below_from v l), Forall_app in Hht. destruct Hht as [Hht _].
      eapply Forall_impl; [exact Hht|]. simpl. intros. lia.
  - exists update. replace (current_level s `max` nl) with (current_level s) by lia.
    split; [done|]. intros k Hk. apply Hpred. lia.
Qed.

Lemma insert_new_fail (mk : T → nat → Node) (h : heap) (s : SkipList)
    (hd : ptr) (l : list anode) (v : T) (update : list (option ptr)) :
  Inv h s hd l → length update = MAX_LEVEL + 1 →
  (∀ k, k ≤ current_level s →
     ∃ ck Bk, update !! k = Some (Some (a_ptr ck)) ∧
              is_pred k (sentinel hd :: below v l) ck Bk) →
  insert_new mk false h s update v
  = Raised bad_alloc h
      (mkSkipList (head s)
         (Nat.max (current_level s) (random_level (rng s)).1)
         (size_ s) (random_level (rng s)).2).
Proof.
  intros HI Hlen Hpred. unfold insert_new.
  destruct (raise_level_spec h s hd l v update (random_level (rng s)).1)
    as (u' & -> & _); try done.
  apply random_level_le.
Qed.

Lemma insert_new_spec (mk : T → nat → Node) (h : heap) (s : SkipList)
    (hd : ptr) (l : list anode) (v : T) (update : list (option ptr)) :
  strict_weak_order → is_ctor mk → Inv h s hd l →
  length update = MAX_LEVEL + 1 →
  (∀ k, k ≤ current_level s →
     ∃ ck Bk, update !! k = Some (Some (a_ptr ck)) ∧
              is_pred k (sentinel hd :: below v l) ck Bk) →
  (∀ b r, from v l = b :: r → lt v (a_val b) = true) →
  let nl := (random_level (rng s)).1 in
  let s' := mkSkipList (head s) (Nat.max (current_level s) nl)
              ((size_ s + 1) `mod` SIZE_MOD) (random_level (rng s)).2 in
  ∃ h', insert_new mk true h s update v = Done tt h' s' ∧
        Inv h' s' hd (below v l ++ mkA (length h) v nl :: from v l) ∧
        length h' = S (length h) ∧
        (∀ p, p ∉ hd :: (a_ptr <$> l) → p < length h → h' !! p = h !! p).
Proof.
  intros Hswo Hmk HI Hlen Hpred Hgt nl s'.
  pose proof (random_level_le (rng s)) as Hnl. fold nl in Hnl.
  unfold insert_new. fold nl.
  destruct (raise_level_spec h s hd l v update nl)
    as (u' & -> & Hpred'); try done.
  cbn [alloc fst snd]. set (n := length h). set (x := mkA n v nl).
  set (F := sentinel hd :: below v l) in *.
  pose proof (inv_chain _ _ _ _ HI) as Hch.
  pose proof (chain_ptr_lt _ _ _ Hch) as Hlt.
  rewrite <- (below_from v l) in Hch.
  change (sentinel hd :: below v l ++ from v l) with (F ++ from v l) in Hch.
  apply chain_app in Hch as [HF Hhi]. rewrite app_nil_r in HF.
  pose proof (inv_nodup _ _ _ _ HI) as Hnd.
  assert (Hfresh : n ∉ hd :: (a_ptr <$> l)).
  { intros Hin. apply (proj1 (Forall_forall _ _) Hlt) in Hin. unfold n in Hin. lia. }
  assert (HndF : NoDup (a_ptr <$> F)).
  { rewrite <- (below_from v l), fmap_app in Hnd.
    change (hd :: (a_ptr <$> below v l) ++ (a_ptr <$> from v l))
      with ((a_ptr <$> F) ++ (a_ptr <$> from v l)) in Hnd.
    by apply NoDup_app in Hnd as (? & _). }
  assert (HFsub : ∀ p, p ∈ a_ptr <$> F → p ∈ hd :: (a_ptr <$> l)).
  { intros p Hp. unfold F in Hp. rewrite fmap_cons in Hp.
    rewrite <- (below_from v l), fmap_app.
    rewrite elem_of_cons in Hp. rewrite elem_of_cons, elem_of_app. tauto. }
  assert (HnF : n ∉ a_ptr <$> F) by (intros ?; by apply Hfresh, HFsub).
  destruct (splice_spec n nl v F (from v l) u' HndF HnF Hpred'
              (S nl) 0 (h ++ [mk v nl]))
    as (h' & -> & Hch' & Hn' & Hlen' & Hfr); [lia| | |].
  { eapply chain_lv_change; [| |exact HF].
    - intros a Ha. apply lookup_app_l.
      apply (proj1 (Forall_forall _ _) Hlt), HFsub.
      by apply list_elem_of_fmap_2.
    - intros. unfold mix. by rewrite decide_False by lia. }
  { exists (mk v nl). split; [by apply list_lookup_middle|].
    rewrite Hmk. cbn [value forward]. split; [done|].
    split; [rewrite length_replicate; lia|].
    intros k Hk. cbn beta. case_decide; [lia|]. apply lookup_replicate_2. lia. }
  assert (Hkeep : ∀ p, p ∉ a_ptr <$> F → p < length h → h' !! p = h !! p).
  { intros p HpF Hp. rewrite Hfr; [by apply lookup_app_l|done|unfold n; lia]. }
  exists h'. split; [done|]. split; [|split].
  - constructor; simpl.
    + apply (inv_head _ _ _ _ HI).
    + change (sentinel hd :: below v l ++ x :: from v l)
        with (F ++ x :: from v l).
      apply chain_app. split.
      * eapply chain_lv_change; [done| |exact Hch'].
        intros a A B k _ Hk. unfold mix. rewrite app_nil_r.
        case_decide; [done|]. symmetry. apply next_at_skip. simpl. lia.
      * apply chain_cons. split.
        -- eapply node_at_ext; [|exact Hn']. intros. simpl.
           by rewrite app_nil_r.
        -- eapply chain_frame; [|exact Hhi]. intros a Ha.
           assert (a_ptr a ∈ a_ptr <$> from v l) as Hin
             by (by apply list_elem_of_fmap_2).
           apply Hkeep.
           ++ rewrite <- (below_from v l), fmap_app in Hnd.
              change (hd :: (a_ptr <$> below v l) ++ (a_ptr <$> from v l))
                with ((a_ptr <$> F) ++ (a_ptr <$> from v l)) in Hnd.
              apply NoDup_app in Hnd as (_ & Hdis & _).
              intros HaF. by apply (Hdis _ HaF).
           ++ apply (proj1 (Forall_forall _ _) Hlt).
              apply elem_of_cons. right. apply list_elem_of_fmap_2.
              rewrite <- (below_from v l). apply elem_of_app. by right.
    + apply (nodup_insert hd n); try done.
      * intros ->. apply Hfresh. by left.
      * rewrite below_from. intros ?. apply Hfresh. by right.
      * by rewrite below_from.
    + apply sorted_insert; try done. apply (inv_sorted _ _ _ _ HI).
    + pose proof (inv_heights _ _ _ _ HI) as Hht.
      rewrite <- (below_from v l), Forall_app in Hht. destruct Hht as [H1 H2].
      apply Forall_app. split; [|constructor; [simpl; lia|]];
        (eapply Forall_impl; [eassumption|]); simpl; intros; lia.
    + pose proof (inv_level _ _ _ _ HI). lia.
    + rewrite (size_succ _ (length l)) by apply (inv_size _ _ _ _ HI).
      f_equal. f_equal. rewrite <- (below_from v l) at 1.
      rewrite !length_app. simpl. lia.
  - rewrite Hlen', length_app. simpl. lia.
  - intros p Hp Hpl. apply Hkeep; [|done]. intros ?. by apply Hp, HFsub.
Qed.

Lemma next_at_from (h : heap) (s : SkipList) (hd : ptr) (l : list anode) (v : T) :
  Inv h s hd l →
  match from v l with
  | [] => next_at 0 (from v l) = None
  | b :: _ => next_at 0 (from v l) = Some (a_ptr b) ∧
              ∃ nd, load h (a_ptr b) = Ok nd ∧ value nd = a_val b
  end.
Proof.
  intros HI. pose proof (inv_chain _ _ _ _ HI) as Hch.
  rewrite <- (below_from v l) in Hch.
  change (sentinel hd :: below v l ++ from v l)
    with ((sentinel hd :: below v l) ++ from v l) in Hch.
  apply chain_app in Hch as [_ Hhi].
  rewrite next_at_zero. destruct (from v l) as [|b r]; [done|].
  split; [done|]. apply chain_cons in Hhi as [Hb _].
  by eapply node_at_load.
Qed.

Lemma differs_spec (h : heap) (s : SkipList) (hd : ptr) (l : list anode) (v : T) :
  Inv h s hd l →
  differs h (next_at 0 (from v l)) v = Ok (negb (present v l)).
Proof.
  intros HI. pose proof (next_at_from h s hd l v HI) as Hn. unfold present.
  destruct (from v l) as [|b r]; [by rewrite Hn|].
  destruct Hn as (-> & nd & Hld & Hv). simpl. by rewrite Hld, <- Hv.
Qed.

Lemma matches_spec (h : heap) (s : SkipList) (hd : ptr) (l : list anode) (v : T) :
  Inv h s hd l →
  matches h (next_at 0 (from v l)) v = Ok (present v l).
Proof.
  intros HI. pose proof (next_at_from h s hd l v HI) as Hn. unfold present.
  destruct (from v l) as [|b r]; [by rewrite Hn|].
  destruct Hn as (-> & nd & Hld & Hv). simpl. by rewrite Hld, <- Hv.
Qed.

Lemma absent_gt (v : T) (l : list anode) :
  strict_weak_order → eq_consistent →
  StronglySorted ltP (a_val <$> l) → present v l = false →
  ∀ b r, from v l = b :: r → lt v (a_val b) = true.
Proof.
  intros Hswo Heq Hs Hp b r E. unfold present in Hp. rewrite E in Hp.
  pose proof (from_ge v l Hswo Hs) as Hge. rewrite E in Hge.
  inversion Hge as [|? ? Hb _]; subst. rewrite Heq in Hp. unfold equiv in Hp.
  rewrite Hb in Hp. simpl in Hp. by destruct (lt v (a_val b)).
Qed.

(** A value that is present: [insert] changes nothing. *)
Lemma insert_present (mk : T → nat → Node) (ok : bool) (h : heap)
    (s : SkipList) (hd : ptr) (l : list anode) (v : T) :
  strict_weak_order → Inv h s hd l → present v l = true →
  insert_with mk ok h s v = Done tt h s.
Proof.
  intros Hswo HI Hp. unfold insert_with. rewrite (inv_head _ _ _ _ HI).
  destruct (search_spec h s hd l v Hswo HI)
    as (c0 & A0 & update & Hd & _ & _ & _ & Hf).
  change (a_ptr (sentinel hd)) with hd in Hd. rewrite Hd. cbn [obind fst snd].
  rewrite Hf. cbn [obind]. rewrite (differs_spec h s hd l v HI), Hp. done.
Qed.

(** A value that is absent, and the node can be allocated. *)
Lemma insert_absent (mk : T → nat → Node) (h : heap)
    (s : SkipList) (hd : ptr) (l : list anode) (v : T) :
  strict_weak_order → eq_consistent → is_ctor mk →
  Inv h s hd l → present v l = false →
  let nl := (random_level (rng s)).1 in
  let s' := mkSkipList (head s) (Nat.max (current_level s) nl)
              ((size_ s + 1) `mod` SIZE_MOD) (random_level (rng s)).2 in
  ∃ h', insert_with mk true h s v = Done tt h' s' ∧
        Inv h' s' hd (below v l ++ mkA (length h) v nl :: from v l) ∧
        length h' = S (length h) ∧
        (∀ p, p ∉ hd :: (a_ptr <$> l) → p < length h → h' !! p = h !! p).
Proof.
  intros Hswo Heq Hmk HI Hp nl s'. unfold insert_with.
  rewrite (inv_head _ _ _ _ HI).
  destruct (search_spec h s hd l v Hswo HI)
    as (c0 & A0 & update & Hd & _ & Hlen & Hpred & Hf).
  change (a_ptr (sentinel hd)) with hd in Hd. rewrite Hd. cbn [obind fst snd].
  rewrite Hf. cbn [obind]. rewrite (differs_spec h s hd l v HI), Hp.
  cbn [obind negb]. apply insert_new_spec; try done.
  apply absent_gt; try done. apply (inv_sorted _ _ _ _ HI).
Qed.

(** A value that is absent, and the allocation of the node fails. *)
Lemma insert_absent_fail (mk : T → nat → Node) (h : heap)
    (s : SkipList) (hd : ptr) (l : list anode) (v : T) :
  strict_weak_order → Inv h s hd l → present v l = false →
  insert_with mk false h s v
  = Raised bad_alloc h
      (mkSkipList (head s)
         (Nat.max (current_level s) (random_level (rng s)).1)
         (size_ s) (random_level (rng s)).2).
Proof.
  intros Hswo HI Hp. unfold insert_with. rewrite (inv_head _ _ _ _ HI).
  destruct (search_spec h s hd l v Hswo HI)
    as (c0 & A0 & update & Hd & _ & Hlen & Hpred & Hf).
  change (a_ptr (sentinel hd)) with hd in Hd. rewrite Hd. cbn [obind fst snd].
  rewrite Hf. cbn [obind]. rewrite (differs_spec h s hd l v HI), Hp.
  cbn [obind negb].
  rewrite (insert_new_fail mk h s hd l v update HI Hlen Hpred).
  by rewrite (inv_head _ _ _ _ HI).
Qed.

(** ** [erase] keeps the invariant *)

Lemma next_at_in (k : nat) (r : list anode) (p : ptr) :
  next_at k r = Some p → p ∈ a_ptr <$> r.
Proof.
  intros (A & a & B & -> & <- & _)%next_at_elem.
  apply list_elem_of_fmap_2, elem_of_app. right. by left.
Qed.

Lemma next_at_None (k : nat) (r : list anode) :
  next_at k r = None → Forall (λ a, a_h a < k) r.
Proof.
  induction r as [|a r IH]; simpl; [constructor|].
  case_decide; [done|]. intros ?. constructor; [lia|by apply IH].
Qed.

Lemma next_at_Some_ge (k : nat) (r : list anode) (p : ptr) :
  next_at k r = Some p → k ≤ foldr Nat.max 0 (a_h <$> r).
Proof.
  induction r as [|a r IH]; [done|].
  rewrite fmap_cons. cbn [foldr next_at].
  case_decide; [intros _; lia|]. intros ?%IH. lia.
Qed.

Lemma heights_max_le (m : nat) (r : list anode) :
  Forall (λ a, a_h a ≤ m) r → foldr Nat.max 0 (a_h <$> r) ≤ m.
Proof.
  induction 1 as [|a r Ha _ IH]; [simpl; lia|].
  rewrite fmap_cons. cbn [foldr]. lia.
Qed.

Lemma heights_le_max (r : list anode) :
  Forall (λ a, a_h a ≤ foldr Nat.max 0 (a_h <$> r)) r.
Proof.
  induction r as [|a r IH]; [constructor|].
  rewrite fmap_cons. cbn [foldr]. constructor; [lia|].
  eapply Forall_impl; [exact IH|]. cbn beta. intros. lia.
Qed.

Lemma unlink_spec (cl : nat) (t : anode) (F hi' : list anode)
    (update : list (option ptr)) :
  NoDup (a_ptr <$> F) → a_ptr t ∉ a_ptr <$> F → a_ptr t ∉ a_ptr <$> hi' →
  a_h t ≤ cl →
  (∀ k, k ≤ cl → ∃ ck Bk, update !! k = Some (Some (a_ptr ck)) ∧
                          is_pred k F ck Bk) →
  ∀ (count j : nat) (h : heap),
  j ≤ S (a_h t) → j + count = S cl →
  chain_lv h F (mix j hi' (t :: hi')) →
  node_at h (a_ptr t) (a_val t) (a_h t) (λ k, next_at k hi') →
  ∃ h', unlink count j h update (a_ptr t) = Ok h' ∧
        chain_lv h' F (mix (S (a_h t)) hi' (t :: hi')) ∧
        length h' = length h ∧
        (∀ p, p ∉ a_ptr <$> F → h' !! p = h !! p).
Proof.
  intros HndF HtF Hthi Hht Hupd.
  induction count as [|c IH]; intros j h Hj Hc Hch Ht.
  - exists h. simpl. assert (j = S (a_h t)) as -> by lia. done.
  - cbn [unlink]. destruct (Hupd j) as (ck & Bk & Hu & Hp); [lia|].
    unfold vec_get. rewrite Hu. cbn [obind].
    pose proof (chain_lv_pred _ _ _ _ _ _ Hch Hp) as Hck.
    assert (j ≤ a_h ck) as Hjck by (by destruct Hp as (? & ? & ? & ?)).
    assert (Forall (λ b, a_h b < j) Bk) as Hlow
      by (by destruct Hp as (? & ? & ? & ?)).
    assert (Hx : fwd h (a_ptr ck) j = Ok (next_at j (t :: hi'))).
    { rewrite (node_at_fwd _ _ _ _ _ j Hck Hjck). f_equal. unfold mix.
      rewrite decide_False by lia. by rewrite next_at_app_low. }
    rewrite Hx. cbn [obind next_at].
    destruct (decide (j ≤ a_h t)) as [Hle|Hgt].
    + destruct (decide (Some (a_ptr t) ≠ Some (a_ptr t))) as [?|_]; [done|].
      rewrite (node_at_fwd _ _ _ _ _ j Ht Hle). cbn [obind].
      destruct Hck as (nd & Hnd & Hdv & Hdlen & Hdk).
      rewrite (set_fwd_Some _ _ _ _ _ Hnd) by lia. cbn [obind].
      assert (a_ptr ck ≠ a_ptr t) as Hne.
      { intros E. apply HtF. rewrite <- E. apply list_elem_of_fmap_2.
        by eapply is_pred_elem. }
      assert (a_ptr ck < length h) as Hclt by (by eapply lookup_lt_Some).
      match goal with |- context [unlink c (S j) ?hh _ _] => set (h2 := hh) end.
      destruct (IH (S j) h2) as (h' & Hs & Hch' & Hlen' & Hfr'); [lia|lia| | |].
      * eapply (chain_lv_step h h2); try done.
        -- unfold h2. by rewrite list_lookup_insert_eq.
        -- intros a Ha Hac. unfold h2. by rewrite list_lookup_insert_ne.
      * eapply node_at_frame; [|exact Ht]. unfold h2.
        by rewrite list_lookup_insert_ne.
      * exists h'. rewrite Hs. repeat split; try done.
        -- rewrite Hlen'. unfold h2. by rewrite length_insert.
        -- intros p HpF. rewrite Hfr' by done. unfold h2.
           rewrite list_lookup_insert_ne; [done|].
           intros E. apply HpF. rewrite <- E. apply list_elem_of_fmap_2.
           by eapply is_pred_elem.
    + destruct (decide (next_at j hi' ≠ Some (a_ptr t))) as [_|Hn].
      * exists h. assert (j = S (a_h t)) as -> by lia. done.
      * destruct Hn. intros E. by apply next_at_in in E.
Qed.

Lemma lower_level_spec (h : heap) (hd : ptr) (x : T) (l : list anode) :
  node_at h hd x MAX_LEVEL (λ k, next_at k l) →
  ∀ cl, cl ≤ MAX_LEVEL → Forall (λ a, a_h a ≤ cl) l →
  lower_level h hd cl = Ok (foldr Nat.max 0 (a_h <$> l)).
Proof.
  intros Hhd. induction cl as [|k IH]; intros Hcl Hht.
  - simpl. f_equal. apply heights_max_le in Hht. lia.
  - cbn [lower_level]. rewrite (node_at_fwd _ _ _ _ _ (S k) Hhd Hcl).
    cbn [obind]. destruct (next_at (S k) l) as [p|] eqn:E.
    + f_equal. apply next_at_Some_ge in E. apply heights_max_le in Hht. lia.
    + apply IH; [lia|]. apply next_at_None in E.
      eapply Forall_impl; [exact E|]. simpl. intros. lia.
Qed.

Lemma nodup_remove (hd : ptr) (lo hi : list anode) (t : anode) :
  NoDup (hd :: (a_ptr <$> (lo ++ t :: hi))) →
  NoDup (hd :: (a_ptr <$> (lo ++ hi))) ∧
  a_ptr t ∉ hd :: (a_ptr <$> (lo ++ hi)).
Proof.
  rewrite !fmap_app, fmap_cons.
  rewrite app_comm_cons, <- Permutation_middle.
  by intros [? ?]%NoDup_cons.
Qed.

Lemma sorted_remove (lo hi : list anode) (t : anode) :
  StronglySorted ltP (a_val <$> (lo ++ t :: hi)) →
  StronglySorted ltP (a_val <$> (lo ++ hi)).
Proof.
  rewrite !fmap_app, fmap_cons, !StronglySorted_app, StronglySorted_cons.
  intros (Hc & ? & ? & ?). repeat split; try done.
  intros x1 x2 ? ?. apply Hc; [done|]. by right.
Qed.

(** The first node not below [v] compares equal to [v]: [erase] unlinks
    it, and touches no node but the sentinel and the nodes below [v]. *)
Lemma erase_present (h : heap) (s : SkipList) (hd : ptr) (l : list anode) (v : T) :
  strict_weak_order → Inv h s hd l → present v l = true →
  ∃ t hi' h',
    from v l = t :: hi' ∧ eqb (a_val t) v = true ∧
    let l' := below v l ++ hi' in
    let s' := mkSkipList (head s) (foldr Nat.max 0 (a_h <$> l'))
                ((size_ s - 1) `mod` SIZE_MOD) (rng s) in
    erase h s v = Done true h' s' ∧
    Inv h' s' hd l' ∧ level_exact s' l' ∧
    length h' = length h ∧
    (∀ p, p ∉ hd :: (a_ptr <$> below v l) → h' !! p = h !! p).
Proof.
  intros Hswo HI Hp. unfold present in Hp.
  destruct (from v l) as [|t hi'] eqn:Efrom; [done|].
  exists t, hi'.
  assert (El : l = below v l ++ t :: hi') by (by rewrite <- Efrom, below_from).
  set (F := sentinel hd :: below v l).
  pose proof (inv_chain _ _ _ _ HI) as Hch. rewrite El in Hch.
  change (sentinel hd :: below v l ++ t :: hi') with (F ++ t :: hi') in Hch.
  apply chain_app in Hch as [HF [Ht Hhi]%chain_cons].
  rewrite !app_nil_r in *.
  pose proof (inv_nodup _ _ _ _ HI) as Hnd. rewrite El in Hnd.
  apply nodup_remove in Hnd as [Hnd' Htfresh].
  assert (HndF : NoDup (a_ptr <$> F)).
  { rewrite fmap_app in Hnd'.
    change (hd :: (a_ptr <$> below v l) ++ (a_ptr <$> hi'))
      with ((a_ptr <$> F) ++ (a_ptr <$> hi')) in Hnd'.
    by apply NoDup_app in Hnd' as (? & _). }
  assert (HtF : a_ptr t ∉ a_ptr <$> F).
  { intros Hin. apply Htfresh. unfold F in Hin. rewrite fmap_cons in Hin.
    rewrite fmap_app. rewrite elem_of_cons in Hin.
    rewrite elem_of_cons, elem_of_app. tauto. }
  assert (Hthi : a_ptr t ∉ a_ptr <$> hi').
  { intros Hin. apply Htfresh. rewrite fmap_app.
    rewrite elem_of_cons, elem_of_app. tauto. }
  pose proof (inv_heights _ _ _ _ HI) as Hht. rewrite El in Hht.
  apply Forall_app in Hht as [Hhlo Hhhi].
  apply Forall_cons in Hhhi as [Hht Hhhi].
  destruct (search_spec h s hd l v Hswo HI)
    as (c0 & A0 & update & Hd & _ & Hlen & Hpred & Hf).
  change (a_ptr (sentinel hd)) with hd in Hd.
  destruct (unlink_spec (current_level s) t F hi' update HndF HtF Hthi Hht Hpred
              (S (current_level s)) 0 h)
    as (h' & Hun & Hch' & Hlen' & Hfr); [lia|lia| |done|].
  { eapply chain_lv_change; [done| |exact HF].
    intros. unfold mix. by rewrite decide_False by lia. }
  assert (HchF' : chain h' F hi').
  { eapply chain_lv_change; [done| |exact Hch'].
    intros a A B k _ Hk. unfold mix. case_decide; [done|].
    change (B ++ t :: hi') with (B ++ t :: hi'). apply next_at_skip. lia. }
  assert (Hchl' : chain h' (sentinel hd :: below v l ++ hi') []).
  { change (sentinel hd :: below v l ++ hi') with (F ++ hi').
    apply chain_app. rewrite app_nil_r. split; [done|].
    eapply chain_frame; [|exact Hhi]. intros a Ha. apply Hfr.
    rewrite fmap_app in Hnd'.
    change (hd :: (a_ptr <$> below v l) ++ (a_ptr <$> hi'))
      with ((a_ptr <$> F) ++ (a_ptr <$> hi')) in Hnd'.
    apply NoDup_app in Hnd' as (_ & Hdis & _).
    intros HaF. apply (Hdis _ HaF). by apply list_elem_of_fmap_2. }
  exists h'. split; [done|]. split; [done|]. intros l' s'.
  assert (Hlow : lower_level h' hd (current_level s)
                 = Ok (foldr Nat.max 0 (a_h <$> l'))).
  { apply chain_cons in Hchl' as [Hhd _]. rewrite app_nil_r in Hhd.
    eapply lower_level_spec; [exact Hhd|apply (inv_level _ _ _ _ HI)|].
    by apply Forall_app. }
  split; [|split; [|split; [done|split; [done|]]]].
  - unfold erase. rewrite (inv_head _ _ _ _ HI), Hd. cbn [obind fst snd].
    rewrite Hf. cbn [obind].
    rewrite (matches_spec h s hd l v HI). unfold present.
    rewrite Efrom, Hp. cbn [obind next_at].
    rewrite decide_True by lia. rewrite Hun. cbn [obind]. rewrite Hlow.
    cbn [obind]. by rewrite <- (inv_head _ _ _ _ HI).
  - constructor; simpl.
    + apply (inv_head _ _ _ _ HI).
    + done.
    + done.
    + pose proof (inv_sorted _ _ _ _ HI) as Hs. rewrite El in Hs.
      by eapply sorted_remove.
    + apply heights_le_max.
    + pose proof (inv_level _ _ _ _ HI).
      assert (foldr Nat.max 0 (a_h <$> l') ≤ current_level s); [|lia].
      apply heights_max_le. by apply Forall_app.
    + apply size_pred. rewrite (inv_size _ _ _ _ HI). f_equal. f_equal.
      rewrite El at 1. unfold l'. rewrite !length_app. simpl. lia.
  - intros p Hp'. apply Hfr. done.
Qed.

(** No node compares equal to [v] where the search stops: [erase]
    changes nothing. *)
Lemma erase_absent (h : heap) (s : SkipList) (hd : ptr) (l : list anode) (v : T) :
  strict_weak_order → Inv h s hd l → present v l = false →
  erase h s v = Done false h s.
Proof.
  intros Hswo HI Hp. unfold erase. rewrite (inv_head _ _ _ _ HI).
  destruct (search_spec h s hd l v Hswo HI)
    as (c0 & A0 & update & Hd & _ & _ & _ & Hf).
  change (a_ptr (sentinel hd)) with hd in Hd. rewrite Hd. cbn [obind fst snd].
  rewrite Hf. cbn [obind]. rewrite (matches_spec h s hd l v HI), Hp.
  cbn [obind]. by destruct (next_at 0 (from v l)).
Qed.

(** ** [find], iteration, [clear], construction *)

Lemma find_spec (h : heap) (s : SkipList) (hd : ptr) (l : list anode) (v : T) :
  strict_weak_order → Inv h s hd l →
  find h s v = Ok (if present v l then next_at 0 (from v l) else None).
Proof.
  intros Hswo HI. unfold find. rewrite (inv_head _ _ _ _ HI).
  destruct (search_spec h s hd l v Hswo HI)
    as (c0 & A0 & update & Hd & _ & _ & _ & Hf).
  change (a_ptr (sentinel hd)) with hd in Hd.
  rewrite (descend_find_spec _ _ _ _ _ _ Hd). cbn [obind fst].
  rewrite Hf. cbn [obind]. rewrite (matches_spec h s hd l v HI). cbn [obind].
  by destruct (present v l).
Qed.

Lemma iterate_spec {A : Type} (body : heap → Iterator → outcome A)
    (f : anode → A) (h : heap) (l : list anode) :
  (∀ a, a ∈ l → body h (Some (a_ptr a)) = Ok (f a)) →
  chain h l [] →
  ∀ fuel, length l < fuel →
  iterate body fuel h (next_at 0 l) = Ok (f <$> l).
Proof.
  induction l as [|a r IH]; intros Hbody Hch fuel Hf.
  - destruct fuel; [simpl in Hf; lia|]. done.
  - destruct fuel as [|fuel]; [simpl in Hf; lia|].
    apply chain_cons in Hch as [Ha Hr]. rewrite app_nil_r in Ha.
    rewrite next_at_zero. cbn [List.head fmap option_fmap option_map iterate].
    unfold iter_ne, iter_eq. rewrite bool_decide_false by done. cbn [negb].
    rewrite Hbody by (by left). cbn [obind incr].
    rewrite (node_at_fwd _ _ _ _ _ 0 Ha) by lia. cbn [obind].
    rewrite IH; [done| |done|simpl in Hf; lia].
    intros b Hb. apply Hbody. by right.
Qed.

Lemma begin_spec (h : heap) (s : SkipList) (hd : ptr) (l : list anode) :
  Inv h s hd l → begin_ h s = Ok (next_at 0 l).
Proof.
  intros HI. unfold begin_. rewrite (inv_head _ _ _ _ HI).
  destruct (inv_chain _ _ _ _ HI) as [Hhd _]. rewrite app_nil_r in Hhd.
  apply (node_at_fwd _ _ _ _ _ 0 Hhd). simpl. lia.
Qed.

Lemma inv_chain_nodes (h : heap) (s : SkipList) (hd : ptr) (l : list anode) :
  Inv h s hd l → chain h l [].
Proof. intros HI. by destruct (inv_chain _ _ _ _ HI) as [_ ?]. Qed.

Lemma to_list_spec (h : heap) (s : SkipList) (hd : ptr) (l : list anode) :
  Inv h s hd l → to_list h s = Ok (a_val <$> l).
Proof.
  intros HI. unfold to_list. rewrite (begin_spec _ _ _ _ HI). cbn [obind].
  apply iterate_spec.
  - intros a Ha. destruct (chain_elem _ _ _ _ (inv_chain_nodes _ _ _ _ HI) Ha)
      as (nd & Hnd & Hv & _).
    simpl. by rewrite (load_Some _ _ _ Hnd), <- Hv.
  - by eapply inv_chain_nodes.
  - pose proof (inv_length_le _ _ _ _ HI). lia.
Qed.

Lemma nodes_spec (h : heap) (s : SkipList) (hd : ptr) (l : list anode) :
  Inv h s hd l → nodes h s = Ok (a_ptr <$> l).
Proof.
  intros HI. unfold nodes. rewrite (begin_spec _ _ _ _ HI). cbn [obind].
  apply iterate_spec.
  - done.
  - by eapply inv_chain_nodes.
  - pose proof (inv_length_le _ _ _ _ HI). lia.
Qed.

Lemma inv_fresh (h : heap) (s : SkipList) :
  Inv (h ++ [Node_move dflt MAX_LEVEL])
      (mkSkipList (Some (length h)) 0 0 (rng s)) (length h) [].
Proof.
  constructor; cbn [head current_level size_ fmap list_fmap length].
  - done.
  - split; [|done]. exists (Node_move dflt MAX_LEVEL).
    split; [by apply list_lookup_middle|].
    unfold Node_move. cbn [value forward sentinel a_h a_val].
    split; [done|]. split; [rewrite length_replicate; lia|].
    intros k Hk. cbn [app next_at]. apply lookup_replicate_2. lia.
  - apply NoDup_singleton.
  - constructor.
  - constructor.
  - lia.
  - done.
Qed.

Lemma clear_spec (h : heap) (s : SkipList) :
  ∃ h' s', clear true h s = Done tt h' s' ∧ Inv h' s' (length h) [] ∧
           rng s' = rng s.
Proof.
  eexists _, _. split; [done|]. split; [|done]. apply inv_fresh.
Qed.

Lemma new_spec (h : heap) (seed : RNG) :
  Inv (SkipList_new h seed).1 (SkipList_new h seed).2 (length h) [].
Proof. apply (inv_fresh h (mkSkipList None 0 0 seed)). Qed.

Lemma move_construct_fst (s : SkipList) : (move_construct s).1 = s.
Proof. by destruct s. Qed.

(** ** Membership *)

Lemma equiv_refl (a : T) : strict_weak_order → equiv a a = true.
Proof. intros Hswo. unfold equiv. by rewrite (lt_irrefl Hswo). Qed.

Lemma equiv_sym (a b : T) : equiv a b = equiv b a.
Proof. unfold equiv. by destruct (lt a b), (lt b a). Qed.

Lemma present_elem (v : T) (l : list anode) :
  present v l = true → ∃ a, a ∈ l ∧ eqb (a_val a) v = true.
Proof.
  unfold present. destruct (from v l) as [|b r] eqn:E; [done|].
  intros Hb. exists b. split; [|done].
  rewrite <- (below_from v l), E. apply elem_of_app. right. by left.
Qed.

Lemma elem_present (v : T) (l : list anode) (a : anode) :
  strict_weak_order → eq_consistent →
  StronglySorted ltP (a_val <$> l) →
  a ∈ l → eqb (a_val a) v = true → present v l = true.
Proof.
  intros Hswo Heq Hs Ha He. rewrite Heq in He. unfold equiv in He.
  apply andb_true_iff in He as [H1 H2].
  apply negb_true_iff in H1, H2.
  pose proof (from_ge v l Hswo Hs) as Hge.
  pose proof (below_lt v l) as Hlt.
  rewrite <- (below_from v l) in Ha, Hs.
  apply elem_of_app in Ha as [Ha|Ha].
  { apply (proj1 (Forall_forall _ _) Hlt) in Ha. congruence. }
  unfold present. destruct (from v l) as [|b r]; [by inversion Ha|].
  apply elem_of_cons in Ha as [->|Ha].
  { rewrite Heq. unfold equiv. by rewrite H1, H2. }
  rewrite fmap_app, fmap_cons in Hs.
  apply StronglySorted_app_1_r, StronglySorted_cons in Hs as [Hb _].
  assert (lt (a_val b) (a_val a) = true) as Hba.
  { apply (proj1 (Forall_forall _ _) Hb). by apply list_elem_of_fmap_2. }
  destruct (lt_neg_trans Hswo _ v _ Hba) as [Hbv|Hva]; [|congruence].
  inversion Hge; subst. congruence.
Qed.

(** [present] says whether some node of the list compares equal. *)
Lemma present_iff (v : T) (l : list anode) :
  strict_weak_order → eq_consistent →
  StronglySorted ltP (a_val <$> l) →
  present v l = true ↔ ∃ y, y ∈ a_val <$> l ∧ eqb y v = true.
Proof.
  intros Hswo Heq Hs. split.
  - intros (a & Ha & He)%present_elem. exists (a_val a).
    split; [by apply list_elem_of_fmap_2|done].
  - intros (y & (a & -> & Ha)%list_elem_of_fmap_1 & He).
    by eapply elem_present.
Qed.

(** ** Sequences of calls keep the invariant *)

Lemma inv_raise_level (h : heap) (s : SkipList) (hd : ptr) (l : list anode)
    (cl : nat) (g : RNG) :
  Inv h s hd l → current_level s ≤ cl ≤ MAX_LEVEL →
  Inv h (mkSkipList (head s) cl (size_ s) g) hd l.
Proof.
  intros [] [? ?]. constructor; simpl; try done.
  eapply Forall_impl; [eassumption|]. simpl. intros. lia.
Qed.

Lemma insert_ok (mk : T → nat → Node) (h : heap) (s : SkipList) (hd : ptr)
    (l : list anode) (v : T) :
  strict_weak_order → eq_consistent → is_ctor mk → Inv h s hd l →
  ∃ h' s' l',
    insert_with mk true h s v = Done tt h' s' ∧ Inv h' s' hd l' ∧
    l' = (if present v l then l
          else below v l ++ mkA (length h) v (random_level (rng s)).1
                 :: from v l) ∧
    (present v l = true → h' = h ∧ s' = s) ∧
    (present v l = false →
       size_ s' = ((size_ s + 1) `mod` SIZE_MOD)%Z ∧
       ∀ p, p ∉ hd :: (a_ptr <$> l) → p < length h → h' !! p = h !! p).
Proof.
  intros Hswo Heq Hmk HI. destruct (present v l) eqn:Hp.
  - exists h, s, l. split; [by eapply insert_present|].
    split; [done|]. split; [done|]. split; [by intros _|by intros [=]].
  - destruct (insert_absent mk h s hd l v Hswo Heq Hmk HI Hp)
      as (h' & Hins & HI' & _ & Hfr).
    eexists h', _, _. split; [exact Hins|].
    split; [exact HI'|]. split; [done|]. split; [by intros [=]|].
    intros _. split; [done|exact Hfr].
Qed.

Lemma insert_any (mk : T → nat → Node) (ok : bool) (h : heap) (s : SkipList)
    (hd : ptr) (l : list anode) (v : T) :
  strict_weak_order → eq_consistent → is_ctor mk → Inv h s hd l →
  ∃ h' s' l',
    (insert_with mk ok h s v = Done tt h' s' ∨
     insert_with mk ok h s v = Raised bad_alloc h' s') ∧
    Inv h' s' hd l'.
Proof.
  intros Hswo Heq Hmk HI. destruct ok.
  - destruct (insert_ok mk h s hd l v Hswo Heq Hmk HI)
      as (h' & s' & l' & Hins & HI' & _).
    exists h', s', l'. split; [by left|done].
  - destruct (present v l) eqn:Hp.
    + exists h, s, l. split; [left; by eapply insert_present|done].
    + eexists h, _, l. split; [right; by eapply insert_absent_fail|].
      apply inv_raise_level; [done|].
      pose proof (inv_level _ _ _ _ HI).
      pose proof (random_level_le (rng s)). lia.
Qed.

Lemma Node_copy_ctor : is_ctor Node_copy.
Proof. done. Qed.

Lemma Node_move_ctor : is_ctor Node_move.
Proof. done. Qed.

Lemma erase_any (h : heap) (s : SkipList) (hd : ptr) (l : list anode) (v : T) :
  strict_weak_order → Inv h s hd l →
  ∃ b h' s' l', erase h s v = Done b h' s' ∧ Inv h' s' hd l'.
Proof.
  intros Hswo HI. destruct (present v l) eqn:Hp.
  - destruct (erase_present h s hd l v Hswo HI Hp)
      as (t & hi' & h' & _ & _ & He & HI' & _).
    eexists true, h', _, _. split; [exact He|exact HI'].
  - exists false, h, s, l. split; [by eapply erase_absent|done].
Qed.

(** ** Copies *)

Lemma inv_frame (h h' : heap) (s : SkipList) (hd : ptr) (l : list anode) :
  Inv h s hd l →
  (∀ p, p ∈ hd :: (a_ptr <$> l) → h' !! p = h !! p) →
  Inv h' s hd l.
Proof.
  intros [] Hfr. constructor; try done.
  eapply chain_frame; [|eassumption]. intros a Ha. apply Hfr.
  apply elem_of_cons in Ha as [->|Ha]; [by left|right].
  by apply list_elem_of_fmap_2.
Qed.

Lemma inv_ptr_lt (h : heap) (s : SkipList) (hd : ptr) (l : list anode) (p : ptr) :
  Inv h s hd l → p ∈ hd :: (a_ptr <$> l) → p < length h.
Proof.
  intros HI Hp.
  apply (proj1 (Forall_forall _ _) (chain_ptr_lt _ _ _ (inv_chain _ _ _ _ HI))).
  done.
Qed.

Lemma below_all (v : T) (l : list anode) :
  Forall (λ a, lt (a_val a) v = true) l → below v l = l ∧ from v l = [].
Proof.
  induction 1 as [|a l Ha _ [IH1 IH2]]; [done|]. simpl.
  by rewrite Ha, IH1, IH2.
Qed.

Lemma swap_fst (a b : SkipList) : (swap a b).1 = b.
Proof. by destruct b. Qed.

Lemma copy_loop_spec (ok : nat → bool) (h0 : heap) (hd_t : ptr)
    (lo : list anode) :
  strict_weak_order → eq_consistent →
  StronglySorted ltP (a_val <$> lo) →
  ∀ (todo done : list anode) (k fuel : nat) (h : heap) (this : SkipList)
    (lt_ : list anode),
  lo = done ++ todo → chain h0 todo [] → length todo < fuel →
  (∀ p, p < length h0 → h !! p = h0 !! p) →
  Inv h this hd_t lt_ → a_val <$> lt_ = a_val <$> done →
  Forall (λ p, length h0 ≤ p) (hd_t :: (a_ptr <$> lt_)) →
  ∃ h' this',
    ((∃ l', copy_loop ok k fuel h this (next_at 0 todo) = Done tt h' this' ∧
            Inv h' this' hd_t l' ∧ a_val <$> l' = a_val <$> lo) ∨
     copy_loop ok k fuel h this (next_at 0 todo) = Raised bad_alloc h' this') ∧
    (∀ p, p < length h0 → h' !! p = h0 !! p).
Proof.
  intros Hswo Heq Hs.
  induction todo as [|a r IH];
    intros done k fuel h this lt_ Hlo Hch Hf Hold HI Hvals Hnew.
  - destruct fuel as [|f]; [simpl in Hf; lia|].
    exists h, this. split; [|done]. left. exists lt_. split; [done|].
    split; [done|]. by rewrite Hvals, Hlo, app_nil_r.
  - destruct fuel as [|f]; [simpl in Hf; lia|].
    apply chain_cons in Hch as [Ha Hr]. rewrite app_nil_r in Ha.
    pose proof (node_at_lt _ _ _ _ _ Ha) as Halt.
    rewrite next_at_zero. cbn [List.head fmap option_fmap option_map copy_loop].
    unfold iter_ne, iter_eq. rewrite bool_decide_false by done. cbn [negb].
    assert (Hlda : ∀ h1, (∀ p, p < length h0 → h1 !! p = h0 !! p) →
              deref h1 (Some (a_ptr a)) = Ok (a_val a) ∧
              incr h1 (Some (a_ptr a)) = Ok (next_at 0 r)).
    { intros h1 Hh1. destruct Ha as (nd & Hnd & Hv & _ & Hk).
      rewrite <- (Hh1 _ Halt) in Hnd. split.
      - simpl. by rewrite (load_Some _ _ _ Hnd), <- Hv.
      - simpl. eapply fwd_Some; [exact Hnd|]. apply Hk. lia. }
    destruct (Hlda h Hold) as [-> _].
    assert (Hlow : Forall (λ b, lt (a_val b) (a_val a) = true) lt_).
    { rewrite Hlo, fmap_app, fmap_cons in Hs.
      apply StronglySorted_app in Hs as (Hc & _ & _).
      apply Forall_forall. intros b Hb. apply Hc; [|by left].
      rewrite <- Hvals. by apply list_elem_of_fmap_2. }
    destruct (below_all _ _ Hlow) as [Hbelow Hfrom].
    assert (Hp : present (a_val a) lt_ = false)
      by (unfold present; by rewrite Hfrom).
    assert (Hh : length h0 < length h).
    { inversion Hnew as [|? ? Hhd _]; subst.
      pose proof (inv_ptr_lt h this hd_t lt_ hd_t HI ltac:(by left)). lia. }
    destruct (ok k).
    + destruct (insert_ok Node_copy h this hd_t lt_ (a_val a) Hswo Heq
                  Node_copy_ctor HI)
        as (h1 & this1 & l1 & Hins & HI1 & El1 & _ & Hfr).
      rewrite Hp, Hbelow, Hfrom in El1. destruct (Hfr Hp) as [_ Hfr'].
      unfold insert. rewrite Hins.
      assert (Hold1 : ∀ p, p < length h0 → h1 !! p = h0 !! p).
      { intros p Hpl. rewrite Hfr'; [by apply Hold| |lia].
        intros Hin. apply (proj1 (Forall_forall _ _) Hnew) in Hin. lia. }
      destruct (Hlda h1 Hold1) as [_ ->].
      destruct (IH (done ++ [a]) (S k) f h1 this1 l1) as (h' & this' & Hres & Hold');
        try done.
      * by rewrite <- (assoc_L (++)).
      * simpl in Hf. lia.
      * rewrite El1, !fmap_app, Hvals. done.
      * rewrite El1, fmap_app. rewrite app_comm_cons. apply Forall_app.
        split; [done|]. constructor; [simpl; lia|constructor].
      * by exists h', this'.
    + unfold insert.
      rewrite (insert_absent_fail Node_copy h this hd_t lt_ (a_val a) Hswo HI Hp).
      eexists h, _. split; [by right|done].
Qed.

Lemma copy_construct_spec (ok : nat → bool) (h : heap) (other : SkipList)
    (hd : ptr) (l : list anode) (seed : RNG) :
  strict_weak_order → eq_consistent → Inv h other hd l →
  ∃ h' c,
    ((∃ l', copy_construct ok h other seed = Done tt h' c ∧
            Inv h' c (length h) l' ∧ a_val <$> l' = a_val <$> l) ∨
     copy_construct ok h other seed = Raised bad_alloc h' c) ∧
    Inv h' other hd l.
Proof.
  intros Hswo Heq HI. unfold copy_construct. destruct (ok 0).
  - pose proof (new_spec h seed) as Hnew.
    assert (Hold : ∀ p, p < length h → (SkipList_new h seed).1 !! p = h !! p).
    { intros p Hp. by apply lookup_app_l. }
    assert (HI1 : Inv (SkipList_new h seed).1 other hd l).
    { eapply inv_frame; [exact HI|]. intros p Hp. apply Hold.
      by eapply inv_ptr_lt. }
    rewrite (begin_spec _ _ _ _ HI1).
    destruct (copy_loop_spec ok h (length h) l Hswo Heq (inv_sorted _ _ _ _ HI)
                l [] 1 (S (length h)) (SkipList_new h seed).1
                (SkipList_new h seed).2 [])
      as (h' & c & Hres & Hold'); try done.
    + by eapply inv_chain_nodes.
    + pose proof (inv_length_le _ _ _ _ HI). lia.
    + constructor; [simpl; lia|constructor].
    + exists h', c. split; [done|]. eapply inv_frame; [exact HI|].
      intros p Hp. apply Hold'. by eapply inv_ptr_lt.
  - eexists h, _. split; [by right|done].
Qed.

Local Ltac close_step :=
  eexists _, _, _, _; split; [reflexivity|eassumption].

Lemma step_inv (o : op) (h : heap) (s : SkipList) (hd : ptr) (l : list anode) :
  strict_weak_order → eq_consistent → Inv h s hd l →
  ∃ h' s' hd' l', step o h s = Some (h', s') ∧ Inv h' s' hd' l'.
Proof.
  intros Hswo Heq HI. destruct o as [ok v|ok v|v|ok| |ok seed|ok this seed];
    cbn [step].
  - destruct (insert_any Node_copy ok h s hd l v Hswo Heq Node_copy_ctor HI)
      as (h' & s' & l' & [E|E] & HI'); unfold insert; rewrite E; close_step.
  - destruct (insert_any Node_move ok h s hd l v Hswo Heq Node_move_ctor HI)
      as (h' & s' & l' & [E|E] & HI'); unfold insert_rv; rewrite E; close_step.
  - destruct (erase_any h s hd l v Hswo HI) as (b & h' & s' & l' & E & HI').
    rewrite E. close_step.
  - destruct ok.
    + destruct (clear_spec h s) as (h' & s' & E & HI' & _). rewrite E.
      close_step.
    + cbn [clear]. close_step.
  - rewrite move_construct_fst. close_step.
  - destruct (copy_construct_spec ok h s hd l seed Hswo Heq HI)
      as (h' & c & [(l' & E & HI' & _)|E] & HIs); rewrite E; close_step.
  - unfold copy_assign.
    destruct (copy_construct_spec ok h s hd l seed Hswo Heq HI)
      as (h' & c & [(l' & E & HI' & _)|E] & HIs); rewrite E;
      rewrite ?swap_fst; close_step.
Qed.

Lemma run_inv (ops : list op) :
  strict_weak_order → eq_consistent →
  ∀ (h : heap) (s : SkipList) (hd : ptr) (l : list anode),
  Inv h s hd l →
  ∃ h' s' hd' l', run ops h s = Some (h', s') ∧ Inv h' s' hd' l'.
Proof.
  intros Hswo Heq. induction ops as [|o ops IH]; intros h s hd l HI.
  - exists h, s, hd, l. done.
  - destruct (step_inv o h s hd l Hswo Heq HI) as (h1 & s1 & hd1 & l1 & E & HI1).
    cbn [run]. rewrite E. by eapply IH.
Qed.

(** The values after a run of successful insertions. *)
Lemma run_inserts (S : list T) :
  strict_weak_order → eq_consistent →
  ∀ (h : heap) (s : SkipList) (hd : ptr) (l : list anode),
  Inv h s hd l →
  ∃ h' s' l',
    run (OpInsert true <$> S) h s = Some (h', s') ∧ Inv h' s' hd l' ∧
    (∀ x, x ∈ a_val <$> l' → x ∈ a_val <$> l ∨ x ∈ S) ∧
    (∀ x, x ∈ a_val <$> l → x ∈ a_val <$> l') ∧
    (∀ x, x ∈ S → ∃ y, y ∈ a_val <$> l' ∧ equiv x y = true).
Proof.
  intros Hswo Heq. induction S as [|v S IH]; intros h s hd l HI.
  - exists h, s, l. split; [done|]. split; [done|].
    split; [intros x ?; by left|]. split; [done|]. intros x Hx. by inversion Hx.
  - destruct (insert_ok Node_copy h s hd l v Hswo Heq Node_copy_ctor HI)
      as (h1 & s1 & l1 & Hins & HI1 & El1 & _).
    destruct (IH h1 s1 hd l1 HI1) as (h' & s' & l' & Hrun & HI' & Hsub & Hmono & Hall).
    exists h', s', l'. rewrite fmap_cons. cbn [run step]. fold (insert true h s v).
    unfold insert at 1. rewrite Hins. split; [done|]. split; [done|].
    assert (Hl1 : ∀ x, x ∈ a_val <$> l1 → x ∈ a_val <$> l ∨ x = v).
    { intros x. rewrite El1. destruct (present v l); [by left|].
      rewrite <- (below_from v l) at 3.
      rewrite !fmap_app, fmap_cons, !elem_of_app, elem_of_cons. simpl. tauto. }
    assert (Hl1' : ∀ x, x ∈ a_val <$> l → x ∈ a_val <$> l1).
    { intros x. rewrite El1. destruct (present v l); [done|].
      rewrite <- (below_from v l) at 1.
      rewrite !fmap_app, fmap_cons, !elem_of_app, elem_of_cons. tauto. }
    assert (Hv : ∃ y, y ∈ a_val <$> l1 ∧ equiv v y = true).
    { rewrite El1. destruct (present v l) eqn:Hp.
      - apply present_elem in Hp as (a & Ha & He). exists (a_val a).
        split; [by apply list_elem_of_fmap_2|].
        by rewrite equiv_sym, <- Heq.
      - exists v. split; [|by apply equiv_refl].
        rewrite fmap_app, fmap_cons, elem_of_app, elem_of_cons. simpl. tauto. }
    repeat split.
    + intros x Hx. destruct (Hsub x Hx) as [H1|H1].
      * destruct (Hl1 x H1) as [?| ->]; [by left|right; by left].
      * right. by right.
    + intros x Hx. by apply Hmono, Hl1'.
    + intros x [->|Hx]%elem_of_cons; [|by apply Hall].
      destruct Hv as (y & Hy & He). exists y. split; [by apply Hmono|done].
Qed.

(** ** No call but a dereference throws *)

Lemma quiet_Ok {A : Type} (a : A) : quiet (Ok a).
Proof. by intros e. Qed.

Lemma quiet_Fault {A : Type} : quiet (@Fault A).
Proof. by intros e. Qed.

Lemma quiet_Diverge {A : Type} : quiet (@Diverge A).
Proof. by intros e. Qed.

Lemma obind_quiet {A B : Type} (m : outcome A) (k : A → outcome B) :
  quiet m → (∀ a, quiet (k a)) → quiet (obind m k).
Proof.
  intros Hm Hk e. destruct m as [a|e'| |]; simpl; try done.
  - apply Hk.
  - by destruct (Hm e').
Qed.

Local Ltac quiet_step :=
  first
    [ apply quiet_Ok | apply quiet_Fault | apply quiet_Diverge
    | assumption
    | apply obind_quiet; [|intros ?]
    | match goal with
      | |- quiet (match ?x with _ => _ end) => destruct x
      | |- quiet (if ?x then _ else _) => destruct x
      end ].

Local Ltac quiet_tac := repeat quiet_step.

Lemma load_quiet (h : heap) (p : ptr) : quiet (load h p).
Proof. unfold load. quiet_tac. Qed.

Lemma vec_get_quiet {A : Type} (l : list A) (i : nat) : quiet (vec_get l i).
Proof. unfold vec_get. quiet_tac. Qed.

Lemma vec_set_quiet {A : Type} (l : list A) (i : nat) (x : A) :
  quiet (vec_set l i x).
Proof. unfold vec_set. quiet_tac. Qed.

Lemma fwd_quiet (h : heap) (p : ptr) (i : nat) : quiet (fwd h p i).
Proof. unfold fwd. apply obind_quiet; [apply load_quiet|]. intros. apply vec_get_quiet. Qed.

Lemma set_fwd_quiet (h : heap) (p : ptr) (i : nat) (x : option ptr) :
  quiet (set_fwd h p i x).
Proof.
  unfold set_fwd. apply obind_quiet; [apply load_quiet|]. intros.
  apply obind_quiet; [apply vec_set_quiet|]. intros. apply quiet_Ok.
Qed.

Lemma advance_while_quiet (fuel : nat) (h : heap) (i : nat) (v : T) (cur : ptr) :
  quiet (advance_while fuel h i v cur).
Proof.
  revert cur. induction fuel as [|f IH]; intros cur; cbn [advance_while].
  - apply quiet_Diverge.
  - apply obind_quiet; [apply fwd_quiet|]. intros [n|]; [|apply quiet_Ok].
    apply obind_quiet; [apply load_quiet|]. intros nd.
    destruct (lt (value nd) v); [apply IH|apply quiet_Ok].
Qed.

Lemma descend_quiet (h : heap) (v : T) (n : nat) (cur : ptr)
    (update : list (option ptr)) :
  quiet (descend h v n cur update).
Proof.
  revert cur update. induction n as [|i IH]; intros cur update; cbn [descend].
  - apply quiet_Ok.
  - apply obind_quiet; [apply advance_while_quiet|]. intros.
    apply obind_quiet; [apply vec_set_quiet|]. intros. apply IH.
Qed.

Lemma descend_find_quiet (h : heap) (v : T) (n : nat) (cur : ptr) :
  quiet (descend_find h v n cur).
Proof.
  revert cur. induction n as [|i IH]; intros cur; cbn [descend_find].
  - apply quiet_Ok.
  - apply obind_quiet; [apply advance_while_quiet|]. intros. apply IH.
Qed.

Lemma raise_update_quiet (count i : nat) (hd : option ptr)
    (update : list (option ptr)) :
  quiet (raise_update count i hd update).
Proof.
  revert i update. induction count as [|c IH]; intros i update; cbn [raise_update].
  - apply quiet_Ok.
  - apply obind_quiet; [apply vec_set_quiet|]. intros. apply IH.
Qed.

Lemma splice_quiet (count i : nat) (h : heap) (update : list (option ptr))
    (n : ptr) :
  quiet (splice count i h update n).
Proof.
  revert i h. induction count as [|c IH]; intros i h; cbn [splice].
  - apply quiet_Ok.
  - apply obind_quiet; [apply vec_get_quiet|]. intros [pu|]; [|apply quiet_Fault].
    apply obind_quiet; [apply fwd_quiet|]. intros.
    apply obind_quiet; [apply set_fwd_quiet|]. intros.
    apply obind_quiet; [apply set_fwd_quiet|]. intros. apply IH.
Qed.

Lemma unlink_quiet (count i : nat) (h : heap) (update : list (option ptr))
    (c : ptr) :
  quiet (unlink count i h update c).
Proof.
  revert i h. induction count as [|k IH]; intros i h; cbn [unlink].
  - apply quiet_Ok.
  - apply obind_quiet; [apply vec_get_quiet|]. intros [pu|]; [|apply quiet_Fault].
    apply obind_quiet; [apply fwd_quiet|]. intros x.
    destruct (decide (x ≠ Some c)); [apply quiet_Ok|].
    apply obind_quiet; [apply fwd_quiet|]. intros.
    apply obind_quiet; [apply set_fwd_quiet|]. intros. apply IH.
Qed.

Lemma lower_level_quiet (h : heap) (hd : ptr) (cl : nat) :
  quiet (lower_level h hd cl).
Proof.
  induction cl as [|k IH]; cbn [lower_level].
  - apply quiet_Ok.
  - apply obind_quiet; [apply fwd_quiet|]. intros [?|]; [apply quiet_Ok|apply IH].
Qed.

Lemma differs_quiet (h : heap) (c : option ptr) (v : T) : quiet (differs h c v).
Proof.
  destruct c; simpl; [|apply quiet_Ok].
  apply obind_quiet; [apply load_quiet|]. intros. apply quiet_Ok.
Qed.

Lemma matches_quiet (h : heap) (c : option ptr) (v : T) : quiet (matches h c v).
Proof.
  destruct c; simpl; [|apply quiet_Ok].
  apply obind_quiet; [apply load_quiet|]. intros. apply quiet_Ok.
Qed.

Lemma find_quiet (h : heap) (s : SkipList) (v : T) : quiet (find h s v).
Proof.
  unfold find. destruct (head s); [|apply quiet_Fault].
  apply obind_quiet; [apply descend_find_quiet|]. intros.
  apply obind_quiet; [apply fwd_quiet|]. intros.
  apply obind_quiet; [apply matches_quiet|]. intros []; apply quiet_Ok.
Qed.

Lemma begin_quiet (h : heap) (s : SkipList) : quiet (begin_ h s).
Proof. unfold begin_. destruct (head s); [apply fwd_quiet|apply quiet_Fault]. Qed.

Lemma incr_quiet (h : heap) (it : Iterator) : quiet (incr h it).
Proof. destruct it; simpl; [apply fwd_quiet|apply quiet_Ok]. Qed.

Lemma insert_new_raised (mk : T → nat → Node) (ok : bool) (h : heap)
    (s : SkipList) (update : list (option ptr)) (v : T) (e : exn)
    (h' : heap) (s' : SkipList) :
  insert_new mk ok h s update v = Raised e h' s' → e = bad_alloc ∧ ok = false.
Proof.
  unfold insert_new.
  assert (quiet (raise_level s (random_level (rng s)).1 update)) as Hq.
  { unfold raise_level. case_decide; [|apply quiet_Ok].
    apply obind_quiet; [apply raise_update_quiet|]. intros. apply quiet_Ok. }
  destruct (raise_level _ _ _) as [[u cl]|e'| |]; try done;
    [|by destruct (Hq e')].
  destruct ok; [|by intros [= <- _ _]].
  match goal with |- context [splice ?a ?b ?c ?d ?f] =>
    pose proof (splice_quiet a b c d f) as Hs;
    destruct (splice a b c d f) as [h2|e'| |]; try done
  end.
  by destruct (Hs e').
Qed.

Lemma insert_with_raised (mk : T → nat → Node) (ok : bool) (h : heap)
    (s : SkipList) (v : T) (e : exn) (h' : heap) (s' : SkipList) :
  insert_with mk ok h s v = Raised e h' s' → e = bad_alloc ∧ ok = false.
Proof.
  unfold insert_with. destruct (head s) as [hd|]; [|done].
  match goal with |- context [match ?m with _ => _ end] =>
    assert (quiet m) as Hq; [|destruct m as [[u []]|e'| |]; try done]
  end.
  - apply obind_quiet; [apply descend_quiet|]. intros.
    apply obind_quiet; [apply fwd_quiet|]. intros.
    apply obind_quiet; [apply differs_quiet|]. intros. apply quiet_Ok.
  - apply insert_new_raised.
  - by destruct (Hq e').
Qed.

Lemma erase_not_raised (h : heap) (s : SkipList) (v : T) (e : exn)
    (h' : heap) (s' : SkipList) :
  erase h s v ≠ Raised e h' s'.
Proof.
  unfold erase. destruct (head s) as [hd|]; [|done].
  match goal with |- context [match ?m with Ok _ => _ | _ => _ end] =>
    assert (quiet m) as Hq; [|destruct m as [[[u [c|]] []]|e'| |]; try done]
  end.
  - apply obind_quiet; [apply descend_quiet|]. intros.
    apply obind_quiet; [apply fwd_quiet|]. intros.
    apply obind_quiet; [apply matches_quiet|]. intros. apply quiet_Ok.
  - match goal with |- context [match ?m with Ok _ => _ | _ => _ end] =>
      assert (quiet m) as Hq'; [|destruct m as [[h1 cl]|e'| |]; try done]
    end.
    + apply obind_quiet; [apply unlink_quiet|]. intros.
      apply obind_quiet; [apply lower_level_quiet|]. intros. apply quiet_Ok.
    + by destruct (Hq' e').
  - by destruct (Hq e').
Qed.

Lemma deref_Some_quiet (h : heap) (p : ptr) : quiet (deref h (Some p)).
Proof.
  simpl. apply obind_quiet; [apply load_quiet|]. intros. apply quiet_Ok.
Qed.

Lemma copy_loop_raised (ok : nat → bool) (fuel : nat) :
  ∀ (k : nat) (h : heap) (this : SkipList) (it : Iterator) (e : exn)
    (h' : heap) (s' : SkipList),
  copy_loop ok k fuel h this it = Raised e h' s' → e = bad_alloc.
Proof.
  induction fuel as [|f IH]; intros k h this it e h' s'; cbn [copy_loop];
    [done|].
  destruct it as [p|]; [|done]. unfold iter_ne, iter_eq.
  rewrite bool_decide_false by done. cbn [negb].
  pose proof (deref_Some_quiet h p) as Hd.
  destruct (deref h (Some p)) as [x|e'| |]; try done; [|by destruct (Hd e')].
  destruct (insert (ok k) h this x) as [[] h1 this1|e1 h1 this1| |] eqn:Ei;
    try done.
  - pose proof (incr_quiet h1 (Some p)) as Hi.
    destruct (incr h1 (Some p)) as [it'|e'| |]; try done; [|by destruct (Hi e')].
    apply IH.
  - intros [= <- _ _]. by apply insert_with_raised in Ei as [? _].
Qed.

Lemma copy_construct_raised (ok : nat → bool) (h : heap) (other : SkipList)
    (seed : RNG) (e : exn) (h' : heap) (s' : SkipList) :
  copy_construct ok h other seed = Raised e h' s' → e = bad_alloc.
Proof.
  unfold copy_construct. destruct (ok 0); [|by intros [= <- _ _]].
  pose proof (begin_quiet (SkipList_new h seed).1 other) as Hb.
  destruct (begin_ _ other) as [it|e'| |]; try done; [|by destruct (Hb e')].
  apply copy_loop_raised.
Qed.

(** The calls with what the library can refuse. *)

Lemma insert_call_raised (vec_ok ok : bool) (h : heap) (s : SkipList) (v : T)
    (e : exn) (h' : heap) (s' : SkipList) :
  insert_call vec_ok ok h s v = Raised e h' s' →
  e = bad_alloc ∧ (vec_ok = false ∨ ok = false).
Proof.
  unfold insert_call. destruct vec_ok.
  - intros [-> ->]%insert_with_raised. split; [done|by right].
  - intros [= <- _ _]. split; [done|by left].
Qed.

Lemma copy_loop_call_raised (vec_ok ok : nat → bool) (fuel : nat) :
  ∀ (k : nat) (h : heap) (this : SkipList) (it : Iterator) (e : exn)
    (h' : heap) (s' : SkipList),
  copy_loop_call vec_ok ok k fuel h this it = Raised e h' s' →
  e = bad_alloc ∧ ∃ j, vec_ok j = false ∨ ok j = false.
Proof.
  induction fuel as [|f IH]; intros k h this it e h' s';
    cbn [copy_loop_call]; [done|].
  destruct it as [p|]; [|done]. unfold iter_ne, iter_eq.
  rewrite bool_decide_false by done. cbn [negb].
  pose proof (deref_Some_quiet h p) as Hd.
  destruct (deref h (Some p)) as [x|e'| |]; try done; [|by destruct (Hd e')].
  destruct (insert_call (vec_ok k) (ok k) h this x)
    as [[] h1 this1|e1 h1 this1| |] eqn:Ei; try done.
  - pose proof (incr_quiet h1 (Some p)) as Hi.
    destruct (incr h1 (Some p)) as [it'|e'| |]; try done; [|by destruct (Hi e')].
    apply IH.
  - intros [= <- _ _]. apply insert_call_raised in Ei as [-> Hk].
    split; [done|]. by exists k.
Qed.

Lemma copy_construct_call_throw (vec_ok ok : nat → bool) (rd : exn + RNG)
    (h : heap) (other : SkipList) (e : exn) :
  copy_construct_call vec_ok ok rd h other = Throw e →
  (e = bad_alloc ∧ ∃ j, vec_ok j = false ∨ ok j = false) ∨ rd = inl e.
Proof.
  unfold copy_construct_call, SkipList_call.
  destruct (ok 0) eqn:E0; cbn [obind].
  - destruct rd as [e'|seed]; cbn [obind]; [intros [= <-]; by right|].
    pose proof (begin_quiet (SkipList_new h seed).1 other) as Hb.
    destruct (begin_ _ other) as [it|e'| |]; cbn [obind]; try done;
      [|by destruct (Hb e')].
    destruct (copy_loop_call _ _ _ _ _ _ _) as [[] h1 c|e1 h1 c| |] eqn:El;
      try done.
    intros [= <-]. left. by eapply copy_loop_call_raised.
  - intros [= <-]. left. split; [done|]. exists 0. by right.
Qed.

Lemma copy_loop_call_all (ok : nat → bool) (fuel : nat) :
  ∀ (k : nat) (h : heap) (this : SkipList) (it : Iterator),
  copy_loop_call (λ _, true) ok k fuel h this it
  = copy_loop ok k fuel h this it.
Proof.
  induction fuel as [|f IH]; intros k h this it; [done|].
  cbn [copy_loop_call copy_loop]. unfold insert_call.
  destruct (iter_ne it None); [|done].
  destruct (deref h it); try done.
  destruct (insert (ok k) h this a) as [[] h1 this1|e1 h1 this1| |]; try done.
  destruct (incr h1 it); [apply IH|done..].
Qed.

(** * The properties of the specification *)

Lemma equiv_trans (a b c : T) :
  strict_weak_order → equiv a b = true → equiv b c = true → equiv a c = true.
Proof.
  intros Hswo. unfold equiv. rewrite !andb_true_iff, !negb_true_iff.
  intros [Hab Hba] [Hbc Hcb]. split.
  - destruct (lt a c) eqn:E; [|done].
    destruct (lt_neg_trans Hswo _ b _ E); congruence.
  - destruct (lt c a) eqn:E; [|done].
    destruct (lt_neg_trans Hswo _ b _ E); congruence.
Qed.

Lemma absent_iff (v : T) (l : list anode) :
  strict_weak_order → eq_consistent →
  StronglySorted ltP (a_val <$> l) →
  present v l = false ↔ ∀ y, y ∈ a_val <$> l → eqb y v = false.
Proof.
  intros Hswo Heq Hs. split.
  - intros Hp y Hy. destruct (eqb y v) eqn:E; [|done].
    rewrite <- Hp. symmetry. apply present_iff; eauto.
  - intros Hall. destruct (present v l) eqn:Hp; [|done].
    apply present_iff in Hp as (y & Hy & He); try done.
    rewrite Hall in He; done.
Qed.

(** C1.  After every sequence of calls of [insert] (either overload,
    with or without memory for the node), [erase], [clear], the copy and
    move constructors and copy assignment, starting with a new set, the
    level-0 walk from the sentinel ends, stands on pairwise different
    nodes, as many as [size()] says, and sees strictly ascending values.
    After inserting the values of [S], the walk sees exactly the values
    of [S], each once: every value seen is one of [S], and every value of
    [S] is equivalent to one seen. *)
Theorem level0_ascending :
  strict_weak_order → eq_consistent →
  ∀ (h0 : heap) (seed : RNG) (ops : list op),
  ∃ h s ps vs,
    run ops (SkipList_new h0 seed).1 (SkipList_new h0 seed).2 = Some (h, s) ∧
    nodes h s = Ok ps ∧ NoDup ps ∧
    to_list h s = Ok vs ∧ StronglySorted ltP vs ∧
    length vs = length ps ∧
    size s = (Z.of_nat (length ps) `mod` SIZE_MOD)%Z ∧
    ∀ S, ops = OpInsert true <$> S →
      (∀ x, x ∈ vs → x ∈ S) ∧
      (∀ x, x ∈ S → ∃ y, y ∈ vs ∧ equiv x y = true).
Proof.
  intros Hswo Heq h0 seed ops.
  destruct (run_inv ops Hswo Heq _ _ _ _ (new_spec h0 seed))
    as (h & s & hd & l & Hrun & HI).
  exists h, s, (a_ptr <$> l), (a_val <$> l).
  split; [done|]. split; [by eapply nodes_spec|].
  split; [by destruct (proj1 (NoDup_cons _ _) (inv_nodup _ _ _ _ HI))|].
  split; [by eapply to_list_spec|]. split; [apply (inv_sorted _ _ _ _ HI)|].
  split; [by rewrite !length_fmap|].
  split; [unfold size; rewrite (inv_size _ _ _ _ HI); by rewrite length_fmap|].
  intros S ->.
  destruct (run_inserts S Hswo Heq _ _ _ _ (new_spec h0 seed))
    as (h' & s' & l' & Hrun' & HI' & Hsub & _ & Hall).
  rewrite Hrun in Hrun'. injection Hrun' as <- <-.
  pose proof (to_list_spec _ _ _ _ HI) as E1.
  rewrite (to_list_spec _ _ _ _ HI') in E1. injection E1 as E1.
  rewrite <- E1. split; [|done].
  intros x Hx. destruct (Hsub x Hx) as [Hn|]; [by inversion Hn|done].
Qed.

(** C2.  After every sequence of calls on a new set, [find(v)] returns;
    it returns the end iterator exactly when no value of the set compares
    equal to [v], and otherwise an iterator that dereferences to a value
    of the set that compares equal to [v].  For a set built by inserting
    the values of [S], the end iterator is returned exactly when no value
    of [S] compares equal to [v]. *)
Theorem find_correct :
  strict_weak_order → eq_consistent →
  ∀ (h0 : heap) (seed : RNG) (ops : list op) (v : T),
  ∃ h s vs it,
    run ops (SkipList_new h0 seed).1 (SkipList_new h0 seed).2 = Some (h, s) ∧
    to_list h s = Ok vs ∧
    find h s v = Ok it ∧
    (it = end_ s ↔ ∀ y, y ∈ vs → eqb y v = false) ∧
    (it ≠ end_ s → ∃ y, deref h it = Ok y ∧ y ∈ vs ∧ eqb y v = true) ∧
    ∀ S, ops = OpInsert true <$> S →
      (it = end_ s ↔ ∀ x, x ∈ S → eqb x v = false).
Proof.
  intros Hswo Heq h0 seed ops v.
  destruct (run_inv ops Hswo Heq _ _ _ _ (new_spec h0 seed))
    as (h & s & hd & l & Hrun & HI).
  pose proof (inv_sorted _ _ _ _ HI) as Hs.
  pose proof (absent_iff v l Hswo Heq Hs) as Habs.
  pose proof (next_at_from h s hd l v HI) as Hn.
  exists h, s, (a_val <$> l), (if present v l then next_at 0 (from v l) else None).
  split; [done|]. split; [by eapply to_list_spec|].
  split; [by eapply find_spec|].
  assert (Hend : (if present v l then next_at 0 (from v l) else None) = end_ s
                 ↔ present v l = false).
  { unfold end_. destruct (present v l) eqn:Hp; [|done].
    unfold present in Hp. destruct (from v l) as [|b r]; [done|].
    destruct Hn as [-> _]. done. }
  split; [by rewrite Hend|]. split.
  - rewrite Hend. intros Hp. destruct (present v l) eqn:Hp'; [|done].
    unfold present in Hp'. destruct (from v l) as [|b r] eqn:E; [done|].
    destruct Hn as (-> & nd & Hld & Hv). exists (a_val b). simpl.
    rewrite Hld. simpl. rewrite Hv. split; [done|]. split; [|done].
    apply list_elem_of_fmap_2. rewrite <- (below_from v l), E.
    apply elem_of_app. right. by left.
  - intros S ->. rewrite Hend, Habs.
    destruct (run_inserts S Hswo Heq _ _ _ _ (new_spec h0 seed))
      as (h' & s' & l' & Hrun' & HI' & Hsub & _ & Hall).
    rewrite Hrun in Hrun'. injection Hrun' as <- <-.
    pose proof (to_list_spec _ _ _ _ HI) as E1.
    rewrite (to_list_spec _ _ _ _ HI') in E1. injection E1 as E1.
    rewrite E1 in Hsub, Hall. split.
    + intros Hvs x Hx. destruct (eqb x v) eqn:Ex; [|done].
      destruct (Hall x Hx) as (y & Hy & Hxy).
      rewrite <- (Hvs y Hy), Heq. rewrite Heq in Ex. symmetry.
      apply (equiv_trans y x v Hswo); [by rewrite equiv_sym|done].
    + intros HS y Hy. apply HS. destruct (Hsub y Hy) as [Hn'|]; [|done].
      by inversion Hn'.
Qed.

(** C5.  After every sequence of calls on a new set, inserting a value
    that compares equal to a value of the set ends normally and leaves the
    store and the object as they were, whether or not memory for a node
    would be available: [size()] and the iteration are unchanged. *)
Theorem insert_idempotent :
  strict_weak_order → eq_consistent →
  ∀ (h0 : heap) (seed : RNG) (ops : list op) (v : T) (node_ok : bool),
  ∃ h s vs,
    run ops (SkipList_new h0 seed).1 (SkipList_new h0 seed).2 = Some (h, s) ∧
    to_list h s = Ok vs ∧
    ((∃ y, y ∈ vs ∧ eqb y v = true) →
       insert node_ok h s v = Done tt h s ∧
       insert_rv node_ok h s v = Done tt h s).
Proof.
  intros Hswo Heq h0 seed ops v ok.
  destruct (run_inv ops Hswo Heq _ _ _ _ (new_spec h0 seed))
    as (h & s & hd & l & Hrun & HI).
  exists h, s, (a_val <$> l).
  split; [done|]. split; [by eapply to_list_spec|].
  intros Hp. apply present_iff in Hp; [|done..|apply (inv_sorted _ _ _ _ HI)].
  split; by eapply insert_present.
Qed.

(** C6.  After every sequence of calls on a new set: if a value of the
    set compares equal to [v], [erase(v)] returns [true], the iteration
    loses that one value and nothing else, and [size()] goes down by one;
    if none does, [erase(v)] returns [false] and leaves the store and the
    object as they were. *)
Theorem erase_correct :
  strict_weak_order → eq_consistent →
  ∀ (h0 : heap) (seed : RNG) (ops : list op) (v : T),
  ∃ h s vs,
    run ops (SkipList_new h0 seed).1 (SkipList_new h0 seed).2 = Some (h, s) ∧
    to_list h s = Ok vs ∧
    ((∃ y, y ∈ vs ∧ eqb y v = true) →
       ∃ h' s' xs y ys,
         erase h s v = Done true h' s' ∧
         vs = xs ++ y :: ys ∧ eqb y v = true ∧
         to_list h' s' = Ok (xs ++ ys) ∧
         size s' = ((size s - 1) `mod` SIZE_MOD)%Z ∧
         ((0 < size s)%Z → size s' = (size s - 1)%Z)) ∧
    ((∀ y, y ∈ vs → eqb y v = false) → erase h s v = Done false h s).
Proof.
  intros Hswo Heq h0 seed ops v.
  destruct (run_inv ops Hswo Heq _ _ _ _ (new_spec h0 seed))
    as (h & s & hd & l & Hrun & HI).
  pose proof (inv_sorted _ _ _ _ HI) as Hs.
  exists h, s, (a_val <$> l).
  split; [done|]. split; [by eapply to_list_spec|]. split.
  - intros Hp. apply present_iff in Hp; try done.
    destruct (erase_present h s hd l v Hswo HI Hp)
      as (t & hi' & h' & Efrom & Het & He & HI' & _).
    eexists h', _, (a_val <$> below v l), (a_val t), (a_val <$> hi').
    split; [exact He|].
    split.
    { rewrite <- (below_from v l) at 1. by rewrite Efrom, fmap_app. }
    split; [done|].
    split; [rewrite <- fmap_app; by eapply to_list_spec|].
    split; [done|]. unfold size. cbn [size_]. intros Hpos.
    apply Z.mod_small. rewrite (inv_size _ _ _ _ HI) in Hpos |- *.
    pose proof (Z.mod_pos_bound (Z.of_nat (length l)) SIZE_MOD eq_refl). lia.
  - intros Ha. apply absent_iff in Ha; try done. by eapply erase_absent.
Qed.

(** C9.  After every sequence of calls on a new set, let [find(v)] give
    an iterator on a node [p].  Then [erase(v)] returns [true] and leaves
    the node [p] as it was: the iterator still dereferences to the value
    that compares equal to [v], and [++] takes it where it took it
    before, which is the end or a node of the set after the call, while
    [p] itself is no longer one.  The call changes no value of any node,
    and no link of a node other than the sentinel and the nodes whose
    value is below [v]. *)
Theorem erase_keeps_erased_node :
  strict_weak_order → eq_consistent →
  ∀ (h0 : heap) (seed : RNG) (ops : list op) (v : T),
  ∃ h s,
    run ops (SkipList_new h0 seed).1 (SkipList_new h0 seed).2 = Some (h, s) ∧
    ∀ p, find h s v = Ok (Some p) →
      ∃ h' s' ps' y,
        erase h s v = Done true h' s' ∧
        h' !! p = h !! p ∧
        deref h (Some p) = Ok y ∧ eqb y v = true ∧
        deref h' (Some p) = Ok y ∧
        incr h' (Some p) = incr h (Some p) ∧
        nodes h' s' = Ok ps' ∧ (p ∉ ps') ∧
        (∀ q, incr h' (Some p) = Ok (Some q) → q ∈ ps') ∧
        (∀ q nd, h !! q = Some nd →
           ∃ nd', h' !! q = Some nd' ∧ value nd' = value nd ∧
                  (nd' ≠ nd → head s = Some q ∨ lt (value nd) v = true)).
Proof.
  intros Hswo Heq h0 seed ops v.
  destruct (run_inv ops Hswo Heq _ _ _ _ (new_spec h0 seed))
    as (h & s & hd & l & Hrun & HI).
  exists h, s. split; [done|]. intros p Hfind.
  rewrite (find_spec h s hd l v Hswo HI) in Hfind.
  destruct (present v l) eqn:Hp; [|done].
  destruct (erase_present h s hd l v Hswo HI Hp)
    as (t & hi' & h' & Efrom & Het & He & HI' & _ & Hlen & Hfr).
  pose proof (next_at_from h s hd l v HI) as Hn. rewrite Efrom in Hn, Hfind.
  destruct Hn as (Hnx & nd & Hld & Hv). rewrite Hnx in Hfind.
  injection Hfind as <-.
  assert (El : l = below v l ++ t :: hi') by (by rewrite <- Efrom, below_from).
  pose proof (inv_nodup _ _ _ _ HI) as Hnd. rewrite El in Hnd.
  apply nodup_remove in Hnd as [Hnd' Htfresh].
  assert (Hkeep : h' !! a_ptr t = h !! a_ptr t).
  { apply Hfr. intros Hin. apply Htfresh. rewrite fmap_app.
    rewrite elem_of_cons in Hin. rewrite elem_of_cons, elem_of_app. tauto. }
  assert (Hld' : load h' (a_ptr t) = Ok nd)
    by (unfold load in *; by rewrite Hkeep).
  eexists h', _, (a_ptr <$> (below v l ++ hi')), (a_val t).
  split; [exact He|]. split; [done|].
  split; [simpl; by rewrite Hld, <- Hv|]. split; [done|].
  split; [simpl; by rewrite Hld', <- Hv|].
  split; [unfold incr, fwd, load; by rewrite Hkeep|].
  split; [by eapply nodes_spec|].
  split; [intros Hin; apply Htfresh; by right|]. split.
  - intros q Hq. unfold incr, fwd, load in Hq. rewrite Hkeep in Hq.
    pose proof (inv_chain _ _ _ _ HI) as Hch. rewrite El in Hch.
    change (sentinel hd :: below v l ++ t :: hi')
      with ((sentinel hd :: below v l) ++ t :: hi') in Hch.
    apply chain_app in Hch as [_ [Ht _]%chain_cons].
    apply (node_at_fwd _ _ _ _ _ 0) in Ht; [|lia].
    unfold fwd, load in Ht. rewrite Ht in Hq. injection Hq as Hq.
    rewrite app_nil_r in Hq. apply next_at_in in Hq.
    rewrite fmap_app. apply elem_of_app. by right.
  - intros q nq Hq.
    destruct (decide (q ∈ hd :: (a_ptr <$> below v l))) as [Hin|Hout].
    + assert (∃ a, a ∈ sentinel hd :: below v l ∧ a_ptr a = q) as (a & Ha & <-).
      { apply elem_of_cons in Hin as [->|Hin].
        - exists (sentinel hd). split; [by left|done].
        - apply list_elem_of_fmap_1 in Hin as (a & -> & Ha).
          exists a. split; [by right|done]. }
      pose proof (inv_chain _ _ _ _ HI) as Hch.
      pose proof (inv_chain _ _ _ _ HI') as Hch'.
      destruct (chain_elem h _ [] a Hch) as (n1 & Hn1 & Hv1 & _).
      { rewrite El. apply elem_of_cons in Ha as [->|Ha]; [by left|right].
        apply elem_of_app. by left. }
      destruct (chain_elem h' _ [] a Hch') as (n2 & Hn2 & Hv2 & _).
      { apply elem_of_cons in Ha as [->|Ha]; [by left|right].
        apply elem_of_app. by left. }
      rewrite Hn1 in Hq. injection Hq as ->.
      exists n2. split; [done|]. split; [congruence|]. intros _.
      apply elem_of_cons in Ha as [->|Ha].
      * left. apply (inv_head _ _ _ _ HI).
      * right. rewrite Hv1.
        apply (proj1 (Forall_forall _ _) (below_lt v l)), Ha.
    + exists nq. rewrite Hfr by done. by repeat split.
Qed.

(** C3.  What a move leaves behind: the new object is the old set, and
    the moved-from object reports size 0 and level 0, but it has no
    sentinel, so that [begin], iteration, [find], [insert] and [erase] on
    it dereference a null pointer.  Only [clear] makes it an empty set
    again. *)
Theorem moved_from_has_no_sentinel :
  ∀ (h : heap) (s this : SkipList) (v : T) (node_ok : bool),
    (move_construct s).1 = s ∧
    (move_assign this s).1 = s ∧
    (move_assign this s).2 = (move_construct s).2 ∧
    size (move_construct s).2 = 0%Z ∧
    empty (move_construct s).2 = true ∧
    current_level (move_construct s).2 = 0 ∧
    head (move_construct s).2 = None ∧
    begin_ h (move_construct s).2 = Fault ∧
    to_list h (move_construct s).2 = Fault ∧
    find h (move_construct s).2 v = Fault ∧
    insert node_ok h (move_construct s).2 v = MFault ∧
    insert_rv node_ok h (move_construct s).2 v = MFault ∧
    erase h (move_construct s).2 v = MFault ∧
    ∃ h' s', clear true h (move_construct s).2 = Done tt h' s' ∧
             to_list h' s' = Ok [] ∧ size s' = 0%Z.
Proof.
  intros h s this v ok. split; [by destruct s|]. split; [by destruct s|].
  do 11 (split; [done|]).
  destruct (clear_spec h (move_construct s).2) as (h' & s' & E & HI & _).
  exists h', s'. split; [done|]. split; [by rewrite (to_list_spec _ _ _ _ HI)|].
  unfold size. by rewrite (inv_size _ _ _ _ HI).
Qed.

(** C8.  Dereferencing the end iterator with [*] or [->] throws
    [std::runtime_error] with the message "Dereferencing null iterator",
    in every store and for every set.  It is the only error that the code
    itself raises: [*] and [->] throw nothing else and nowhere else; [++],
    [find] and [begin] never throw; and an exception that leaves any
    other call was thrown by the library.  From [insert], [erase] and
    [clear] that is [bad_alloc], when an allocation that the call makes
    (the [update] vector, the node) fails; from the constructor, the copy
    constructor and copy assignment it is [bad_alloc] after a failed
    allocation, or what [std::random_device] threw. *)
Theorem end_deref_only_error :
  (∀ (h : heap) (s : SkipList),
     deref h (end_ s) = Throw (runtime_error NULL_MSG) ∧
     arrow h (end_ s) = Throw (runtime_error NULL_MSG)) ∧
  NULL_MSG = "Dereferencing null iterator"%string ∧
  (∀ (h : heap) it e, deref h it = Throw e →
     it = None ∧ e = runtime_error NULL_MSG) ∧
  (∀ (h : heap) it e, arrow h it = Throw e →
     it = None ∧ e = runtime_error NULL_MSG) ∧
  (∀ (h : heap) it e, incr h it ≠ Throw e) ∧
  (∀ (h : heap) (s : SkipList) v e, find h s v ≠ Throw e) ∧
  (∀ (h : heap) (s : SkipList) e, begin_ h s ≠ Throw e) ∧
  (∀ vec_ok node_ok (h : heap) (s : SkipList) v e h' s',
     insert_call vec_ok node_ok h s v = Raised e h' s' →
     e = bad_alloc ∧ (vec_ok = false ∨ node_ok = false)) ∧
  (∀ vec_ok node_ok (h : heap) (s : SkipList) v e h' s',
     insert_rv_call vec_ok node_ok h s v = Raised e h' s' →
     e = bad_alloc ∧ (vec_ok = false ∨ node_ok = false)) ∧
  (∀ vec_ok (h : heap) (s : SkipList) v e h' s',
     erase_call vec_ok h s v = Raised e h' s' →
     e = bad_alloc ∧ vec_ok = false) ∧
  (∀ (h : heap) (s : SkipList) v,
     insert_call false true h s v = Raised bad_alloc h s ∧
     erase_call false h s v = Raised bad_alloc h s) ∧
  (∀ ok (h : heap) (s : SkipList) e h' s',
     clear ok h s = Raised e h' s' → e = bad_alloc ∧ ok = false) ∧
  (∀ node_ok rd (h : heap) e,
     SkipList_call node_ok rd h = Throw e →
     (e = bad_alloc ∧ node_ok = false) ∨ rd = inl e) ∧
  (∀ vec_ok ok rd (h : heap) (s : SkipList) e,
     copy_construct_call vec_ok ok rd h s = Throw e →
     (e = bad_alloc ∧ ∃ k, vec_ok k = false ∨ ok k = false) ∨ rd = inl e) ∧
  (∀ vec_ok ok rd (h : heap) (this s : SkipList) e h' s',
     copy_assign_call vec_ok ok rd h this s = Raised e h' s' →
     (e = bad_alloc ∧ ∃ k, vec_ok k = false ∨ ok k = false) ∨ rd = inl e).
Proof.
  split; [done|]. split; [done|]. split.
  { intros h [p|] e; simpl; [|by intros [= <-]].
    intros E. exfalso. revert E. apply obind_quiet; [apply load_quiet|].
    intros. apply quiet_Ok. }
  split; [intros h [p|] e; simpl; [done|by intros [= <-]]|].
  split; [intros; apply incr_quiet|].
  split; [intros; apply find_quiet|].
  split; [intros; apply begin_quiet|].
  split; [intros ????????; apply insert_call_raised|].
  split.
  { intros vec_ok node_ok h s v e h' s'. unfold insert_rv_call.
    destruct vec_ok.
    - intros [-> ->]%insert_with_raised. split; [done|by right].
    - intros [= <- _ _]. split; [done|by left]. }
  split.
  { intros vec_ok h s v e h' s'. unfold erase_call. destruct vec_ok.
    - intros E. by apply erase_not_raised in E.
    - by intros [= <- _ _]. }
  split; [done|].
  split; [intros [] h s e h' s'; unfold clear; [done|by intros [= <- _ _]]|].
  split.
  { intros node_ok rd h e. unfold SkipList_call.
    destruct node_ok; [|intros [= <-]; by left].
    destruct rd as [e'|seed]; [|done]. intros [= <-]. by right. }
  split; [intros ??????; apply copy_construct_call_throw|].
  intros vec_ok ok rd h this s e h' s'. unfold copy_assign_call.
  destruct (copy_construct_call vec_ok ok rd h s) as [hc|e1| |] eqn:E;
    try done.
  intros [= <- _ _]. by eapply copy_construct_call_throw.
Qed.

(** C10.  The two overloads of [insert] do the same: from the same store,
    object (with its generator state), value and allocator behaviour they
    end the same way, with the same store and the same object. *)
Theorem insert_overloads_agree :
  ∀ (node_ok : bool) (h : heap) (s : SkipList) (v : T),
    insert node_ok h s v = insert_rv node_ok h s v.
Proof.
  intros ok h s v. unfold insert, insert_rv, insert_with, insert_new.
  by rewrite Node_copy_ctor, Node_move_ctor.
Qed.

(** * Further properties of the code *)

(** ** [random_level] *)

Lemma random_level_loop_trials (fuel : nat) :
  ∀ (level : nat) (g : RNG),
  level + fuel = MAX_LEVEL →
  level ≤ (random_level_loop fuel level g).1 ≤ MAX_LEVEL ∧
  (∀ i, i < (random_level_loop fuel level g).1 - level →
     (draw (draws i g)).1 = true) ∧
  ((random_level_loop fuel level g).1 < MAX_LEVEL →
     (draw (draws ((random_level_loop fuel level g).1 - level) g)).1 = false) ∧
  (random_level_loop fuel level g).2
  = draws (S ((random_level_loop fuel level g).1 - level)) g.
Proof.
  induction fuel as [|f IH]; intros level g Hl.
  - simpl. destruct (draw g) as [b g'] eqn:E.
    rewrite bool_decide_false by lia. rewrite andb_false_r. simpl.
    rewrite Nat.sub_diag. simpl. rewrite E. simpl.
    split; [lia|]. split; [intros; lia|]. split; [lia|done].
  - change (random_level_loop (S f) level g)
      with (let '(b, g') := draw g in
            if b && bool_decide (level < MAX_LEVEL)
            then random_level_loop f (S level) g' else (level, g')).
    destruct (draw g) as [b g'] eqn:E. destruct b.
    + rewrite bool_decide_true by lia. cbn [andb].
      destruct (IH (S level) g' ltac:(lia)) as (Hb & Ht & Hf & Hg).
      set (r := random_level_loop f (S level) g') in *.
      assert (r.1 - level = S (r.1 - S level)) as -> by lia.
      split; [lia|]. split; [|split].
      * intros [|j] Hj; simpl; rewrite E; [done|]. simpl. apply Ht. lia.
      * intros Hlt. simpl. rewrite E. simpl. by apply Hf.
      * rewrite Hg. simpl. by rewrite E.
    + cbn [andb fst snd]. rewrite Nat.sub_diag. simpl. rewrite E. simpl.
      split; [lia|]. split; [intros; lia|]. done.
Qed.

(** X1.  [random_level] returns the number of trials [dist(rng) < P] that
    succeed before the first one that fails, but at most [MAX_LEVEL]; it
    makes one trial more than the height it returns. *)
Theorem random_level_trials :
  ∀ g : RNG,
    (random_level g).1 ≤ MAX_LEVEL ∧
    (∀ i, i < (random_level g).1 → (draw (draws i g)).1 = true) ∧
    ((random_level g).1 < MAX_LEVEL →
       (draw (draws (random_level g).1 g)).1 = false) ∧
    (random_level g).2 = draws (S (random_level g).1) g.
Proof.
  intros g. unfold random_level.
  destruct (random_level_loop_trials MAX_LEVEL 0 g eq_refl) as (Hb & Ht & Hf & Hg).
  rewrite Nat.sub_0_r in Ht, Hf, Hg. split; [lia|done].
Qed.

(** ** Heights *)

(** X2.  After every sequence of calls on a new set, [current_level] is at
    most [MAX_LEVEL], the sentinel has [MAX_LEVEL + 1] links, and every
    node of the set has at least one link and at most
    [current_level + 1]. *)
Theorem height_bound :
  strict_weak_order → eq_consistent →
  ∀ (h0 : heap) (seed : RNG) (ops : list op),
  ∃ h s hd ps,
    run ops (SkipList_new h0 seed).1 (SkipList_new h0 seed).2 = Some (h, s) ∧
    current_level s ≤ MAX_LEVEL ∧
    head s = Some hd ∧
    (∃ nd, h !! hd = Some nd ∧ length (forward nd) = MAX_LEVEL + 1) ∧
    nodes h s = Ok ps ∧
    ∀ p, p ∈ ps →
      ∃ nd, h !! p = Some nd ∧ 1 ≤ length (forward nd) ≤ current_level s + 1.
Proof.
  intros Hswo Heq h0 seed ops.
  destruct (run_inv ops Hswo Heq _ _ _ _ (new_spec h0 seed))
    as (h & s & hd & l & Hrun & HI).
  exists h, s, hd, (a_ptr <$> l). split; [done|].
  split; [apply (inv_level _ _ _ _ HI)|]. split; [apply (inv_head _ _ _ _ HI)|].
  split.
  { destruct (chain_elem h _ [] (sentinel hd) (inv_chain _ _ _ _ HI))
      as (nd & Hnd & _ & Hlen); [by left|].
    exists nd. split; [done|]. rewrite Hlen. cbn [sentinel a_h]. lia. }
  split; [by eapply nodes_spec|].
  intros p (a & -> & Ha)%list_elem_of_fmap_1.
  destruct (chain_elem h _ [] a (inv_chain_nodes _ _ _ _ HI) Ha)
    as (nd & Hnd & _ & Hlen).
  exists nd. split; [done|]. rewrite Hlen.
  pose proof (proj1 (Forall_forall _ _) (inv_heights _ _ _ _ HI) a Ha). simpl in *.
  lia.
Qed.

(** ** [size], [empty], [begin] *)

(** X3.  After every sequence of calls on a new set, in a store of at most
    2^64 nodes, [size()] is the number of values that the iteration
    yields, and [empty()] holds exactly when it yields none. *)
Theorem size_counts :
  strict_weak_order → eq_consistent →
  ∀ (h0 : heap) (seed : RNG) (ops : list op),
  ∃ h s vs,
    run ops (SkipList_new h0 seed).1 (SkipList_new h0 seed).2 = Some (h, s) ∧
    to_list h s = Ok vs ∧
    ((Z.of_nat (length h) ≤ SIZE_MOD)%Z →
       size s = Z.of_nat (length vs) ∧ (empty s = true ↔ vs = [])).
Proof.
  intros Hswo Heq h0 seed ops.
  destruct (run_inv ops Hswo Heq _ _ _ _ (new_spec h0 seed))
    as (h & s & hd & l & Hrun & HI).
  exists h, s, (a_val <$> l). split; [done|].
  split; [by eapply to_list_spec|]. intros Hfit.
  pose proof (inv_length_le _ _ _ _ HI) as Hle.
  assert (Hsz : size s = Z.of_nat (length l)).
  { unfold size. rewrite (inv_size _ _ _ _ HI). apply Z.mod_small. lia. }
  rewrite length_fmap. split; [done|].
  unfold empty. fold (size s). rewrite Hsz, bool_decide_eq_true.
  destruct l; simpl; split; (done || lia).
Qed.

(** X4.  After every sequence of calls on a new set, [begin()] is the end
    iterator exactly when the iteration yields nothing, and otherwise it
    dereferences to the first value of the iteration, which is less than
    every other value of the set. *)
Theorem begin_least :
  strict_weak_order → eq_consistent →
  ∀ (h0 : heap) (seed : RNG) (ops : list op),
  ∃ h s vs it,
    run ops (SkipList_new h0 seed).1 (SkipList_new h0 seed).2 = Some (h, s) ∧
    to_list h s = Ok vs ∧
    begin_ h s = Ok it ∧
    (it = end_ s ↔ vs = []) ∧
    ∀ x xs, vs = x :: xs →
      deref h it = Ok x ∧ ∀ y, y ∈ xs → lt x y = true.
Proof.
  intros Hswo Heq h0 seed ops.
  destruct (run_inv ops Hswo Heq _ _ _ _ (new_spec h0 seed))
    as (h & s & hd & l & Hrun & HI).
  exists h, s, (a_val <$> l), (next_at 0 l). split; [done|].
  split; [by eapply to_list_spec|]. split; [by eapply begin_spec|].
  rewrite next_at_zero. split; [by destruct l|].
  intros x xs E. destruct l as [|a r]; [done|].
  rewrite fmap_cons in E. injection E as <- <-. split.
  - destruct (chain_elem h _ [] a (inv_chain_nodes _ _ _ _ HI)) as (nd & Hnd & Hv & _);
      [by left|].
    simpl. rewrite (load_Some _ _ _ Hnd). simpl. by rewrite Hv.
  - pose proof (inv_sorted _ _ _ _ HI) as Hs. rewrite fmap_cons in Hs.
    apply StronglySorted_cons in Hs as [Hall _].
    intros y Hy. by apply (proj1 (Forall_forall _ _) Hall).
Qed.

(** ** [clear] *)

Lemma find_nothing (h : heap) (s : SkipList) (hd : ptr) (v : T) :
  Inv h s hd [] → find h s v = Ok None.
Proof.
  intros HI. unfold find. rewrite (inv_head _ _ _ _ HI).
  pose proof (inv_chain _ _ _ _ HI) as Hch.
  pose proof (inv_level _ _ _ _ HI) as Hcl.
  destruct (descend_spec h v [] [sentinel hd] (S (current_level s))
              (sentinel hd) [] [] (replicate (MAX_LEVEL + 1) None))
    as (c0 & A0 & update & Hd & HA0 & _); try done.
  - pose proof (inv_length_le _ _ _ _ HI). simpl in *. lia.
  - simpl. lia.
  - rewrite length_replicate. lia.
  - destruct A0 as [|? [|? ?]]; try done. injection HA0 as <-.
    change (a_ptr (sentinel hd)) with hd in Hd.
    rewrite (descend_find_spec _ _ _ _ _ _ Hd). cbn [obind fst].
    destruct Hch as [Hhd _].
    pose proof (node_at_fwd _ _ _ _ _ 0 Hhd ltac:(lia)) as Hf.
    change (a_ptr (sentinel hd)) with hd in Hf. by rewrite Hf.
Qed.

(** X5.  [clear()] works on every object, also a moved-from one.  When the
    new sentinel cannot be allocated it throws and changes nothing.
    Otherwise the set is empty afterwards ([size()] 0, [begin()] the end
    iterator, nothing found), it keeps its generator state, and no node
    that was in the store has changed, so that iterators into the old
    content can still be dereferenced and advanced. *)
Theorem clear_resets :
  ∀ (h : heap) (s : SkipList) (v : T),
    clear false h s = Raised bad_alloc h s ∧
    ∃ h' s',
      clear true h s = Done tt h' s' ∧
      size s' = 0%Z ∧ empty s' = true ∧ current_level s' = 0 ∧
      rng s' = rng s ∧
      begin_ h' s' = Ok (end_ s') ∧ to_list h' s' = Ok [] ∧
      find h' s' v = Ok (end_ s') ∧
      ∀ p, p < length h →
        h' !! p = h !! p ∧
        deref h' (Some p) = deref h (Some p) ∧
        incr h' (Some p) = incr h (Some p).
Proof.
  intros h s v. split; [done|].
  pose proof (inv_fresh h s) as HI.
  exists (h ++ [Node_move dflt MAX_LEVEL]),
    (mkSkipList (Some (length h)) 0 0 (rng s)).
  split; [done|].
  split; [done|]. split; [done|]. split; [done|]. split; [done|].
  split; [by rewrite (begin_spec _ _ _ _ HI)|].
  split; [by rewrite (to_list_spec _ _ _ _ HI)|].
  split; [by eapply find_nothing|].
  intros p Hp.
  assert ((h ++ [Node_move dflt MAX_LEVEL]) !! p = h !! p) as E
    by (by apply lookup_app_l).
  split; [done|]. unfold deref, incr, fwd, load. by rewrite E.
Qed.

(** ** [insert] without memory *)

(** X6.  After every sequence of calls on a new set, an [insert] of a
    value that is not in the set, for which no node can be allocated,
    throws [bad_alloc] and leaves the store as it was; the object keeps
    its sentinel and its [size()], it iterates over the same nodes and
    values as before, and [find] gives what it gave before. *)
Theorem failed_insert_keeps_content :
  strict_weak_order → eq_consistent →
  ∀ (h0 : heap) (seed : RNG) (ops : list op) (v : T),
  ∃ h s vs,
    run ops (SkipList_new h0 seed).1 (SkipList_new h0 seed).2 = Some (h, s) ∧
    to_list h s = Ok vs ∧
    ((∀ y, y ∈ vs → eqb y v = false) →
       ∃ s',
         insert false h s v = Raised bad_alloc h s' ∧
         insert_rv false h s v = Raised bad_alloc h s' ∧
         head s' = head s ∧ size s' = size s ∧
         to_list h s' = Ok vs ∧ nodes h s' = nodes h s ∧
         ∀ w, find h s' w = find h s w).
Proof.
  intros Hswo Heq h0 seed ops v.
  destruct (run_inv ops Hswo Heq _ _ _ _ (new_spec h0 seed))
    as (h & s & hd & l & Hrun & HI).
  exists h, s, (a_val <$> l). split; [done|].
  split; [by eapply to_list_spec|]. intros Ha.
  apply absent_iff in Ha; [|done..|apply (inv_sorted _ _ _ _ HI)].
  eexists. split; [by eapply insert_absent_fail|].
  split; [by eapply insert_absent_fail|].
  assert (HI' : Inv h (mkSkipList (head s)
                  (Nat.max (current_level s) (random_level (rng s)).1)
                  (size_ s) (random_level (rng s)).2) hd l).
  { apply inv_raise_level; [done|].
    pose proof (inv_level _ _ _ _ HI). pose proof (random_level_le (rng s)). lia. }
  split; [done|]. split; [done|].
  split; [by eapply to_list_spec|].
  split; [by rewrite (nodes_spec _ _ _ _ HI), (nodes_spec _ _ _ _ HI')|].
  intros w. by rewrite (find_spec _ _ _ _ w Hswo HI), (find_spec _ _ _ _ w Hswo HI').
Qed.

(** ** How [insert], [erase] and [find] compose *)

Lemma eqb_sym (a b : T) : eq_consistent → eqb a b = eqb b a.
Proof. intros Heq. by rewrite !Heq, equiv_sym. Qed.

Lemma find_inv (h : heap) (s : SkipList) (hd : ptr) (l : list anode) (v : T) :
  strict_weak_order → Inv h s hd l →
  ∃ it, find h s v = Ok it ∧
        (it = None ↔ present v l = false) ∧
        ∀ p, it = Some p →
          ∃ a, a ∈ l ∧ a_ptr a = p ∧ eqb (a_val a) v = true ∧
               deref h (Some p) = Ok (a_val a).
Proof.
  intros Hswo HI. eexists. split; [by eapply find_spec|].
  pose proof (next_at_from h s hd l v HI) as Hn.
  unfold present. destruct (from v l) as [|b r] eqn:E; [by split|].
  destruct Hn as (Hnx & nd & Hld & Hv).
  destruct (eqb (a_val b) v) eqn:Eb; [|by split].
  rewrite Hnx. split; [by split|]. intros p [= <-].
  exists b. split; [|split; [done|split; [done|]]].
  - rewrite <- (below_from v l), E. apply elem_of_app. right. by left.
  - simpl. rewrite Hld. simpl. by rewrite Hv.
Qed.

Lemma find_None_iff (h : heap) (s : SkipList) (hd : ptr) (l : list anode) (v : T) :
  strict_weak_order → Inv h s hd l →
  find h s v = Ok None ↔ present v l = false.
Proof.
  intros Hswo HI. destruct (find_inv h s hd l v Hswo HI) as (it & -> & Hit & _).
  rewrite <- Hit. split; [by intros [= ->]|by intros ->].
Qed.

Lemma inv_deref (h : heap) (s : SkipList) (hd : ptr) (l : list anode) (a : anode) :
  Inv h s hd l → a ∈ l → deref h (Some (a_ptr a)) = Ok (a_val a).
Proof.
  intros HI Ha.
  destruct (chain_elem h _ [] a (inv_chain_nodes _ _ _ _ HI) Ha)
    as (nd & Hnd & Hv & _).
  simpl. rewrite (load_Some _ _ _ Hnd). simpl. by rewrite Hv.
Qed.

Lemma ins_elem (v : T) (l : list anode) (x a : anode) :
  a ∈ (if present v l then l else below v l ++ x :: from v l) ↔
  a ∈ l ∨ (present v l = false ∧ a = x).
Proof.
  destruct (present v l).
  - split; [by left|]. by intros [?|[? _]].
  - assert (a ∈ l ↔ a ∈ below v l ∨ a ∈ from v l) as ->
      by (rewrite <- (below_from v l) at 1; apply elem_of_app).
    rewrite elem_of_app, elem_of_cons. split; [|intros [?|[_ ?]]]; tauto.
Qed.

(** X7.  After every sequence of calls on a new set, [insert(v)] with
    memory available returns, and then [find(v)] gives an iterator on a
    node of the set whose value compares equal to [v].  If [v] was not
    found before, that node is new and [size()] has gone up by one; if it
    was, nothing has changed.  Every node that was in the set still is,
    with its value, and for a value that does not compare equal to [v],
    [find] gives the end iterator exactly when it did before. *)
Theorem insert_then_find :
  strict_weak_order → eq_consistent →
  ∀ (h0 : heap) (seed : RNG) (ops : list op) (v : T),
  ∃ h s ps h' s' ps' p y,
    run ops (SkipList_new h0 seed).1 (SkipList_new h0 seed).2 = Some (h, s) ∧
    nodes h s = Ok ps ∧
    insert true h s v = Done tt h' s' ∧
    nodes h' s' = Ok ps' ∧
    find h' s' v = Ok (Some p) ∧ p ∈ ps' ∧
    deref h' (Some p) = Ok y ∧ eqb y v = true ∧
    (find h s v = Ok None →
       size s' = ((size s + 1) `mod` SIZE_MOD)%Z ∧
       (p ∉ ps) ∧ length ps' = S (length ps)) ∧
    (find h s v ≠ Ok None → h' = h ∧ s' = s) ∧
    (∀ q, q ∈ ps → q ∈ ps' ∧ deref h' (Some q) = deref h (Some q)) ∧
    (∀ w, eqb w v = false → (find h' s' w = Ok None ↔ find h s w = Ok None)).
Proof.
  intros Hswo Heq h0 seed ops v.
  destruct (run_inv ops Hswo Heq _ _ _ _ (new_spec h0 seed))
    as (h & s & hd & l & Hrun & HI).
  destruct (insert_ok Node_copy h s hd l v Hswo Heq Node_copy_ctor HI)
    as (h' & s' & l' & Hins & HI' & El' & Hsame & Hnew).
  set (x := mkA (length h) v (random_level (rng s)).1) in *.
  assert (Hel : ∀ a, a ∈ l' ↔ a ∈ l ∨ (present v l = false ∧ a = x))
    by (intros a; rewrite El'; apply ins_elem).
  pose proof (inv_sorted _ _ _ _ HI) as Hs.
  pose proof (inv_sorted _ _ _ _ HI') as Hs'.
  assert (Hpv : present v l' = true).
  { destruct (present v l) eqn:Hp.
    - apply present_elem in Hp as (a & Ha & He).
      eapply (elem_present v l' a); try done. apply Hel. by left.
    - eapply (elem_present v l' x); try done; [by apply Hel; right|].
      simpl. rewrite Heq. by apply equiv_refl. }
  destruct (find_inv h' s' hd l' v Hswo HI') as (it & Hfind & Hit & Hsome).
  destruct it as [p|]; [|by rewrite (proj1 Hit eq_refl) in Hpv].
  destruct (Hsome p eq_refl) as (a & Ha & Hap & Hav & Hda).
  exists h, s, (a_ptr <$> l), h', s', (a_ptr <$> l'), p, (a_val a).
  split; [done|]. split; [by eapply nodes_spec|]. split; [done|].
  split; [by eapply nodes_spec|]. split; [done|].
  split; [rewrite <- Hap; by apply list_elem_of_fmap_2|].
  split; [done|]. split; [done|].
  rewrite (find_None_iff h s hd l v Hswo HI). split; [|split; [|split]].
  - intros Hp. destruct (Hnew Hp) as [Hsz _]. split; [done|]. split.
    + apply Hel in Ha as [Ha|[_ ->]].
      * rewrite (elem_present v l a Hswo Heq Hs Ha Hav) in Hp. done.
      * rewrite <- Hap. simpl. intros Hin.
        pose proof (inv_ptr_lt h s hd l (length h) HI ltac:(by right)). lia.
    + rewrite !length_fmap, El', Hp, length_app. simpl.
      pose proof (f_equal length (below_from v l)) as Hlen.
      rewrite length_app in Hlen. lia.
  - intros Hp. apply Hsame. by destruct (present v l).
  - intros q (b & -> & Hb)%list_elem_of_fmap_1.
    assert (b ∈ l') as Hb' by (apply Hel; by left).
    split; [by apply list_elem_of_fmap_2|].
    by rewrite (inv_deref _ _ _ _ _ HI Hb), (inv_deref _ _ _ _ _ HI' Hb').
  - intros w Hw. rewrite (find_None_iff h' s' hd l' w Hswo HI').
    rewrite (find_None_iff h s hd l w Hswo HI).
    rewrite !absent_iff by done. split.
    + intros Hall y (b & -> & Hb)%list_elem_of_fmap_1.
      apply Hall, list_elem_of_fmap_2, Hel. by left.
    + intros Hall y (b & -> & Hb)%list_elem_of_fmap_1.
      apply Hel in Hb as [Hb|[_ ->]].
      * by apply Hall, list_elem_of_fmap_2.
      * simpl. by rewrite eqb_sym.
Qed.

Lemma erase_step (h : heap) (s : SkipList) (hd : ptr) (l : list anode) (v : T) :
  strict_weak_order → eq_consistent → Inv h s hd l →
  ∃ b h' s' l',
    erase h s v = Done b h' s' ∧ Inv h' s' hd l' ∧
    b = present v l ∧
    (∀ a, a ∈ l' → a ∈ l) ∧
    (∀ a, a ∈ l → a ∈ l' ∨ eqb (a_val a) v = true) ∧
    present v l' = false ∧
    (b = false → h' = h ∧ s' = s ∧ l' = l) ∧
    (b = true → size_ s' = ((size_ s - 1) `mod` SIZE_MOD)%Z ∧
                level_exact s' l' ∧ length l = S (length l')).
Proof.
  intros Hswo Heq HI. destruct (present v l) eqn:Hp.
  - destruct (erase_present h s hd l v Hswo HI Hp)
      as (t & hi' & h' & Efrom & Het & He & HI' & Hex & _).
    assert (El : l = below v l ++ t :: hi') by (by rewrite <- Efrom, below_from).
    assert (Hmem : ∀ a, a ∈ l ↔ a ∈ below v l ∨ a = t ∨ a ∈ hi').
    { intros a. rewrite El at 1. by rewrite elem_of_app, elem_of_cons. }
    eexists true, h', _, (below v l ++ hi'). split; [exact He|].
    split; [exact HI'|]. split; [done|].
    split; [intros a; rewrite Hmem, elem_of_app; tauto|].
    split.
    { intros a. rewrite Hmem, elem_of_app. intros [?|[->|?]]; tauto. }
    split.
    { apply absent_iff; [done|done|apply (inv_sorted _ _ _ _ HI')|].
      intros y (a & -> & Ha)%list_elem_of_fmap_1.
      apply elem_of_app in Ha as [Ha|Ha].
      - apply (proj1 (Forall_forall _ _) (below_lt v l)) in Ha.
        rewrite Heq. unfold equiv. by rewrite Ha.
      - pose proof (inv_sorted _ _ _ _ HI) as Hs. rewrite El in Hs.
        rewrite fmap_app, fmap_cons in Hs.
        apply StronglySorted_app_1_r, StronglySorted_cons in Hs as [Hta _].
        assert (lt (a_val t) (a_val a) = true) as Hlt.
        { apply (proj1 (Forall_forall _ _) Hta). by apply list_elem_of_fmap_2. }
        destruct (eqb (a_val a) v) eqn:Ea; [|done].
        rewrite Heq in Ea, Het.
        assert (equiv (a_val t) (a_val a) = true) as Hta'.
        { apply (equiv_trans _ v _ Hswo); [done|by rewrite equiv_sym]. }
        unfold equiv in Hta'. rewrite Hlt in Hta'. done. }
    split; [done|]. intros _. split; [done|]. split; [done|].
    pose proof (f_equal length El) as Hlen.
    rewrite !length_app in *. simpl in Hlen. lia.
  - exists false, h, s, l. split; [by eapply erase_absent|].
    split; [done|]. split; [done|]. split; [done|].
    split; [intros; by left|]. split; [done|]. split; [done|]. done.
Qed.

(** X8.  After every sequence of calls on a new set, [erase(v)] returns,
    with [true] exactly when [find(v)] gave a node before.  Afterwards
    [find(v)] gives the end iterator and a second [erase(v)] returns
    [false] and changes nothing.  Every node that is in the set afterwards
    was in it before, with its value, and for a value that does not
    compare equal to [v], [find] gives the end iterator exactly when it
    did before. *)
Theorem erase_then_find :
  strict_weak_order → eq_consistent →
  ∀ (h0 : heap) (seed : RNG) (ops : list op) (v : T),
  ∃ h s ps b h' s' ps',
    run ops (SkipList_new h0 seed).1 (SkipList_new h0 seed).2 = Some (h, s) ∧
    nodes h s = Ok ps ∧
    erase h s v = Done b h' s' ∧
    nodes h' s' = Ok ps' ∧
    (b = true ↔ find h s v ≠ Ok None) ∧
    (b = true → length ps = S (length ps')) ∧
    find h' s' v = Ok None ∧
    erase h' s' v = Done false h' s' ∧
    (∀ q, q ∈ ps' → q ∈ ps ∧ deref h' (Some q) = deref h (Some q)) ∧
    (∀ w, eqb w v = false → (find h' s' w = Ok None ↔ find h s w = Ok None)).
Proof.
  intros Hswo Heq h0 seed ops v.
  destruct (run_inv ops Hswo Heq _ _ _ _ (new_spec h0 seed))
    as (h & s & hd & l & Hrun & HI).
  destruct (erase_step h s hd l v Hswo Heq HI)
    as (b & h' & s' & l' & He & HI' & Hb & Hsub & Hsup & Hp' & _ & Htrue).
  exists h, s, (a_ptr <$> l), b, h', s', (a_ptr <$> l').
  split; [done|]. split; [by eapply nodes_spec|]. split; [done|].
  split; [by eapply nodes_spec|].
  split; [rewrite (find_None_iff h s hd l v Hswo HI), Hb; by destruct (present v l)|].
  split; [intros Ht; rewrite !length_fmap; by destruct (Htrue Ht) as (_ & _ & ->)|].
  split; [by apply (find_None_iff h' s' hd l' v Hswo HI')|].
  split; [by eapply erase_absent|]. split.
  - intros q (a & -> & Ha)%list_elem_of_fmap_1.
    split; [by apply list_elem_of_fmap_2, Hsub|].
    by rewrite (inv_deref _ _ _ _ _ HI' Ha), (inv_deref _ _ _ _ _ HI (Hsub _ Ha)).
  - intros w Hw. rewrite (find_None_iff h' s' hd l' w Hswo HI').
    rewrite (find_None_iff h s hd l w Hswo HI).
    rewrite !absent_iff; [|done|done|apply (inv_sorted _ _ _ _ HI)
                          |done|done|apply (inv_sorted _ _ _ _ HI')].
    split.
    + intros Hall y (a & -> & Ha)%list_elem_of_fmap_1.
      destruct (Hsup a Ha) as [Ha'|Hav].
      * by apply Hall, list_elem_of_fmap_2.
      * destruct (eqb (a_val a) w) eqn:Eaw; [|done].
        rewrite Heq in Hav, Eaw, Hw. rewrite <- Hw. symmetry.
        apply (equiv_trans _ (a_val a) _ Hswo); [by rewrite equiv_sym|done].
    + intros Hall y (a & -> & Ha)%list_elem_of_fmap_1.
      by apply Hall, list_elem_of_fmap_2, Hsub.
Qed.

Lemma run_app (ops1 ops2 : list op) (h : heap) (s : SkipList) :
  run (ops1 ++ ops2) h s
  = match run ops1 h s with
    | Some (h', s') => run ops2 h' s'
    | None => None
    end.
Proof.
  revert h s. induction ops1 as [|o ops1 IH]; intros h s; [done|].
  simpl. destruct (step o h s) as [[h1 s1]|]; [apply IH|done].
Qed.

Lemma run_erases (E : list T) :
  strict_weak_order → eq_consistent →
  ∀ (h : heap) (s : SkipList) (hd : ptr) (l : list anode),
  Inv h s hd l → (l = [] → current_level s = 0) →
  ∃ h' s' l',
    run (OpErase <$> E) h s = Some (h', s') ∧ Inv h' s' hd l' ∧
    (∀ a, a ∈ l' → a ∈ l) ∧
    (∀ a e, a ∈ l' → e ∈ E → eqb (a_val a) e = false) ∧
    (l' = [] → current_level s' = 0).
Proof.
  intros Hswo Heq. induction E as [|e E IH]; intros h s hd l HI Hcl.
  - exists h, s, l. split; [done|]. split; [done|]. split; [done|].
    split; [|done]. intros a e _ He. by inversion He.
  - destruct (erase_step h s hd l e Hswo Heq HI)
      as (b & h1 & s1 & l1 & He & HI1 & Hb & Hsub & _ & Hp1 & Hfalse & Htrue).
    destruct (IH h1 s1 hd l1 HI1) as (h' & s' & l' & Hrun & HI' & Hsub' & Hno & Hcl').
    { destruct b.
      - destruct (Htrue eq_refl) as (_ & Hex & _). intros ->. by rewrite Hex.
      - destruct (Hfalse eq_refl) as (_ & -> & ->). done. }
    exists h', s', l'. rewrite fmap_cons. cbn [run step]. rewrite He.
    split; [done|]. split; [done|]. split; [by intros a ?%Hsub'%Hsub|].
    split; [|done]. intros a e' Ha [->|He']%elem_of_cons; [|by eapply Hno].
    pose proof (proj1 (absent_iff e l1 Hswo Heq (inv_sorted _ _ _ _ HI1)) Hp1)
      as Hall.
    by apply Hall, list_elem_of_fmap_2, Hsub'.
Qed.

(** X9.  Inserting the values of [S] into a new set and then erasing the
    values of [E], in any order and with any repetitions, where every
    value of [S] compares equal to one of [E], leaves an empty set:
    the iteration yields nothing, [begin()] is the end iterator, and
    [size()] and [current_level] are 0. *)
Theorem insert_erase_round_trip :
  strict_weak_order → eq_consistent →
  ∀ (h0 : heap) (seed : RNG) (S E : list T),
  forallb (λ x, existsb (eqb x) E) S = true →
  ∃ h s,
    run ((OpInsert true <$> S) ++ (OpErase <$> E))
      (SkipList_new h0 seed).1 (SkipList_new h0 seed).2 = Some (h, s) ∧
    to_list h s = Ok [] ∧ begin_ h s = Ok (end_ s) ∧
    size s = 0%Z ∧ empty s = true ∧ current_level s = 0.
Proof.
  intros Hswo Heq h0 seed S E Hcover.
  destruct (run_inserts S Hswo Heq _ _ _ _ (new_spec h0 seed))
    as (h1 & s1 & l1 & Hrun1 & HI1 & Hsub1 & _ & Hall1).
  destruct (run_erases E Hswo Heq h1 s1 _ l1 HI1)
    as (h & s & l & Hrun & HI & Hsub & Hno & Hcl).
  { intros ->. destruct S as [|x S]; [by injection Hrun1 as <- <-|].
    destruct (Hall1 x ltac:(by left)) as (y & Hy & _). by inversion Hy. }
  assert (l = []) as ->.
  { destruct l as [|a l]; [done|]. exfalso.
    assert (a_val a ∈ S) as Ha.
    { destruct (Hsub1 (a_val a)) as [Hn|]; [|by inversion Hn|done].
      apply list_elem_of_fmap_2, Hsub. by left. }
    rewrite forallb_forall in Hcover.
    apply list_elem_of_In, Hcover, existsb_exists in Ha as (e & He & Hae).
    apply list_elem_of_In in He. rewrite (Hno a e) in Hae; [done|by left|done]. }
  exists h, s. rewrite run_app, Hrun1. split; [done|].
  split; [by rewrite (to_list_spec _ _ _ _ HI)|].
  split; [by rewrite (begin_spec _ _ _ _ HI)|].
  assert (size s = 0%Z) as Hsz by (unfold size; by rewrite (inv_size _ _ _ _ HI)).
  split; [done|]. split; [|by apply Hcl].
  unfold empty. fold (size s). by rewrite Hsz.
Qed.

(** ** Two sets in one store *)

Lemma heights_max_app (A B : list anode) :
  foldr Nat.max 0 (a_h <$> (A ++ B))
  = Nat.max (foldr Nat.max 0 (a_h <$> A)) (foldr Nat.max 0 (a_h <$> B)).
Proof.
  induction A as [|a A IH]; [done|].
  rewrite <- app_comm_cons, !fmap_cons. cbn [foldr]. rewrite IH. lia.
Qed.

Lemma insert_full (mk : T → nat → Node) (h : heap) (s : SkipList) (hd : ptr)
    (l : list anode) (v : T) :
  strict_weak_order → eq_consistent → is_ctor mk → Inv h s hd l →
  ∃ h' s' l',
    insert_with mk true h s v = Done tt h' s' ∧ Inv h' s' hd l' ∧
    l' = (if present v l then l
          else below v l ++ mkA (length h) v (random_level (rng s)).1
                 :: from v l) ∧
    (∀ p, p ∉ hd :: (a_ptr <$> l) → p < length h → h' !! p = h !! p) ∧
    (level_exact s l → level_exact s' l').
Proof.
  intros Hswo Heq Hmk HI. destruct (present v l) eqn:Hp.
  - exists h, s, l. split; [by eapply insert_present|].
    split; [done|]. split; [done|]. split; [done|]. done.
  - destruct (insert_absent mk h s hd l v Hswo Heq Hmk HI Hp)
      as (h' & Hins & HI' & _ & Hfr).
    eexists h', _, _. split; [exact Hins|]. split; [exact HI'|].
    split; [done|]. split; [exact Hfr|].
    unfold level_exact. cbn [current_level]. intros ->.
    rewrite <- (below_from v l) at 1.
    rewrite !heights_max_app, fmap_cons. cbn [foldr a_h]. lia.
Qed.

Lemma copy_loop_full (ok : nat → bool) (h0 : heap) (hd_t : ptr)
    (lo : list anode) :
  strict_weak_order → eq_consistent →
  StronglySorted ltP (a_val <$> lo) →
  ∀ (todo done : list anode) (k fuel : nat) (h : heap) (this : SkipList)
    (lt_ : list anode),
  lo = done ++ todo → chain h0 todo [] → length todo < fuel →
  (∀ p, p < length h0 → h !! p = h0 !! p) →
  Inv h this hd_t lt_ → a_val <$> lt_ = a_val <$> done →
  Forall (λ p, length h0 ≤ p) (hd_t :: (a_ptr <$> lt_)) →
  level_exact this lt_ →
  ∃ h' this',
    ((∃ l', copy_loop ok k fuel h this (next_at 0 todo) = Done tt h' this' ∧
            Inv h' this' hd_t l' ∧ a_val <$> l' = a_val <$> lo ∧
            Forall (λ p, length h0 ≤ p) (hd_t :: (a_ptr <$> l')) ∧
            level_exact this' l') ∨
     (copy_loop ok k fuel h this (next_at 0 todo) = Raised bad_alloc h' this' ∧
      ∃ j, ok j = false)) ∧
    (∀ p, p < length h0 → h' !! p = h0 !! p).
Proof.
  intros Hswo Heq Hs.
  induction todo as [|a r IH];
    intros done k fuel h this lt_ Hlo Hch Hf Hold HI Hvals Hnew Hex.
  - destruct fuel as [|f]; [simpl in Hf; lia|].
    exists h, this. split; [|done]. left. exists lt_. split; [done|].
    split; [done|]. split; [by rewrite Hvals, Hlo, app_nil_r|done].
  - destruct fuel as [|f]; [simpl in Hf; lia|].
    apply chain_cons in Hch as [Ha Hr]. rewrite app_nil_r in Ha.
    pose proof (node_at_lt _ _ _ _ _ Ha) as Halt.
    rewrite next_at_zero. cbn [List.head fmap option_fmap option_map copy_loop].
    unfold iter_ne, iter_eq. rewrite bool_decide_false by done. cbn [negb].
    assert (Hlda : ∀ h1, (∀ p, p < length h0 → h1 !! p = h0 !! p) →
              deref h1 (Some (a_ptr a)) = Ok (a_val a) ∧
              incr h1 (Some (a_ptr a)) = Ok (next_at 0 r)).
    { intros h1 Hh1. destruct Ha as (nd & Hnd & Hv & _ & Hk).
      rewrite <- (Hh1 _ Halt) in Hnd. split.
      - simpl. by rewrite (load_Some _ _ _ Hnd), <- Hv.
      - simpl. eapply fwd_Some; [exact Hnd|]. apply Hk. lia. }
    destruct (Hlda h Hold) as [-> _].
    assert (Hlow : Forall (λ b, lt (a_val b) (a_val a) = true) lt_).
    { rewrite Hlo, fmap_app, fmap_cons in Hs.
      apply StronglySorted_app in Hs as (Hc & _ & _).
      apply Forall_forall. intros b Hb. apply Hc; [|by left].
      rewrite <- Hvals. by apply list_elem_of_fmap_2. }
    destruct (below_all _ _ Hlow) as [Hbelow Hfrom].
    assert (Hp : present (a_val a) lt_ = false)
      by (unfold present; by rewrite Hfrom).
    assert (Hh : length h0 < length h).
    { inversion Hnew as [|? ? Hhd _]; subst.
      pose proof (inv_ptr_lt h this hd_t lt_ hd_t HI ltac:(by left)). lia. }
    destruct (ok k) eqn:Hok.
    + destruct (insert_full Node_copy h this hd_t lt_ (a_val a) Hswo Heq
                  Node_copy_ctor HI)
        as (h1 & this1 & l1 & Hins & HI1 & El1 & Hfr & Hex1).
      rewrite Hp, Hbelow, Hfrom in El1.
      unfold insert. rewrite Hins.
      assert (Hold1 : ∀ p, p < length h0 → h1 !! p = h0 !! p).
      { intros p Hpl. rewrite Hfr; [by apply Hold| |lia].
        intros Hin. apply (proj1 (Forall_forall _ _) Hnew) in Hin. lia. }
      destruct (Hlda h1 Hold1) as [_ ->].
      destruct (IH (done ++ [a]) (S k) f h1 this1 l1) as (h' & this' & Hres & Hold');
        try done.
      * by rewrite <- (assoc_L (++)).
      * simpl in Hf. lia.
      * rewrite El1, !fmap_app, Hvals. done.
      * rewrite El1, fmap_app. rewrite app_comm_cons. apply Forall_app.
        split; [done|]. constructor; [simpl; lia|constructor].
      * by apply Hex1.
      * by exists h', this'.
    + unfold insert.
      rewrite (insert_absent_fail Node_copy h this hd_t lt_ (a_val a) Hswo HI Hp).
      eexists h, _. split; [|done]. right. split; [done|]. by exists k.
Qed.

Lemma copy_construct_full (ok : nat → bool) (h : heap) (other : SkipList)
    (hd : ptr) (l : list anode) (seed : RNG) :
  strict_weak_order → eq_consistent → Inv h other hd l →
  ∃ h' c,
    ((∃ l', copy_construct ok h other seed = Done tt h' c ∧
            Inv h' c (length h) l' ∧ a_val <$> l' = a_val <$> l ∧
            Forall (λ p, length h ≤ p) (length h :: (a_ptr <$> l')) ∧
            level_exact c l') ∨
     (copy_construct ok h other seed = Raised bad_alloc h' c ∧
      ∃ j, ok j = false)) ∧
    Inv h' other hd l ∧
    (∀ p, p < length h → h' !! p = h !! p).
Proof.
  intros Hswo Heq HI. unfold copy_construct. destruct (ok 0) eqn:Hok.
  - pose proof (new_spec h seed) as Hnew.
    assert (Hold : ∀ p, p < length h → (SkipList_new h seed).1 !! p = h !! p).
    { intros p Hp. by apply lookup_app_l. }
    assert (HI1 : Inv (SkipList_new h seed).1 other hd l).
    { eapply inv_frame; [exact HI|]. intros p Hp. apply Hold.
      by eapply inv_ptr_lt. }
    rewrite (begin_spec _ _ _ _ HI1).
    destruct (copy_loop_full ok h (length h) l Hswo Heq (inv_sorted _ _ _ _ HI)
                l [] 1 (S (length h)) (SkipList_new h seed).1
                (SkipList_new h seed).2 [])
      as (h' & c & Hres & Hold'); try done.
    + by eapply inv_chain_nodes.
    + pose proof (inv_length_le _ _ _ _ HI). lia.
    + constructor; [simpl; lia|constructor].
    + exists h', c. split; [done|]. split; [|done].
      eapply inv_frame; [exact HI|].
      intros p Hp. apply Hold'. by eapply inv_ptr_lt.
  - eexists h, _. split; [|done]. right. split; [done|]. by exists 0.
Qed.

Lemma step_frame (o : op) (h : heap) (s : SkipList) (hd : ptr)
    (l : list anode) (N : nat) :
  strict_weak_order → eq_consistent → Inv h s hd l →
  Forall (λ p, N ≤ p) (hd :: (a_ptr <$> l)) →
  ∃ h' s' hd' l',
    step o h s = Some (h', s') ∧ Inv h' s' hd' l' ∧
    Forall (λ p, N ≤ p) (hd' :: (a_ptr <$> l')) ∧
    (∀ p, p < N → h' !! p = h !! p) ∧
    (allocs_ok o → level_exact s l → level_exact s' l').
Proof.
  intros Hswo Heq HI Hab.
  assert (HN : N < length h).
  { inversion Hab as [|? ? Hhd _]; subst.
    pose proof (inv_ptr_lt h s hd l hd HI ltac:(by left)). lia. }
  assert (Hout : ∀ p, p < N → p ∉ hd :: (a_ptr <$> l)).
  { intros p Hp Hin. apply (proj1 (Forall_forall _ _) Hab) in Hin. lia. }
  assert (Hins : ∀ mk ok v, is_ctor mk →
    ∃ h' s' l',
      (insert_with mk ok h s v = Done tt h' s' ∨
       insert_with mk ok h s v = Raised bad_alloc h' s') ∧
      Inv h' s' hd l' ∧ Forall (λ p, N ≤ p) (hd :: (a_ptr <$> l')) ∧
      (∀ p, p < N → h' !! p = h !! p) ∧
      (ok = true → level_exact s l → level_exact s' l')).
  { intros mk ok v Hmk. destruct ok.
    - destruct (insert_full mk h s hd l v Hswo Heq Hmk HI)
        as (h' & s' & l' & Hi & HI' & El' & Hfr & Hex).
      exists h', s', l'. split; [by left|]. split; [done|]. split; [|split].
      + rewrite El'. destruct (present v l); [done|].
        rewrite <- (below_from v l), !fmap_app in Hab.
        rewrite fmap_app, fmap_cons. rewrite !app_comm_cons in *.
        apply Forall_app in Hab as [H1 H2]. apply Forall_app. split; [done|].
        constructor; [simpl; lia|done].
      + intros p Hp. apply Hfr; [by apply Hout|lia].
      + by intros _.
    - destruct (present v l) eqn:Hp.
      + exists h, s, l. split; [left; by eapply insert_present|].
        split; [done|]. split; [done|]. split; [done|]. by intros [=].
      + eexists h, _, l. split; [right; by eapply insert_absent_fail|].
        split; [|split; [done|split; [done|by intros [=]]]].
        apply inv_raise_level; [done|].
        pose proof (inv_level _ _ _ _ HI).
        pose proof (random_level_le (rng s)). lia. }
  destruct o as [ok v|ok v|v|ok| |ok seed|ok this seed]; cbn [step allocs_ok].
  - destruct (Hins Node_copy ok v Node_copy_ctor)
      as (h' & s' & l' & [E|E] & ? & ? & ? & ?); unfold insert; rewrite E;
      by eexists _, _, _, _.
  - destruct (Hins Node_move ok v Node_move_ctor)
      as (h' & s' & l' & [E|E] & ? & ? & ? & ?); unfold insert_rv; rewrite E;
      by eexists _, _, _, _.
  - destruct (present v l) eqn:Hp.
    + destruct (erase_present h s hd l v Hswo HI Hp)
        as (t & hi' & h' & Efrom & _ & He & HI' & Hex & _ & Hfr).
      rewrite He. eexists _, _, _, _. split; [done|]. split; [exact HI'|].
      split; [|split; [|done]].
      * rewrite <- (below_from v l), Efrom, !fmap_app, fmap_cons in Hab.
        rewrite fmap_app. rewrite !app_comm_cons in *.
        apply Forall_app in Hab as [H1 H2]. apply Forall_app. split; [done|].
        by inversion H2.
      * intros p Hp'. apply Hfr. intros Hin. apply (Hout p Hp').
        rewrite <- (below_from v l), fmap_app.
        rewrite elem_of_cons in Hin. rewrite elem_of_cons, elem_of_app. tauto.
    + rewrite (erase_absent h s hd l v Hswo HI Hp). by eexists _, _, _, _.
  - destruct ok; cbn [clear alloc fst snd].
    + eexists _, _, _, _. split; [done|]. split; [apply inv_fresh|].
      split; [constructor; [lia|constructor]|].
      split; [intros p Hp; apply lookup_app_l; lia|]. by intros _ _.
    + by eexists _, _, _, _.
  - rewrite move_construct_fst. by eexists _, _, _, _.
  - destruct (copy_construct_full ok h s hd l seed Hswo Heq HI)
      as (h' & c & [(l' & E & HI' & _ & Hab' & Hex)|[E (j & Hj)]] & HIs & Hfr);
      rewrite E.
    + eexists _, _, _, _. split; [done|]. split; [exact HI'|].
      split; [eapply Forall_impl; [exact Hab'|]; simpl; intros; lia|].
      split; [intros p Hp; apply Hfr; lia|done].
    + eexists _, _, _, _. split; [done|]. split; [exact HIs|].
      split; [done|]. split; [intros p Hp; apply Hfr; lia|].
      intros Hall. by rewrite Hall in Hj.
  - unfold copy_assign.
    destruct (copy_construct_full ok h s hd l seed Hswo Heq HI)
      as (h' & c & [(l' & E & HI' & _ & Hab' & Hex)|[E (j & Hj)]] & HIs & Hfr);
      rewrite E; rewrite ?swap_fst.
    + eexists _, _, _, _. split; [done|]. split; [exact HI'|].
      split; [eapply Forall_impl; [exact Hab'|]; simpl; intros; lia|].
      split; [intros p Hp; apply Hfr; lia|done].
    + eexists _, _, _, _. split; [done|]. split; [exact HIs|].
      split; [done|]. split; [intros p Hp; apply Hfr; lia|].
      intros Hall. by rewrite Hall in Hj.
Qed.

Lemma run_frame (ops : list op) (N : nat) :
  strict_weak_order → eq_consistent →
  ∀ (h : heap) (s : SkipList) (hd : ptr) (l : list anode),
  Inv h s hd l → Forall (λ p, N ≤ p) (hd :: (a_ptr <$> l)) →
  ∃ h' s' hd' l',
    run ops h s = Some (h', s') ∧ Inv h' s' hd' l' ∧
    Forall (λ p, N ≤ p) (hd' :: (a_ptr <$> l')) ∧
    (∀ p, p < N → h' !! p = h !! p) ∧
    (Forall allocs_ok ops → level_exact s l → level_exact s' l').
Proof.
  intros Hswo Heq. induction ops as [|o ops IH]; intros h s hd l HI Hab.
  - exists h, s, hd, l. split; [done|]. split; [done|]. split; [done|].
    split; [done|]. by intros _.
  - destruct (step_frame o h s hd l N Hswo Heq HI Hab)
      as (h1 & s1 & hd1 & l1 & E & HI1 & Hab1 & Hfr1 & Hex1).
    destruct (IH h1 s1 hd1 l1 HI1 Hab1)
      as (h' & s' & hd' & l' & Hrun & HI' & Hab' & Hfr' & Hex').
    exists h', s', hd', l'. cbn [run]. rewrite E.
    split; [done|]. split; [done|]. split; [done|]. split.
    + intros p Hp. by rewrite Hfr', Hfr1.
    + intros Hall Hex. inversion Hall; subst. by apply Hex', Hex1.
Qed.

(** X10.  The copy constructor, when every allocation succeeds, builds a
    set that iterates over the same values as the original and reports
    the same [size()], on nodes of its own.  The original iterates as
    before, and keeps doing so, on the same nodes, whatever is then
    called on the copy. *)
Theorem copy_is_independent :
  strict_weak_order → eq_consistent →
  ∀ (h0 : heap) (seed : RNG) (ops : list op) (ok : nat → bool) (seed2 : RNG)
    (ops2 : list op),
  (∀ k, ok k = true) →
  ∃ h a vs psa h1 b psb h2 b2,
    run ops (SkipList_new h0 seed).1 (SkipList_new h0 seed).2 = Some (h, a) ∧
    to_list h a = Ok vs ∧ nodes h a = Ok psa ∧
    copy_construct ok h a seed2 = Done tt h1 b ∧
    to_list h1 b = Ok vs ∧ size b = size a ∧
    nodes h1 b = Ok psb ∧ (∀ p, p ∈ psa → p ∉ psb) ∧
    to_list h1 a = Ok vs ∧
    run ops2 h1 b = Some (h2, b2) ∧
    to_list h2 a = Ok vs ∧ nodes h2 a = Ok psa.
Proof.
  intros Hswo Heq h0 seed ops ok seed2 ops2 Hok.
  destruct (run_inv ops Hswo Heq _ _ _ _ (new_spec h0 seed))
    as (h & a & hd & l & Hrun & HI).
  destruct (copy_construct_full ok h a hd l seed2 Hswo Heq HI)
    as (h1 & b & [(lb & E & HIb & Hvals & Hab & _)|[_ (j & Hj)]] & HIa1 & Hfr1);
    [|by rewrite Hok in Hj].
  destruct (run_frame ops2 (length h) Hswo Heq h1 b _ lb HIb Hab)
    as (h2 & b2 & hd2 & l2 & Hrun2 & _ & _ & Hfr2 & _).
  assert (HIa2 : Inv h2 a hd l).
  { eapply inv_frame; [exact HIa1|]. intros p Hp. apply Hfr2.
    exact (inv_ptr_lt h a hd l p HI Hp). }
  exists h, a, (a_val <$> l), (a_ptr <$> l), h1, b, (a_ptr <$> lb), h2, b2.
  split; [done|]. split; [by eapply to_list_spec|].
  split; [by eapply nodes_spec|]. split; [done|].
  split; [rewrite <- Hvals; by eapply to_list_spec|]. split.
  { unfold size. rewrite (inv_size _ _ _ _ HIb), (inv_size _ _ _ _ HI).
    by rewrite <- (length_fmap a_val lb), Hvals, length_fmap. }
  split; [by eapply nodes_spec|]. split.
  { intros p Hp Hpb.
    pose proof (inv_ptr_lt h a hd l p HI ltac:(by right)).
    apply Forall_cons in Hab as [_ Hab].
    apply (proj1 (Forall_forall _ _) Hab) in Hpb. lia. }
  split; [by eapply to_list_spec|]. split; [done|].
  split; [by eapply to_list_spec|by eapply nodes_spec].
Qed.

(** X11.  Two sets in one store, the second created after the first and
    then used in any way, do not disturb each other, and copy assignment
    of the first to the second either succeeds, and then the second
    iterates over the values of the first, or throws [bad_alloc] because
    an allocation failed, and then the second is the object it was and
    iterates as before.  The first iterates as before in both cases. *)
Theorem copy_assign_strong_guarantee :
  strict_weak_order → eq_consistent →
  ∀ (h0 : heap) (seed : RNG) (ops : list op) (seed2 : RNG) (ops2 : list op)
    (ok : nat → bool) (seed3 : RNG),
  ∃ h a vs h2 this vt h3,
    run ops (SkipList_new h0 seed).1 (SkipList_new h0 seed).2 = Some (h, a) ∧
    to_list h a = Ok vs ∧
    run ops2 (SkipList_new h seed2).1 (SkipList_new h seed2).2
      = Some (h2, this) ∧
    to_list h2 this = Ok vt ∧ to_list h2 a = Ok vs ∧
    ((∃ c, copy_assign ok h2 this a seed3 = Done tt h3 c ∧
           to_list h3 c = Ok vs ∧ size c = size a) ∨
     (copy_assign ok h2 this a seed3 = Raised bad_alloc h3 this ∧
      to_list h3 this = Ok vt ∧ ∃ k, ok k = false)) ∧
    to_list h3 a = Ok vs.
Proof.
  intros Hswo Heq h0 seed ops seed2 ops2 ok seed3.
  destruct (run_inv ops Hswo Heq _ _ _ _ (new_spec h0 seed))
    as (h & a & hd & l & Hrun & HI).
  destruct (run_frame ops2 (length h) Hswo Heq _ _ _ _ (new_spec h seed2))
    as (h2 & this & hdt & lt_ & Hrun2 & HIt & _ & Hfr2 & _).
  { constructor; [lia|constructor]. }
  assert (HIa2 : Inv h2 a hd l).
  { eapply inv_frame; [exact HI|]. intros p Hp.
    pose proof (inv_ptr_lt h a hd l p HI Hp).
    rewrite Hfr2 by done. by apply lookup_app_l. }
  destruct (copy_construct_full ok h2 a hd l seed3 Hswo Heq HIa2)
    as (h3 & c & Hres & HIa3 & Hfr3).
  assert (HIt3 : Inv h3 this hdt lt_).
  { eapply inv_frame; [exact HIt|]. intros p Hp. apply Hfr3.
    exact (inv_ptr_lt h2 this hdt lt_ p HIt Hp). }
  exists h, a, (a_val <$> l), h2, this, (a_val <$> lt_), h3.
  split; [done|]. split; [by eapply to_list_spec|]. split; [done|].
  split; [by eapply to_list_spec|]. split; [by eapply to_list_spec|].
  split; [|by eapply to_list_spec].
  unfold copy_assign.
  destruct Hres as [(lc & E & HIc & Hvals & _)|[E Hj]]; rewrite E.
  - left. exists c. rewrite swap_fst. split; [done|].
    split; [rewrite <- Hvals; by eapply to_list_spec|].
    unfold size. rewrite (inv_size _ _ _ _ HIc), (inv_size _ _ _ _ HI).
    by rewrite <- (length_fmap a_val lc), Hvals, length_fmap.
  - right. split; [done|]. split; [by eapply to_list_spec|done].
Qed.

(** ** The levels *)

Lemma heights_spec (h : heap) (s : SkipList) (hd : ptr) (l : list anode) :
  Inv h s hd l → heights h s = Ok (a_h <$> l).
Proof.
  intros HI. unfold heights. rewrite (begin_spec _ _ _ _ HI). cbn [obind].
  apply iterate_spec.
  - intros a Ha. destruct (chain_elem _ _ _ _ (inv_chain_nodes _ _ _ _ HI) Ha)
      as (nd & Hnd & _ & Hlen).
    simpl. rewrite (load_Some _ _ _ Hnd). simpl. f_equal. lia.
  - by eapply inv_chain_nodes.
  - pose proof (inv_length_le _ _ _ _ HI). lia.
Qed.

(** X12.  After every sequence of calls on a new set during which no
    allocation fails, [current_level] is the greatest height of a node
    of the set, and 0 when the set is empty. *)
Theorem level_is_max_height :
  strict_weak_order → eq_consistent →
  ∀ (h0 : heap) (seed : RNG) (ops : list op),
  Forall allocs_ok ops →
  ∃ h s hs,
    run ops (SkipList_new h0 seed).1 (SkipList_new h0 seed).2 = Some (h, s) ∧
    heights h s = Ok hs ∧
    current_level s = foldr Nat.max 0 hs.
Proof.
  intros Hswo Heq h0 seed ops Hall.
  destruct (run_frame ops 0 Hswo Heq _ _ _ _ (new_spec h0 seed))
    as (h & s & hd & l & Hrun & HI & _ & _ & Hex).
  { apply Forall_forall. intros. lia. }
  exists h, s, (a_h <$> l). split; [done|].
  split; [by eapply heights_spec|]. by apply Hex.
Qed.

Lemma level_from_spec (h : heap) (k : nat) (l : list anode) :
  chain h l [] →
  ∀ fuel, length l < fuel →
  level_from fuel h k (next_at k l)
  = Ok (a_ptr <$> filter (λ a, k ≤ a_h a) l).
Proof.
  induction l as [|a r IH]; intros Hch fuel Hf.
  - destruct fuel; [simpl in Hf; lia|]. done.
  - apply chain_cons in Hch as [Ha Hr]. rewrite app_nil_r in Ha.
    cbn [next_at]. destruct (decide (k ≤ a_h a)) as [Hk|Hk].
    + rewrite filter_cons_True by done.
      destruct fuel as [|fuel]; [simpl in Hf; lia|]. cbn [level_from].
      rewrite (node_at_fwd _ _ _ _ _ k Ha Hk). cbn [obind].
      rewrite IH; [done|done|simpl in Hf; lia].
    + rewrite filter_cons_False by done. apply IH; [done|simpl in Hf; lia].
Qed.

Lemma nodup_fmap_inj {A B : Type} (f : A → B) (l : list A) (a b : A) :
  NoDup (f <$> l) → a ∈ l → b ∈ l → f a = f b → a = b.
Proof.
  induction l as [|c l IH]; [by inversion 2|].
  rewrite fmap_cons, NoDup_cons. intros [Hc Hnd].
  intros [->|Ha]%elem_of_cons [->|Hb]%elem_of_cons E; try done.
  - destruct Hc. rewrite E. by apply list_elem_of_fmap_2.
  - destruct Hc. rewrite <- E. by apply list_elem_of_fmap_2.
  - by apply IH.
Qed.

(** X13.  After every sequence of calls on a new set, the walk along the
    links of a level [k ≤ MAX_LEVEL] from the sentinel ends; the nodes
    it reaches are, in the same order, those nodes of the iteration that
    have a link of level [k].  Level 0 is the whole iteration, and the
    levels above [current_level] are empty. *)
Theorem levels_are_sublists :
  strict_weak_order → eq_consistent →
  ∀ (h0 : heap) (seed : RNG) (ops : list op) (k : nat),
  k ≤ MAX_LEVEL →
  ∃ h s ps psk,
    run ops (SkipList_new h0 seed).1 (SkipList_new h0 seed).2 = Some (h, s) ∧
    nodes h s = Ok ps ∧
    level_nodes h s k = Ok psk ∧
    psk `sublist_of` ps ∧
    (∀ p, p ∈ ps →
       (p ∈ psk ↔ ∃ nd, h !! p = Some nd ∧ k < length (forward nd))) ∧
    (k = 0 → psk = ps) ∧
    (current_level s < k → psk = []).
Proof.
  intros Hswo Heq h0 seed ops k Hk.
  destruct (run_inv ops Hswo Heq _ _ _ _ (new_spec h0 seed))
    as (h & s & hd & l & Hrun & HI).
  exists h, s, (a_ptr <$> l), (a_ptr <$> filter (λ a, k ≤ a_h a) l).
  split; [done|]. split; [by eapply nodes_spec|]. split.
  { unfold level_nodes. rewrite (inv_head _ _ _ _ HI).
    destruct (inv_chain _ _ _ _ HI) as [Hhd Hl]. rewrite app_nil_r in Hhd.
    pose proof (node_at_fwd _ _ _ _ _ k Hhd Hk) as Hf.
    change (a_ptr (sentinel hd)) with hd in Hf. rewrite Hf. cbn [obind].
    apply level_from_spec; [done|].
    pose proof (inv_length_le _ _ _ _ HI). lia. }
  split; [apply fmap_sublist, sublist_filter|].
  pose proof (inv_nodup _ _ _ _ HI) as Hnd. apply NoDup_cons in Hnd as [_ Hnd].
  split; [|split].
  - intros p (a & -> & Ha)%list_elem_of_fmap_1.
    destruct (chain_elem _ _ _ _ (inv_chain_nodes _ _ _ _ HI) Ha)
      as (nd & Hnd' & _ & Hlen).
    split.
    + intros (b & Hab & Hb)%list_elem_of_fmap_1.
      apply list_elem_of_filter in Hb as [Hkb Hb].
      assert (a = b) as <- by (by eapply (nodup_fmap_inj a_ptr l)).
      exists nd. split; [done|]. lia.
    + intros (nd' & Hnd'' & Hlt). rewrite Hnd' in Hnd''. injection Hnd'' as <-.
      apply list_elem_of_fmap_2, list_elem_of_filter. split; [lia|done].
  - intros ->. f_equal. clear. induction l as [|a l IH]; [done|].
    rewrite filter_cons_True by lia. by rewrite IH.
  - intros Hcl. pose proof (inv_heights _ _ _ _ HI) as Hht.
    replace (filter (λ a, k ≤ a_h a) l) with (@nil anode); [done|].
    clear -Hht Hcl. induction Hht as [|a l Ha _ IH]; [done|].
    rewrite filter_cons_False by lia. done.
Qed.

(** ** Iterators *)

Lemma from_filter (v : T) (l : list anode) :
  strict_weak_order → StronglySorted ltP (a_val <$> l) →
  a_val <$> from v l = filter (λ x, lt x v = false) (a_val <$> l).
Proof.
  intros Hswo. induction l as [|a r IH]; [done|].
  rewrite fmap_cons. intros [Ha Hr]%StronglySorted_cons.
  cbn [from]. destruct (lt (a_val a) v) eqn:E.
  - rewrite filter_cons_False by congruence. by apply IH.
  - rewrite filter_cons_True by done. rewrite fmap_cons. f_equal.
    clear IH Hr. induction Ha as [|y ys Hy Hys IH]; [done|].
    rewrite filter_cons_True; [by f_equal|].
    destruct (lt y v) eqn:Ey; [|done].
    by rewrite (lt_trans Hswo _ _ _ Hy Ey) in E.
Qed.

(** X14.  After every sequence of calls on a new set, the loop
    [for (it = find(v); it != end(); ++it)] ends and visits, in ascending
    order, the values of the set that are not less than [v] when a value
    compares equal to [v], and nothing otherwise.  [it++] on the iterator
    that [find] gave returns that iterator and moves on to the rest of
    that loop. *)
Theorem iteration_from_find :
  strict_weak_order → eq_consistent →
  ∀ (h0 : heap) (seed : RNG) (ops : list op) (v : T),
  ∃ h s vs it rest,
    run ops (SkipList_new h0 seed).1 (SkipList_new h0 seed).2 = Some (h, s) ∧
    to_list h s = Ok vs ∧
    find h s v = Ok it ∧
    iterate deref (S (length h)) h it = Ok rest ∧
    (it = end_ s → rest = []) ∧
    (it ≠ end_ s → rest = filter (λ x, lt x v = false) vs) ∧
    ∃ it', post_incr h it = Ok (it, it') ∧
           iterate deref (S (length h)) h it' = Ok (tail rest).
Proof.
  intros Hswo Heq h0 seed ops v.
  destruct (run_inv ops Hswo Heq _ _ _ _ (new_spec h0 seed))
    as (h & s & hd & l & Hrun & HI).
  pose proof (find_spec h s hd l v Hswo HI) as Hfind.
  pose proof (inv_chain_nodes _ _ _ _ HI) as Hch.
  pose proof (inv_length_le _ _ _ _ HI) as Hlen.
  pose proof (f_equal length (below_from v l)) as Hbf.
  rewrite length_app in Hbf.
  rewrite <- (below_from v l) in Hch. apply chain_app in Hch as [_ Hch].
  assert (Hin : ∀ a, a ∈ from v l → a ∈ l).
  { intros a Ha. rewrite <- (below_from v l). apply elem_of_app. by right. }
  unfold present in Hfind. destruct (from v l) as [|b r] eqn:Ef.
  - exists h, s, (a_val <$> l), None, []. split; [done|].
    split; [by eapply to_list_spec|]. split; [done|]. split; [done|].
    split; [done|]. split; [done|]. by exists None.
  - destruct (eqb (a_val b) v) eqn:Eb.
    + assert (Hit : next_at 0 (b :: r) = Some (a_ptr b)).
      { cbn [next_at]. rewrite decide_True by lia. done. }
      rewrite Hit in Hfind.
      exists h, s, (a_val <$> l), (Some (a_ptr b)), (a_val <$> b :: r).
      split; [done|]. split; [by eapply to_list_spec|]. split; [done|].
      split.
      { rewrite <- Hit. apply iterate_spec; [|done|simpl in *; lia].
        intros a Ha. eapply inv_deref; [exact HI|]. by apply Hin. }
      split; [done|]. split.
      { intros _. rewrite <- Ef. apply from_filter; [done|].
        apply (inv_sorted _ _ _ _ HI). }
      apply chain_cons in Hch as [Hb Hr]. rewrite app_nil_r in Hb.
      exists (next_at 0 r). split.
      { unfold post_incr, incr.
        by rewrite (node_at_fwd _ _ _ _ _ 0 Hb ltac:(lia)). }
      rewrite fmap_cons. cbn [tail].
      apply iterate_spec; [|done|simpl in *; lia].
      intros a Ha. eapply inv_deref; [exact HI|]. apply Hin. by right.
    + exists h, s, (a_val <$> l), None, []. split; [done|].
      split; [by eapply to_list_spec|]. split; [done|]. split; [done|].
      split; [done|]. split; [done|]. by exists None.
Qed.

(** X15.  After every sequence of calls on a new set, an [insert] with
    memory available of a value that [find] does not find draws one
    height from [random_level]: the node that [find] gives afterwards has
    that many links and one more, the generator is left in the state in
    which [random_level] left it, and [current_level] is the greater of
    its old value and the height drawn.  The links of the other nodes
    keep their number. *)
Theorem insert_draws_height :
  strict_weak_order → eq_consistent →
  ∀ (h0 : heap) (seed : RNG) (ops : list op) (v : T),
  ∃ h s ps,
    run ops (SkipList_new h0 seed).1 (SkipList_new h0 seed).2 = Some (h, s) ∧
    nodes h s = Ok ps ∧
    (find h s v = Ok None →
     ∃ h' s' p nd,
       insert true h s v = Done tt h' s' ∧
       find h' s' v = Ok (Some p) ∧ h' !! p = Some nd ∧
       length (forward nd) = (random_level (rng s)).1 + 1 ∧
       rng s' = (random_level (rng s)).2 ∧
       current_level s' = Nat.max (current_level s) (random_level (rng s)).1 ∧
       ∀ q ndq, q ∈ ps → h !! q = Some ndq →
         ∃ ndq', h' !! q = Some ndq' ∧
                 length (forward ndq') = length (forward ndq)).
Proof.
  intros Hswo Heq h0 seed ops v.
  destruct (run_inv ops Hswo Heq _ _ _ _ (new_spec h0 seed))
    as (h & s & hd & l & Hrun & HI).
  exists h, s, (a_ptr <$> l). split; [done|].
  split; [by eapply nodes_spec|].
  rewrite (find_None_iff h s hd l v Hswo HI). intros Hp.
  destruct (insert_absent Node_copy h s hd l v Hswo Heq Node_copy_ctor HI Hp)
    as (h' & Hins & HI' & _ & _).
  set (x := mkA (length h) v (random_level (rng s)).1) in *.
  set (l' := below v l ++ x :: from v l) in *.
  assert (Hel : ∀ a, a ∈ l' ↔ a ∈ l ∨ a = x).
  { intros a. unfold l'. rewrite elem_of_app, elem_of_cons.
    assert (a ∈ l ↔ a ∈ below v l ∨ a ∈ from v l) as ->
      by (by rewrite <- elem_of_app, below_from).
    tauto. }
  pose proof (inv_sorted _ _ _ _ HI) as Hs.
  assert (Hpv : present v l' = true).
  { eapply (elem_present v l' x); try done;
      [apply (inv_sorted _ _ _ _ HI')|by apply Hel; right|].
    simpl. rewrite Heq. by apply equiv_refl. }
  destruct (find_inv h' _ hd l' v Hswo HI') as (it & Hfind & Hit & Hsome).
  destruct it as [p|]; [|by rewrite (proj1 Hit eq_refl) in Hpv].
  destruct (Hsome p eq_refl) as (a & Ha & Hap & Hav & _).
  assert (a = x) as ->.
  { apply Hel in Ha as [Ha|Ha]; [|done].
    by rewrite (elem_present v l a Hswo Heq Hs Ha Hav) in Hp. }
  destruct (chain_elem _ _ _ _ (inv_chain_nodes _ _ _ _ HI')
              (proj2 (Hel x) (or_intror eq_refl))) as (nd & Hnd & _ & Hl).
  eexists h', _, p, nd. split; [exact Hins|]. split; [done|].
  split; [by rewrite <- Hap|]. split; [rewrite Hl; simpl; lia|].
  split; [done|]. split; [done|].
  intros q ndq (b & -> & Hb)%list_elem_of_fmap_1 Hq.
  destruct (chain_elem _ _ _ _ (inv_chain_nodes _ _ _ _ HI) Hb)
    as (n1 & Hn1 & _ & Hl1).
  destruct (chain_elem _ _ _ _ (inv_chain_nodes _ _ _ _ HI')
              (proj2 (Hel b) (or_introl Hb))) as (n2 & Hn2 & _ & Hl2).
  rewrite Hn1 in Hq. injection Hq as <-.
  exists n2. split; [done|]. by rewrite Hl1, Hl2.
Qed.

(** ** The equality test *)




End SkipList.

Arguments Done {T RNG A} a h s.
Arguments Raised {T RNG A} e h s.
Arguments MFault {T RNG A}.
Arguments MDiverge {T RNG A}.

(** * The properties at concrete element types *)

Lemma Z_strict_weak_order : strict_weak_order Z.ltb.
Proof.
  constructor.
  - intros a. apply Z.ltb_irrefl.
  - intros a b c. rewrite !Z.ltb_lt. lia.
  - intros a b c. rewrite !Z.ltb_lt. lia.
Qed.

Lemma Z_eq_consistent : eq_consistent Z.ltb Z.eqb.
Proof.
  intros a b. unfold equiv.
  destruct (Z.eqb_spec a b), (Z.ltb_spec a b), (Z.ltb_spec b a); simpl; lia.
Qed.




(** C7.  An [insert] whose node cannot be allocated has already raised
    [current_level]: on a new set, with a generator that gives height 1,
    the call leaves by [bad_alloc] with [current_level] 1, while the set
    is still empty. *)
Theorem alloc_failure_raises_level :
  ∃ (h : list Node) (s s' : SkipList),
    SkipList_new 0%Z [] [true; false] = (h, s) ∧
    current_level s = 0 ∧ to_list (T:=Z) h s = Ok [] ∧
    insert Z.ltb Z.eqb draw_list false h s 5%Z = Raised bad_alloc h s' ∧
    current_level s' = 1 ∧ to_list (T:=Z) h s' = Ok [] ∧
    size s' = size s ∧ head s' = head s ∧ rng s' ≠ rng s ∧
    ¬ level_exact s' (T:=Z) [].
Proof.
  eexists _, _, _. split; [reflexivity|].
  split; [reflexivity|]. split; [vm_compute; reflexivity|].
  split; [vm_compute; reflexivity|].
  split; [reflexivity|]. split; [vm_compute; reflexivity|].
  split; [reflexivity|]. split; [reflexivity|].
  split; [by simpl|]. by unfold level_exact.
Qed.

(** ** The theorems at [int], after [insert(5); insert(3); insert(7)] *)

Lemma level0_ascending_witness :
  strict_weak_order Z.ltb ∧ eq_consistent Z.ltb Z.eqb ∧
  ∃ h s ps vs,
    run Z.ltb Z.eqb 0%Z draw_list
      [OpInsert true 5%Z; OpInsert true 3%Z; OpInsert true 7%Z]
      (SkipList_new 0%Z [] [true; false]).1
      (SkipList_new 0%Z [] [true; false]).2 = Some (h, s) ∧
    nodes h s = Ok ps ∧ NoDup ps ∧
    to_list h s = Ok vs ∧ StronglySorted (ltP Z.ltb) vs ∧
    length vs = length ps ∧
    size s = (Z.of_nat (length ps) `mod` SIZE_MOD)%Z ∧
    ∀ S, [OpInsert true 5%Z; OpInsert true 3%Z; OpInsert true 7%Z]
         = OpInsert (RNG:=list bool) true <$> S →
      (∀ x, x ∈ vs → x ∈ S) ∧
      (∀ x, x ∈ S → ∃ y, y ∈ vs ∧ equiv Z.ltb x y = true).
Proof.
  split; [exact Z_strict_weak_order|]. split; [exact Z_eq_consistent|].
  exact (level0_ascending Z.ltb Z.eqb 0%Z draw_list
           Z_strict_weak_order Z_eq_consistent [] [true; false]
           [OpInsert true 5%Z; OpInsert true 3%Z; OpInsert true 7%Z]).
Defined.

Lemma find_correct_witness :
  strict_weak_order Z.ltb ∧ eq_consistent Z.ltb Z.eqb ∧
  ∃ h s vs it,
    run Z.ltb Z.eqb 0%Z draw_list
      [OpInsert true 5%Z; OpInsert true 3%Z; OpInsert true 7%Z]
      (SkipList_new 0%Z [] [true; false]).1
      (SkipList_new 0%Z [] [true; false]).2 = Some (h, s) ∧
    to_list h s = Ok vs ∧
    find Z.ltb Z.eqb h s 5%Z = Ok it ∧
    (it = end_ s ↔ ∀ y, y ∈ vs → (y =? 5)%Z = false) ∧
    (it ≠ end_ s → ∃ y, deref h it = Ok y ∧ y ∈ vs ∧ (y =? 5)%Z = true) ∧
    ∀ S, [OpInsert true 5%Z; OpInsert true 3%Z; OpInsert true 7%Z]
         = OpInsert (RNG:=list bool) true <$> S →
      (it = end_ s ↔ ∀ x, x ∈ S → (x =? 5)%Z = false).
Proof.
  split; [exact Z_strict_weak_order|]. split; [exact Z_eq_consistent|].
  exact (find_correct Z.ltb Z.eqb 0%Z draw_list
           Z_strict_weak_order Z_eq_consistent [] [true; false]
           [OpInsert true 5%Z; OpInsert true 3%Z; OpInsert true 7%Z] 5%Z).
Defined.

Lemma insert_idempotent_witness :
  strict_weak_order Z.ltb ∧ eq_consistent Z.ltb Z.eqb ∧
  ∃ h s vs,
    run Z.ltb Z.eqb 0%Z draw_list
      [OpInsert true 5%Z; OpInsert true 3%Z; OpInsert true 7%Z]
      (SkipList_new 0%Z [] [true; false]).1
      (SkipList_new 0%Z [] [true; false]).2 = Some (h, s) ∧
    to_list h s = Ok vs ∧
    ((∃ y, y ∈ vs ∧ (y =? 5)%Z = true) →
       insert Z.ltb Z.eqb draw_list true h s 5%Z = Done tt h s ∧
       insert_rv Z.ltb Z.eqb draw_list true h s 5%Z = Done tt h s).
Proof.
  split; [exact Z_strict_weak_order|]. split; [exact Z_eq_consistent|].
  exact (insert_idempotent Z.ltb Z.eqb 0%Z draw_list
           Z_strict_weak_order Z_eq_consistent [] [true; false]
           [OpInsert true 5%Z; OpInsert true 3%Z; OpInsert true 7%Z] 5%Z true).
Defined.

Lemma erase_correct_witness :
  strict_weak_order Z.ltb ∧ eq_consistent Z.ltb Z.eqb ∧
  ∃ h s vs,
    run Z.ltb Z.eqb 0%Z draw_list
      [OpInsert true 5%Z; OpInsert true 3%Z; OpInsert true 7%Z]
      (SkipList_new 0%Z [] [true; false]).1
      (SkipList_new 0%Z [] [true; false]).2 = Some (h, s) ∧
    to_list h s = Ok vs ∧
    ((∃ y, y ∈ vs ∧ (y =? 5)%Z = true) →
       ∃ h' s' xs y ys,
         erase Z.ltb Z.eqb h s 5%Z = Done true h' s' ∧
         vs = xs ++ y :: ys ∧ (y =? 5)%Z = true ∧
         to_list h' s' = Ok (xs ++ ys) ∧
         size s' = ((size s - 1) `mod` SIZE_MOD)%Z ∧
         ((0 < size s)%Z → size s' = (size s - 1)%Z)) ∧
    ((∀ y, y ∈ vs → (y =? 5)%Z = false) →
       erase Z.ltb Z.eqb h s 5%Z = Done false h s).
Proof.
  split; [exact Z_strict_weak_order|]. split; [exact Z_eq_consistent|].
  exact (erase_correct Z.ltb Z.eqb 0%Z draw_list
           Z_strict_weak_order Z_eq_consistent [] [true; false]
           [OpInsert true 5%Z; OpInsert true 3%Z; OpInsert true 7%Z] 5%Z).
Defined.

Lemma erase_keeps_erased_node_witness :
  strict_weak_order Z.ltb ∧ eq_consistent Z.ltb Z.eqb ∧
  ∃ h s,
    run Z.ltb Z.eqb 0%Z draw_list
      [OpInsert true 5%Z; OpInsert true 3%Z; OpInsert true 7%Z]
      (SkipList_new 0%Z [] [true; false]).1
      (SkipList_new 0%Z [] [true; false]).2 = Some (h, s) ∧
    ∀ p, find Z.ltb Z.eqb h s 5%Z = Ok (Some p) →
      ∃ h' s' ps' y,
        erase Z.ltb Z.eqb h s 5%Z = Done true h' s' ∧
        h' !! p = h !! p ∧
        deref h (Some p) = Ok y ∧ (y =? 5)%Z = true ∧
        deref h' (Some p) = Ok y ∧
        incr h' (Some p) = incr h (Some p) ∧
        nodes h' s' = Ok ps' ∧ (p ∉ ps') ∧
        (∀ q, incr h' (Some p) = Ok (Some q) → q ∈ ps') ∧
        (∀ q nd, h !! q = Some nd →
           ∃ nd', h' !! q = Some nd' ∧ value nd' = value nd ∧
                  (nd' ≠ nd → head s = Some q ∨ (value nd <? 5)%Z = true)).
Proof.
  split; [exact Z_strict_weak_order|]. split; [exact Z_eq_consistent|].
  exact (erase_keeps_erased_node Z.ltb Z.eqb 0%Z draw_list
           Z_strict_weak_order Z_eq_consistent [] [true; false]
           [OpInsert true 5%Z; OpInsert true 3%Z; OpInsert true 7%Z] 5%Z).
Defined.

(** ** The further properties at [int], after [insert(5); insert(3);
    insert(7)] *)

Lemma height_bound_witness :
  strict_weak_order Z.ltb ∧ eq_consistent Z.ltb Z.eqb ∧
  ∃ h s hd ps,
    run Z.ltb Z.eqb 0%Z draw_list
      [OpInsert true 5%Z; OpInsert true 3%Z; OpInsert true 7%Z]
      (SkipList_new 0%Z [] [true; false]).1
      (SkipList_new 0%Z [] [true; false]).2 = Some (h, s) ∧
    current_level s ≤ MAX_LEVEL ∧
    head s = Some hd ∧
    (∃ nd, h !! hd = Some nd ∧ length (forward nd) = MAX_LEVEL + 1) ∧
    nodes h s = Ok ps ∧
    ∀ p, p ∈ ps →
      ∃ nd, h !! p = Some nd ∧ 1 ≤ length (forward nd) ≤ current_level s + 1.
Proof.
  split; [exact Z_strict_weak_order|]. split; [exact Z_eq_consistent|].
  exact (height_bound Z.ltb Z.eqb 0%Z draw_list
           Z_strict_weak_order Z_eq_consistent [] [true; false]
           [OpInsert true 5%Z; OpInsert true 3%Z; OpInsert true 7%Z]).
Defined.

Lemma size_counts_witness :
  strict_weak_order Z.ltb ∧ eq_consistent Z.ltb Z.eqb ∧
  ∃ h s vs,
    run Z.ltb Z.eqb 0%Z draw_list
      [OpInsert true 5%Z; OpInsert true 3%Z; OpInsert true 7%Z]
      (SkipList_new 0%Z [] [true; false]).1
      (SkipList_new 0%Z [] [true; false]).2 = Some (h, s) ∧
    to_list h s = Ok vs ∧
    ((Z.of_nat (length h) ≤ SIZE_MOD)%Z →
       size s = Z.of_nat (length vs) ∧ (empty s = true ↔ vs = [])).
Proof.
  split; [exact Z_strict_weak_order|]. split; [exact Z_eq_consistent|].
  exact (size_counts Z.ltb Z.eqb 0%Z draw_list
           Z_strict_weak_order Z_eq_consistent [] [true; false]
           [OpInsert true 5%Z; OpInsert true 3%Z; OpInsert true 7%Z]).
Defined.

Lemma begin_least_witness :
  strict_weak_order Z.ltb ∧ eq_consistent Z.ltb Z.eqb ∧
  ∃ h s vs it,
    run Z.ltb Z.eqb 0%Z draw_list
      [OpInsert true 5%Z; OpInsert true 3%Z; OpInsert true 7%Z]
      (SkipList_new 0%Z [] [true; false]).1
      (SkipList_new 0%Z [] [true; false]).2 = Some (h, s) ∧
    to_list h s = Ok vs ∧
    begin_ h s = Ok it ∧
    (it = end_ s ↔ vs = []) ∧
    ∀ x xs, vs = x :: xs →
      deref h it = Ok x ∧ ∀ y, y ∈ xs → (x <? y)%Z = true.
Proof.
  split; [exact Z_strict_weak_order|]. split; [exact Z_eq_consistent|].
  exact (begin_least Z.ltb Z.eqb 0%Z draw_list
           Z_strict_weak_order Z_eq_consistent [] [true; false]
           [OpInsert true 5%Z; OpInsert true 3%Z; OpInsert true 7%Z]).
Defined.

Lemma failed_insert_keeps_content_witness :
  strict_weak_order Z.ltb ∧ eq_consistent Z.ltb Z.eqb ∧
  ∃ h s vs,
    run Z.ltb Z.eqb 0%Z draw_list
      [OpInsert true 5%Z; OpInsert true 3%Z; OpInsert true 7%Z]
      (SkipList_new 0%Z [] [true; false]).1
      (SkipList_new 0%Z [] [true; false]).2 = Some (h, s) ∧
    to_list h s = Ok vs ∧
    ((∀ y, y ∈ vs → (y =? 6)%Z = false) →
       ∃ s',
         insert Z.ltb Z.eqb draw_list false h s 6%Z = Raised bad_alloc h s' ∧
         insert_rv Z.ltb Z.eqb draw_list false h s 6%Z
           = Raised bad_alloc h s' ∧
         head s' = head s ∧ size s' = size s ∧
         to_list h s' = Ok vs ∧ nodes h s' = nodes h s ∧
         ∀ w, find Z.ltb Z.eqb h s' w = find Z.ltb Z.eqb h s w).
Proof.
  split; [exact Z_strict_weak_order|]. split; [exact Z_eq_consistent|].
  exact (failed_insert_keeps_content Z.ltb Z.eqb 0%Z draw_list
           Z_strict_weak_order Z_eq_consistent [] [true; false]
           [OpInsert true 5%Z; OpInsert true 3%Z; OpInsert true 7%Z] 6%Z).
Defined.

Lemma insert_then_find_witness :
  strict_weak_order Z.ltb ∧ eq_consistent Z.ltb Z.eqb ∧
  ∃ h s ps h' s' ps' p y,
    run Z.ltb Z.eqb 0%Z draw_list
      [OpInsert true 5%Z; OpInsert true 3%Z; OpInsert true 7%Z]
      (SkipList_new 0%Z [] [true; false]).1
      (SkipList_new 0%Z [] [true; false]).2 = Some (h, s) ∧
    nodes h s = Ok ps ∧
    insert Z.ltb Z.eqb draw_list true h s 6%Z = Done tt h' s' ∧
    nodes h' s' = Ok ps' ∧
    find Z.ltb Z.eqb h' s' 6%Z = Ok (Some p) ∧ p ∈ ps' ∧
    deref h' (Some p) = Ok y ∧ (y =? 6)%Z = true ∧
    (find Z.ltb Z.eqb h s 6%Z = Ok None →
       size s' = ((size s + 1) `mod` SIZE_MOD)%Z ∧
       (p ∉ ps) ∧ length ps' = S (length ps)) ∧
    (find Z.ltb Z.eqb h s 6%Z ≠ Ok None → h' = h ∧ s' = s) ∧
    (∀ q, q ∈ ps → q ∈ ps' ∧ deref h' (Some q) = deref h (Some q)) ∧
    (∀ w, (w =? 6)%Z = false →
       (find Z.ltb Z.eqb h' s' w = Ok None ↔ find Z.ltb Z.eqb h s w = Ok None)).
Proof.
  split; [exact Z_strict_weak_order|]. split; [exact Z_eq_consistent|].
  exact (insert_then_find Z.ltb Z.eqb 0%Z draw_list
           Z_strict_weak_order Z_eq_consistent [] [true; false]
           [OpInsert true 5%Z; OpInsert true 3%Z; OpInsert true 7%Z] 6%Z).
Defined.

Lemma erase_then_find_witness :
  strict_weak_order Z.ltb ∧ eq_consistent Z.ltb Z.eqb ∧
  ∃ h s ps b h' s' ps',
    run Z.ltb Z.eqb 0%Z draw_list
      [OpInsert true 5%Z; OpInsert true 3%Z; OpInsert true 7%Z]
      (SkipList_new 0%Z [] [true; false]).1
      (SkipList_new 0%Z [] [true; false]).2 = Some (h, s) ∧
    nodes h s = Ok ps ∧
    erase Z.ltb Z.eqb h s 5%Z = Done b h' s' ∧
    nodes h' s' = Ok ps' ∧
    (b = true ↔ find Z.ltb Z.eqb h s 5%Z ≠ Ok None) ∧
    (b = true → length ps = S (length ps')) ∧
    find Z.ltb Z.eqb h' s' 5%Z = Ok None ∧
    erase Z.ltb Z.eqb h' s' 5%Z = Done false h' s' ∧
    (∀ q, q ∈ ps' → q ∈ ps ∧ deref h' (Some q) = deref h (Some q)) ∧
    (∀ w, (w =? 5)%Z = false →
       (find Z.ltb Z.eqb h' s' w = Ok None ↔ find Z.ltb Z.eqb h s w = Ok None)).
Proof.
  split; [exact Z_strict_weak_order|]. split; [exact Z_eq_consistent|].
  exact (erase_then_find Z.ltb Z.eqb 0%Z draw_list
           Z_strict_weak_order Z_eq_consistent [] [true; false]
           [OpInsert true 5%Z; OpInsert true 3%Z; OpInsert true 7%Z] 5%Z).
Defined.

Lemma insert_erase_round_trip_witness :
  strict_weak_order Z.ltb ∧ eq_consistent Z.ltb Z.eqb ∧
  forallb (λ x, existsb (Z.eqb x) [3; 7; 5; 3]%Z) [5; 3; 7; 5]%Z = true ∧
  ∃ h s,
    run Z.ltb Z.eqb 0%Z draw_list
      ((OpInsert (RNG:=list bool) true <$> [5; 3; 7; 5]%Z)
       ++ (OpErase <$> [3; 7; 5; 3]%Z))
      (SkipList_new 0%Z [] [true; false]).1
      (SkipList_new 0%Z [] [true; false]).2 = Some (h, s) ∧
    to_list h s = Ok [] ∧ begin_ h s = Ok (end_ s) ∧
    size s = 0%Z ∧ empty s = true ∧ current_level s = 0.
Proof.
  split; [exact Z_strict_weak_order|]. split; [exact Z_eq_consistent|].
  split; [reflexivity|].
  exact (insert_erase_round_trip Z.ltb Z.eqb 0%Z draw_list
           Z_strict_weak_order Z_eq_consistent [] [true; false]
           [5; 3; 7; 5]%Z [3; 7; 5; 3]%Z eq_refl).
Defined.

Lemma copy_is_independent_witness :
  strict_weak_order Z.ltb ∧ eq_consistent Z.ltb Z.eqb ∧
  (∀ k : nat, (λ _ : nat, true) k = true) ∧
  ∃ h a vs psa h1 b psb h2 b2,
    run Z.ltb Z.eqb 0%Z draw_list
      [OpInsert true 5%Z; OpInsert true 3%Z; OpInsert true 7%Z]
      (SkipList_new 0%Z [] [true; false]).1
      (SkipList_new 0%Z [] [true; false]).2 = Some (h, a) ∧
    to_list h a = Ok vs ∧ nodes h a = Ok psa ∧
    copy_construct Z.ltb Z.eqb 0%Z draw_list (λ _, true) h a [false; true]
      = Done tt h1 b ∧
    to_list h1 b = Ok vs ∧ size b = size a ∧
    nodes h1 b = Ok psb ∧ (∀ p, p ∈ psa → p ∉ psb) ∧
    to_list h1 a = Ok vs ∧
    run Z.ltb Z.eqb 0%Z draw_list [OpErase 3%Z; OpInsert true 4%Z] h1 b
      = Some (h2, b2) ∧
    to_list h2 a = Ok vs ∧ nodes h2 a = Ok psa.
Proof.
  split; [exact Z_strict_weak_order|]. split; [exact Z_eq_consistent|].
  split; [reflexivity|].
  exact (copy_is_independent Z.ltb Z.eqb 0%Z draw_list
           Z_strict_weak_order Z_eq_consistent [] [true; false]
           [OpInsert true 5%Z; OpInsert true 3%Z; OpInsert true 7%Z]
           (λ _, true) [false; true] [OpErase 3%Z; OpInsert true 4%Z]
           (λ _, eq_refl)).
Defined.

Lemma copy_assign_strong_guarantee_witness :
  strict_weak_order Z.ltb ∧ eq_consistent Z.ltb Z.eqb ∧
  ∃ h a vs h2 this vt h3,
    run Z.ltb Z.eqb 0%Z draw_list
      [OpInsert true 5%Z; OpInsert true 3%Z; OpInsert true 7%Z]
      (SkipList_new 0%Z [] [true; false]).1
      (SkipList_new 0%Z [] [true; false]).2 = Some (h, a) ∧
    to_list h a = Ok vs ∧
    run Z.ltb Z.eqb 0%Z draw_list [OpInsert true 9%Z]
      (SkipList_new 0%Z h [false]).1 (SkipList_new 0%Z h [false]).2
      = Some (h2, this) ∧
    to_list h2 this = Ok vt ∧ to_list h2 a = Ok vs ∧
    ((∃ c, copy_assign Z.ltb Z.eqb 0%Z draw_list (λ k, k <? 2) h2 this a []
             = Done tt h3 c ∧
           to_list h3 c = Ok vs ∧ size c = size a) ∨
     (copy_assign Z.ltb Z.eqb 0%Z draw_list (λ k, k <? 2) h2 this a []
        = Raised bad_alloc h3 this ∧
      to_list h3 this = Ok vt ∧ ∃ k, (k <? 2) = false)) ∧
    to_list h3 a = Ok vs.
Proof.
  split; [exact Z_strict_weak_order|]. split; [exact Z_eq_consistent|].
  exact (copy_assign_strong_guarantee Z.ltb Z.eqb 0%Z draw_list
           Z_strict_weak_order Z_eq_consistent [] [true; false]
           [OpInsert true 5%Z; OpInsert true 3%Z; OpInsert true 7%Z]
           [false] [OpInsert true 9%Z] (λ k, k <? 2) []).
Defined.

Lemma level_is_max_height_witness :
  strict_weak_order Z.ltb ∧ eq_consistent Z.ltb Z.eqb ∧
  Forall (allocs_ok (RNG:=list bool))
    [OpInsert true 5%Z; OpInsert true 3%Z; OpErase 5%Z; OpInsert true 7%Z] ∧
  ∃ h s hs,
    run Z.ltb Z.eqb 0%Z draw_list
      [OpInsert true 5%Z; OpInsert true 3%Z; OpErase 5%Z; OpInsert true 7%Z]
      (SkipList_new 0%Z [] [true; false]).1
      (SkipList_new 0%Z [] [true; false]).2 = Some (h, s) ∧
    heights h s = Ok hs ∧
    current_level s = foldr Nat.max 0 hs.
Proof.
  split; [exact Z_strict_weak_order|]. split; [exact Z_eq_consistent|].
  assert (H : Forall (allocs_ok (RNG:=list bool))
    [OpInsert true 5%Z; OpInsert true 3%Z; OpErase 5%Z; OpInsert true 7%Z])
    by (repeat constructor).
  split; [exact H|].
  exact (level_is_max_height Z.ltb Z.eqb 0%Z draw_list
           Z_strict_weak_order Z_eq_consistent [] [true; false]
           [OpInsert true 5%Z; OpInsert true 3%Z; OpErase 5%Z; OpInsert true 7%Z]
           H).
Defined.

Lemma levels_are_sublists_witness :
  strict_weak_order Z.ltb ∧ eq_consistent Z.ltb Z.eqb ∧
  1 ≤ MAX_LEVEL ∧
  ∃ h s ps psk,
    run Z.ltb Z.eqb 0%Z draw_list
      [OpInsert true 5%Z; OpInsert true 3%Z; OpInsert true 7%Z]
      (SkipList_new 0%Z [] [true; false]).1
      (SkipList_new 0%Z [] [true; false]).2 = Some (h, s) ∧
    nodes h s = Ok ps ∧
    level_nodes h s 1 = Ok psk ∧
    psk `sublist_of` ps ∧
    (∀ p, p ∈ ps →
       (p ∈ psk ↔ ∃ nd, h !! p = Some nd ∧ 1 < length (forward nd))) ∧
    (1 = 0 → psk = ps) ∧
    (current_level s < 1 → psk = []).
Proof.
  split; [exact Z_strict_weak_order|]. split; [exact Z_eq_consistent|].
  assert (H : 1 ≤ MAX_LEVEL) by (unfold MAX_LEVEL; lia).
  split; [exact H|].
  exact (levels_are_sublists Z.ltb Z.eqb 0%Z draw_list
           Z_strict_weak_order Z_eq_consistent [] [true; false]
           [OpInsert true 5%Z; OpInsert true 3%Z; OpInsert true 7%Z] 1 H).
Defined.

Lemma iteration_from_find_witness :
  strict_weak_order Z.ltb ∧ eq_consistent Z.ltb Z.eqb ∧
  ∃ h s vs it rest,
    run Z.ltb Z.eqb 0%Z draw_list
      [OpInsert true 5%Z; OpInsert true 3%Z; OpInsert true 7%Z]
      (SkipList_new 0%Z [] [true; false]).1
      (SkipList_new 0%Z [] [true; false]).2 = Some (h, s) ∧
    to_list h s = Ok vs ∧
    find Z.ltb Z.eqb h s 5%Z = Ok it ∧
    iterate deref (S (length h)) h it = Ok rest ∧
    (it = end_ s → rest = []) ∧
    (it ≠ end_ s → rest = filter (λ x, (x <? 5)%Z = false) vs) ∧
    ∃ it', post_incr h it = Ok (it, it') ∧
           iterate deref (S (length h)) h it' = Ok (tail rest).
Proof.
  split; [exact Z_strict_weak_order|]. split; [exact Z_eq_consistent|].
  exact (iteration_from_find Z.ltb Z.eqb 0%Z draw_list
           Z_strict_weak_order Z_eq_consistent [] [true; false]
           [OpInsert true 5%Z; OpInsert true 3%Z; OpInsert true 7%Z] 5%Z).
Defined.

Lemma insert_draws_height_witness :
  strict_weak_order Z.ltb ∧ eq_consistent Z.ltb Z.eqb ∧
  ∃ h s ps,
    run Z.ltb Z.eqb 0%Z draw_list
      [OpInsert true 5%Z; OpInsert true 3%Z; OpInsert true 7%Z]
      (SkipList_new 0%Z [] [true; false]).1
      (SkipList_new 0%Z [] [true; false]).2 = Some (h, s) ∧
    nodes h s = Ok ps ∧
    (find Z.ltb Z.eqb h s 6%Z = Ok None →
     ∃ h' s' p nd,
       insert Z.ltb Z.eqb draw_list true h s 6%Z = Done tt h' s' ∧
       find Z.ltb Z.eqb h' s' 6%Z = Ok (Some p) ∧ h' !! p = Some nd ∧
       length (forward nd) = (random_level draw_list (rng s)).1 + 1 ∧
       rng s' = (random_level draw_list (rng s)).2 ∧
       current_level s'
         = Nat.max (current_level s) (random_level draw_list (rng s)).1 ∧
       ∀ q ndq, q ∈ ps → h !! q = Some ndq →
         ∃ ndq', h' !! q = Some ndq' ∧
                 length (forward ndq') = length (forward ndq)).
Proof.
  split; [exact Z_strict_weak_order|]. split; [exact Z_eq_consistent|].
  exact (insert_draws_height Z.ltb Z.eqb 0%Z draw_list
           Z_strict_weak_order Z_eq_consistent [] [true; false]
           [OpInsert true 5%Z; OpInsert true 3%Z; OpInsert true 7%Z] 6%Z).
Defined.
